(** * Pollivu: the anonymous-vote integrity core

    A shallow embedding of the voting service ([services/poll_service.py]),
    the data model ([models.py]), the token and validation helpers
    ([utils.py]) and the encryption engine ([encryption.py]).

    Conventions.
    - A Python [str] is held as a [string] carrying its UTF-8 bytes; a
      Python [bytes] object is a [list ascii].
    - The database is an explicit store: polls keyed by their primary key,
      options keyed by their primary key, and the votes table as the list
      of its rows in insertion order (the position is the row identity).
    - The clock ([datetime.now]) and the random nonce ([os.urandom]) are
      explicit arguments.
    - [hashlib.sha256], [PBKDF2HMAC] and [AESGCM] come from outside the
      repository: they are parameters of the development. *)

From Stdlib Require Import ZArith List Ascii String Bool Lia.
From stdpp Require Import base option list strings gmap fin_maps sorting.

Local Open Scope string_scope.
Local Open Scope list_scope.
Local Open Scope Z_scope.

(** ** Python values *)

Abbreviation str := string.
Abbreviation bytes := (list ascii).

Inductive exn : Type :=
| ValueError (msg : str)
| IntegrityError (constraint : str)
| BinasciiError (msg : str)
| InvalidTag
| UnicodeDecodeError
| DecryptionFailed (cause : exn).

Inductive result (A : Type) : Type :=
| Ok (a : A)
| Raise (e : exn).
Arguments Ok {A} a.
Arguments Raise {A} e.

(** [str.encode()] with the default codec. *)
Definition encode (s : str) : bytes := list_ascii_of_string s.

(** [bytes.decode('utf-8')]: the strict decoder accepts exactly the
    well-formed byte sequences of the Unicode standard (no overlong forms,
    no surrogates, nothing above U+10FFFF). *)
Definition byte_in (lo hi : N) (c : ascii) : bool :=
  ((lo <=? N_of_ascii c) && (N_of_ascii c <=? hi))%N.

Definition continuation : ascii → bool := byte_in 0x80 0xBF.

Fixpoint utf8_valid (bs : bytes) : bool :=
  match bs with
  | [] => true
  | b0 :: r0 =>
      if byte_in 0x00 0x7F b0 then utf8_valid r0
      else
        match r0 with
        | [] => false
        | b1 :: r1 =>
            if byte_in 0xC2 0xDF b0 then continuation b1 && utf8_valid r1
            else
              match r1 with
              | [] => false
              | b2 :: r2 =>
                  if byte_in 0xE0 0xEF b0 then
                    (if byte_in 0xE0 0xE0 b0 then byte_in 0xA0 0xBF b1
                     else if byte_in 0xED 0xED b0 then byte_in 0x80 0x9F b1
                     else continuation b1)
                    && continuation b2 && utf8_valid r2
                  else
                    match r2 with
                    | [] => false
                    | b3 :: r3 =>
                        byte_in 0xF0 0xF4 b0
                        && (if byte_in 0xF0 0xF0 b0 then byte_in 0x90 0xBF b1
                            else if byte_in 0xF4 0xF4 b0 then byte_in 0x80 0x8F b1
                            else continuation b1)
                        && continuation b2 && continuation b3 && utf8_valid r3
                    end
              end
        end
  end.

Definition decode (bs : bytes) : result str :=
  if utf8_valid bs then Ok (string_of_list_ascii bs) else Raise UnicodeDecodeError.

(** A [str] value is text: its bytes are well-formed UTF-8. *)
Definition is_str (s : str) : Prop := utf8_valid (encode s) = true.

(** ** Poll identifier validation ([utils.py]) *)

(** The fragment of [re] that the pattern [^[A-Za-z0-9_-]{8,32}$] uses:
    [^], a character class repeated between [lo] and [hi] times, and [$],
    which without [re.MULTILINE] matches at the end of the string and also
    just before a newline that is the last character. *)
Inductive atom : Type :=
| Bol
| Eol
| ClassRep (cls : ascii → bool) (lo hi : nat).

Definition newline : ascii := "010"%char.

Fixpoint rep (cls : ascii → bool) (lo hi : nat) (k : list ascii → bool)
    (s : list ascii) : bool :=
  match hi with
  | O => match lo with O => k s | S _ => false end
  | S hi' =>
      match s with
      | c :: s' => cls c && rep cls (Nat.pred lo) hi' k s'
      | [] => false
      end
      || match lo with O => k s | S _ => false end
  end.

(** [match_here at_start pat s]: [pat] matches a prefix of [s], where
    [at_start] tells whether [s] begins at position 0. *)
Fixpoint match_here (at_start : bool) (pat : list atom) (s : list ascii) : bool :=
  match pat with
  | [] => true
  | Bol :: pat' => at_start && match_here at_start pat' s
  | Eol :: pat' =>
      match s with
      | [] => match_here at_start pat' s
      | [c] => bool_decide (c = newline) && match_here at_start pat' s
      | _ => false
      end
  | ClassRep cls lo hi :: pat' =>
      rep cls lo hi
        (λ s', match_here (at_start && bool_decide (s' = s)) pat' s') s
  end.

(** [bool(re.match(pat, s))] *)
Definition re_match (pat : list atom) (s : str) : bool :=
  match_here true pat (list_ascii_of_string s).

(** The class [[A-Za-z0-9_-]]. *)
Definition poll_id_char (c : ascii) : bool :=
  byte_in 65 90 c || byte_in 97 122 c || byte_in 48 57 c
  || bool_decide (c = "_"%char) || bool_decide (c = "-"%char).

Definition poll_id_pattern : list atom :=
  [Bol; ClassRep poll_id_char 8 32; Eol].

(** [is_valid_poll_id] *)
Definition is_valid_poll_id (poll_id : str) : bool :=
  if decide (poll_id = "") then false
  else re_match poll_id_pattern poll_id.

(** [validate_poll_id] *)
Definition validate_poll_id (poll_id : str) : result str :=
  if decide (poll_id = "") then Raise (ValueError "Poll ID is required")
  else if negb (re_match poll_id_pattern poll_id)
       then Raise (ValueError "Invalid poll ID format")
       else Ok poll_id.

(** ** Base64 ([base64.urlsafe_b64encode], [base64.urlsafe_b64decode]) *)

(** A 6-bit digit, least significant bit first. *)
Inductive sextet : Type :=
| Sextet (s0 s1 s2 s3 s4 s5 : bool).

Definition nat_of_sextet (x : sextet) : nat :=
  let 'Sextet s0 s1 s2 s3 s4 s5 := x in
  (Nat.b2n s0 + 2 * (Nat.b2n s1 + 2 * (Nat.b2n s2 + 2 * (Nat.b2n s3
     + 2 * (Nat.b2n s4 + 2 * Nat.b2n s5)))))%nat.

Definition sextet_of_nat (n : nat) : sextet :=
  Sextet (Nat.odd n) (Nat.odd (n / 2)) (Nat.odd (n / 4)) (Nat.odd (n / 8))
         (Nat.odd (n / 16)) (Nat.odd (n / 32)).

Definition b64_alphabet : list ascii :=
  list_ascii_of_string
    "ABCDEFGHIJKLMNOPQRSTUVWXYZabcdefghijklmnopqrstuvwxyz0123456789+/".

Definition pad : ascii := "="%char.

(** [table_b2a_base64] *)
Definition table_b2a (x : sextet) : ascii :=
  nth (nat_of_sextet x) b64_alphabet pad.

Fixpoint index_of (c : ascii) (l : list ascii) (i : nat) : option nat :=
  match l with
  | [] => None
  | d :: l' => if decide (c = d) then Some i else index_of c l' (S i)
  end.

(** [table_a2b_base64]: [None] for the characters outside the alphabet. *)
Definition table_a2b (c : ascii) : option sextet :=
  sextet_of_nat <$> index_of c b64_alphabet 0.

(** The four digits of three bytes [a], [b], [c]: the top six bits of [a];
    the low two of [a] and the top four of [b]; the low four of [b] and the
    top two of [c]; the low six of [c]. *)
Definition digit1 (a : ascii) : sextet :=
  let 'Ascii _ _ a2 a3 a4 a5 a6 a7 := a in Sextet a2 a3 a4 a5 a6 a7.

Definition digit2 (a b : ascii) : sextet :=
  let 'Ascii a0 a1 _ _ _ _ _ _ := a in
  let 'Ascii _ _ _ _ b4 b5 b6 b7 := b in
  Sextet b4 b5 b6 b7 a0 a1.

Definition digit3 (b c : ascii) : sextet :=
  let 'Ascii b0 b1 b2 b3 _ _ _ _ := b in
  let 'Ascii _ _ _ _ _ _ c6 c7 := c in
  Sextet c6 c7 b0 b1 b2 b3.

Definition digit4 (c : ascii) : sextet :=
  let 'Ascii c0 c1 c2 c3 c4 c5 _ _ := c in Sextet c0 c1 c2 c3 c4 c5.

(** [binascii.b2a_base64(s, newline=False)] *)
Fixpoint b2a_base64 (bs : bytes) : bytes :=
  match bs with
  | [] => []
  | [a] => [table_b2a (digit1 a); table_b2a (digit2 a zero); pad; pad]
  | [a; b] =>
      [table_b2a (digit1 a); table_b2a (digit2 a b);
       table_b2a (digit3 b zero); pad]
  | a :: b :: c :: rest =>
      table_b2a (digit1 a) :: table_b2a (digit2 a b)
        :: table_b2a (digit3 b c) :: table_b2a (digit4 c) :: b2a_base64 rest
  end.

(** The decoder's output bytes, as in the C loop:
    [(leftchar << 2) | (this_ch >> 4)], [(leftchar << 4) | (this_ch >> 2)]
    and [(leftchar << 6) | this_ch]. *)
Definition out1 (leftchar this_ch : sextet) : ascii :=
  let 'Sextet l0 l1 l2 l3 l4 l5 := leftchar in
  let 'Sextet t0 t1 t2 t3 t4 t5 := this_ch in
  Ascii t4 t5 l0 l1 l2 l3 l4 l5.

Definition out2 (leftchar this_ch : sextet) : ascii :=
  let 'Sextet l0 l1 l2 l3 l4 l5 := leftchar in
  let 'Sextet t0 t1 t2 t3 t4 t5 := this_ch in
  Ascii t2 t3 t4 t5 l0 l1 l2 l3.

Definition out3 (leftchar this_ch : sextet) : ascii :=
  let 'Sextet l0 l1 l2 l3 l4 l5 := leftchar in
  let 'Sextet t0 t1 t2 t3 t4 t5 := this_ch in
  Ascii t0 t1 t2 t3 t4 t5 l0 l1.

(** [this_ch & 0x0f] and [this_ch & 0x03] *)
Definition low4 (x : sextet) : sextet :=
  let 'Sextet t0 t1 t2 t3 _ _ := x in Sextet t0 t1 t2 t3 false false.

Definition low2 (x : sextet) : sextet :=
  let 'Sextet t0 t1 _ _ _ _ := x in Sextet t0 t1 false false false false.

Definition sextet_zero : sextet := Sextet false false false false false false.

(** [binascii.a2b_base64(s)] in its default, non-strict mode: characters
    outside the alphabet are skipped, a pad sequence that completes a quad
    ends the parse, and the bits left over in an incomplete last quad are
    dropped. *)
Fixpoint a2b_loop (s : bytes) (quad_pos : nat) (leftchar : sextet)
    (pad_count : nat) (out : bytes) : result bytes :=
  match s with
  | [] =>
      match quad_pos with
      | O => Ok out
      | 1%nat => Raise (BinasciiError
          "Invalid base64-encoded string: number of data characters cannot be 1 more than a multiple of 4")
      | _ => Raise (BinasciiError "Incorrect padding")
      end
  | this_ch :: s' =>
      if decide (this_ch = pad) then
        if (2 <=? quad_pos)%nat then
          if (4 <=? quad_pos + S pad_count)%nat then Ok out
          else a2b_loop s' quad_pos leftchar (S pad_count) out
        else a2b_loop s' quad_pos leftchar pad_count out
      else
        match table_a2b this_ch with
        | None => a2b_loop s' quad_pos leftchar pad_count out
        | Some d =>
            match quad_pos with
            | O => a2b_loop s' 1%nat d O out
            | 1%nat => a2b_loop s' 2%nat (low4 d) O (out ++ [out1 leftchar d])
            | 2%nat => a2b_loop s' 3%nat (low2 d) O (out ++ [out2 leftchar d])
            | _ => a2b_loop s' O sextet_zero O (out ++ [out3 leftchar d])
            end
        end
  end.

Definition a2b_base64 (s : bytes) : result bytes :=
  a2b_loop s O sextet_zero O [].

(** [bytes.translate] with [_urlsafe_encode_translation] and
    [_urlsafe_decode_translation]. *)
Definition urlsafe_encode_char (c : ascii) : ascii :=
  if decide (c = "+"%char) then "-"%char
  else if decide (c = "/"%char) then "_"%char else c.

Definition urlsafe_decode_char (c : ascii) : ascii :=
  if decide (c = "-"%char) then "+"%char
  else if decide (c = "_"%char) then "/"%char else c.

Definition urlsafe_b64encode (bs : bytes) : bytes :=
  urlsafe_encode_char <$> b2a_base64 bs.

Definition urlsafe_b64decode (s : bytes) : result bytes :=
  a2b_base64 (urlsafe_decode_char <$> s).

(** ** Data model ([models.py]) *)

(** The columns that the modelled operations read or write.  The primary
    keys of polls and of options are the keys of the maps that hold the
    rows; timestamps are seconds on the UTC clock. *)
Record Poll := mkPoll {
  question : str;
  question_encrypted : option str;
  expires_at : option Z;
  allow_vote_change : bool;
  is_closed : bool;
  is_encrypted : bool;
  creator_token_hash : str;
  total_votes : Z
}.

Record PollOption := mkPollOption {
  opt_poll_id : str;
  option_text : str;
  vote_count : Z;
  display_order : Z
}.

Record Vote := mkVote {
  vote_poll_id : str;
  voter_token_hash : str;
  vote_option_id : Z;
  voted_at : Z
}.

Record DB := mkDB {
  polls : gmap string Poll;
  poll_options : gmap Z PollOption;
  votes : list Vote
}.

Definition set_total_votes (p : Poll) (n : Z) : Poll :=
  mkPoll (question p) (question_encrypted p) (expires_at p)
         (allow_vote_change p) (is_closed p) (is_encrypted p)
         (creator_token_hash p) n.

Definition set_vote_count (o : PollOption) (n : Z) : PollOption :=
  mkPollOption (opt_poll_id o) (option_text o) n (display_order o).

Definition set_vote_option_id (v : Vote) (oid : Z) : Vote :=
  mkVote (vote_poll_id v) (voter_token_hash v) oid (voted_at v).

Definition with_polls (st : DB) (m : gmap string Poll) : DB :=
  mkDB m (poll_options st) (votes st).

Definition with_poll_options (st : DB) (m : gmap Z PollOption) : DB :=
  mkDB (polls st) m (votes st).

Definition with_votes (st : DB) (l : list Vote) : DB :=
  mkDB (polls st) (poll_options st) l.

(** [Poll.is_expired]: a poll without expiry never expires; otherwise it is
    expired once the clock is strictly past [expires_at]. *)
Definition is_expired (p : Poll) (now : Z) : bool :=
  match expires_at p with
  | None => false
  | Some expires => bool_decide (now > expires)
  end.

(** [Poll.is_active] *)
Definition is_active (p : Poll) (now : Z) : bool :=
  negb (is_closed p) && negb (is_expired p now).

(** ** Queries *)

(** [PollService.get_poll] *)
Definition get_poll (st : DB) (poll_id : str) : option Poll :=
  polls st !! poll_id.

(** [PollOption.query.filter_by(id=option_id, poll_id=poll.id).first()] *)
Definition find_option (st : DB) (option_id : Z) (poll_id : str)
  : option PollOption :=
  match poll_options st !! option_id with
  | Some o => if decide (opt_poll_id o = poll_id) then Some o else None
  | None => None
  end.

(** [Vote.query.filter_by(poll_id=..., voter_token_hash=...).first()]:
    the position and contents of the first matching row. *)
Definition find_vote (st : DB) (poll_id voter_hash : str)
  : option (nat * Vote) :=
  list_find (λ v, vote_poll_id v = poll_id ∧ voter_token_hash v = voter_hash)
            (votes st).

(** The key of the [unique_vote_per_poll] constraint. *)
Definition vote_key (v : Vote) : str * str :=
  (vote_poll_id v, voter_token_hash v).

(** [db.session.add(vote); db.session.commit()]: the insert is refused by
    [UniqueConstraint('poll_id', 'voter_token_hash')] when a row with the
    same key exists. *)
Definition insert_vote (st : DB) (v : Vote) : result DB :=
  if decide (vote_key v ∈ vote_key <$> votes st)
  then Raise (IntegrityError "unique_vote_per_poll")
  else Ok (with_votes st (votes st ++ [v])).

(** [order_by='PollOption.display_order'] *)
Definition by_display_order (a b : Z * PollOption) : Prop :=
  (display_order a.2 ≤ display_order b.2)%Z.

#[local] Instance by_display_order_dec : RelDecision by_display_order.
Proof. intros a b. unfold by_display_order. apply _. Defined.

(** [poll.options]: the options of a poll, ordered by [display_order]. *)
Definition options_of (st : DB) (poll_id : str) : list (Z * PollOption) :=
  merge_sort by_display_order
    (filter (λ a : Z * PollOption, opt_poll_id a.2 = poll_id)
       (map_to_list (poll_options st))).

(** [PollOption.to_dict], without the floating-point [percentage]. *)
Record OptionDict := mkOptionDict {
  d_id : Z;
  d_option_text : str;
  d_vote_count : Z;
  d_display_order : Z
}.

Definition to_dict (a : Z * PollOption) : OptionDict :=
  mkOptionDict a.1 (option_text a.2) (vote_count a.2) (display_order a.2).

Record VoteData := mkVoteData {
  voted_option_id : Z;
  data_total_votes : Z;
  results : list OptionDict
}.

Definition vote_data (st : DB) (poll_id : str) (option_id : Z) : VoteData :=
  mkVoteData option_id
    (from_option total_votes 0 (polls st !! poll_id))
    (to_dict <$> options_of st poll_id).

(** The triple [(success, message, updated_data)] returned by
    [PollService.vote]. *)
Definition VoteReturn : Type := bool * str * option VoteData.

Definition PollInactive : VoteReturn := (false, "Poll is no longer active", None).
Definition InvalidOption : VoteReturn := (false, "Invalid option", None).
Definition AlreadyVoted : VoteReturn := (false, "You have already voted", None).
Definition VoteChanged (d : VoteData) : VoteReturn :=
  (true, "Vote changed successfully", Some d).
Definition VoteRecorded (d : VoteData) : VoteReturn :=
  (true, "Vote recorded", Some d).

(** ** Counter updates *)

(** [old_option.vote_count = max(0, old_option.vote_count - 1)], guarded by
    [if old_option:]. *)
Definition decrement_option (st : DB) (option_id : Z) : DB :=
  match poll_options st !! option_id with
  | Some old_option =>
      with_poll_options st
        (<[option_id := set_vote_count old_option
                          (Z.max 0 (vote_count old_option - 1))]>
           (poll_options st))
  | None => st
  end.

(** [option.vote_count += 1].  The session's identity map hands out one
    object per primary key, so the object read before a decrement of the
    same row sees that decrement: the increment reads the current row. *)
Definition increment_option (st : DB) (option_id : Z) : DB :=
  match poll_options st !! option_id with
  | Some option =>
      with_poll_options st
        (<[option_id := set_vote_count option (vote_count option + 1)]>
           (poll_options st))
  | None => st
  end.

(** [poll.total_votes += 1] *)
Definition increment_total (st : DB) (poll_id : str) : DB :=
  match polls st !! poll_id with
  | Some p =>
      with_polls st (<[poll_id := set_total_votes p (total_votes p + 1)]> (polls st))
  | None => st
  end.

(** [existing_vote.option_id = option_id] on the row at position [i]. *)
Definition reassign_vote (st : DB) (i : nat) (existing_vote : Vote)
    (option_id : Z) : DB :=
  with_votes st (<[i := set_vote_option_id existing_vote option_id]> (votes st)).

Section Service.

(** ** Primitives from outside the repository *)

(** [hashlib.sha256(m).hexdigest()] *)
Variable sha256_hexdigest : bytes → str.

(** [PBKDF2HMAC(algorithm=SHA256(), length, salt, iterations).derive(password)] *)
Variable pbkdf2_hmac_sha256 : N → bytes → N → bytes → bytes.

(** [AESGCM(key).encrypt(nonce, data, None)], and
    [AESGCM(key).decrypt(nonce, data, None)] with [None] for a raised
    exception. *)
Variable aesgcm_encrypt : bytes → bytes → bytes → bytes.
Variable aesgcm_decrypt : bytes → bytes → bytes → option bytes.

(** ** Token engine ([utils.py]) *)

(** [generate_voter_token]: the digest of [f"{session_id}:{poll_id}"]. *)
Definition generate_voter_token (session_id poll_id : str) : str :=
  sha256_hexdigest (encode (session_id +:+ ":" +:+ poll_id)).

(** [hash_voter_token] *)
Definition hash_voter_token (token : str) : str :=
  sha256_hexdigest (encode token).

(** [hash_creator_token] *)
Definition hash_creator_token (token : str) : str :=
  sha256_hexdigest (encode token).

(** ** Encryption engine ([encryption.py]) *)

Definition KEY_SIZE : N := 32.
Definition NONCE_SIZE : nat := 12.

Record AES256Encryption := mkAES256Encryption {
  salt : bytes;
  _key : bytes
}.

(** [AES256Encryption._derive_key] *)
Definition _derive_key (salt : bytes) (secret_key : str) : bytes :=
  pbkdf2_hmac_sha256 KEY_SIZE salt 100000 (encode secret_key).

(** [AES256Encryption.__init__]: [environ_salt] is
    [os.environ.get('POLLIVU_SALT')]. *)
Definition AES256Encryption_init (environ_salt : option str)
    (secret_key : str) (salt : option bytes) : result AES256Encryption :=
  let chosen :=
    match salt with
    | Some (c :: l) => Some (c :: l)
    | _ =>
        match environ_salt with
        | Some (String c e) => Some (encode (String c e))
        | _ => None
        end
    end in
  match chosen with
  | Some sa => Ok (mkAES256Encryption sa (_derive_key sa secret_key))
  | None =>
      Raise (ValueError "POLLIVU_SALT environment variable is required for encryption")
  end.

(** [AES256Encryption.encrypt]; [nonce] is the value of
    [os.urandom(self.NONCE_SIZE)]. *)
Definition encrypt (self : AES256Encryption) (nonce : bytes) (plaintext : str)
  : result str :=
  if decide (plaintext = "") then Ok ""
  else
    let ciphertext := aesgcm_encrypt (_key self) nonce (encode plaintext) in
    let encrypted_data := (nonce ++ ciphertext)%list in
    decode (urlsafe_b64encode encrypted_data).

(** The body of the [try] block of [AES256Encryption.decrypt]. *)
Definition decrypt_body (self : AES256Encryption) (encrypted : str) : result str :=
  match urlsafe_b64decode (encode encrypted) with
  | Raise e => Raise e
  | Ok encrypted_data =>
      let nonce := take NONCE_SIZE encrypted_data in
      let ciphertext := drop NONCE_SIZE encrypted_data in
      match aesgcm_decrypt (_key self) nonce ciphertext with
      | None => Raise InvalidTag
      | Some plaintext => decode plaintext
      end
  end.

(** [AES256Encryption.decrypt]: every exception of the body is re-raised as
    [ValueError(f"Decryption failed - data may be tampered: {e}")], written
    [DecryptionFailed e]. *)
Definition decrypt (self : AES256Encryption) (encrypted : str) : result str :=
  if decide (encrypted = "") then Ok ""
  else
    match decrypt_body self encrypted with
    | Ok plaintext => Ok plaintext
    | Raise e => Raise (DecryptionFailed e)
    end.

(** ** [EncryptedMixin] and [Poll.get_question] ([models.py]) *)

(** [EncryptedMixin.encrypt_field] *)
Definition encrypt_field (environ_salt : option str) (nonce : bytes)
    (value secret_key : str) : result str :=
  if decide (value = "") then Ok ""
  else
    match AES256Encryption_init environ_salt secret_key None with
    | Ok e => encrypt e nonce value
    | Raise e => Raise e
    end.

(** The body of the [try] block of [EncryptedMixin.decrypt_field]. *)
Definition decrypt_field_body (environ_salt : option str)
    (encrypted secret_key : str) : result str :=
  match AES256Encryption_init environ_salt secret_key None with
  | Ok e => decrypt e encrypted
  | Raise e => Raise e
  end.

(** [EncryptedMixin.decrypt_field] *)
Definition decrypt_field (environ_salt : option str)
    (encrypted secret_key : str) : result str :=
  if decide (encrypted = "") then Ok ""
  else
    match decrypt_field_body environ_salt encrypted secret_key with
    | Ok v => Ok v
    | Raise _ => Ok ""
    end.

(** Python truthiness of a nullable text value. *)
Definition truthy (o : option str) : bool :=
  match o with
  | Some (String _ _) => true
  | _ => false
  end.

(** [Poll.get_question] *)
Definition get_question (environ_salt : option str) (self : Poll)
    (secret_key : option str) : result str :=
  if is_encrypted self && truthy (question_encrypted self) && truthy secret_key
  then
    match decrypt_field environ_salt (default "" (question_encrypted self))
            (default "" secret_key) with
    | Ok v => Ok v
    | Raise _ => Ok (question self)
    end
  else Ok (question self).

(** The [return] statement through which a call of [Poll.get_question]
    leaves: the one of the [try] block, the one of the [except] branch, or
    the last one. *)
Inductive question_branch : Type :=
| TryReturn
| ExceptReturn
| LastReturn.

Definition get_question_branch (environ_salt : option str) (self : Poll)
    (secret_key : option str) : question_branch :=
  if is_encrypted self && truthy (question_encrypted self) && truthy secret_key
  then
    match decrypt_field environ_salt (default "" (question_encrypted self))
            (default "" secret_key) with
    | Ok _ => TryReturn
    | Raise _ => ExceptReturn
    end
  else LastReturn.

(** ** The voting protocol ([PollService.vote]) *)

(** [poll] is the primary key of a persistent [Poll] row; the result is
    [None] only for a reference to no row, which the callers exclude
    ([get_poll] and [abort(404)] come first). *)
Definition vote (st : DB) (poll : str) (option_id : Z) (session_id : str)
    (now : Z) : option (result VoteReturn * DB) :=
  p ← polls st !! poll;
  Some
    (if negb (is_active p now) then (Ok PollInactive, st)
     else
       match find_option st option_id poll with
       | None => (Ok InvalidOption, st)
       | Some _ =>
           let voter_token := generate_voter_token session_id poll in
           let voter_hash := hash_voter_token voter_token in
           match find_vote st poll voter_hash with
           | Some (i, existing_vote) =>
               if allow_vote_change p then
                 let st1 := decrement_option st (vote_option_id existing_vote) in
                 let st2 := reassign_vote st1 i existing_vote option_id in
                 let st3 := increment_option st2 option_id in
                 (Ok (VoteChanged (vote_data st3 poll option_id)), st3)
               else (Ok AlreadyVoted, st)
           | None =>
               let v := mkVote poll voter_hash option_id now in
               let st1 := increment_option st option_id in
               let st2 := increment_total st1 poll in
               match insert_vote st2 v with
               | Ok st3 => (Ok (VoteRecorded (vote_data st3 poll option_id)), st3)
               | Raise e => (Raise e, st)
               end
           end
       end).

(** The answers of the route [POST /poll/<poll_id>/vote]: 400 with an
    error, 404, or what the service returned. *)
Inductive Response : Type :=
| BadRequest (error : str)
| NotFound
| Served (r : result VoteReturn).

(** The route once the request is read: look the poll up, answer 404
    without it, else call the service. *)
Definition cast_vote (st : DB) (poll_id : str) (option_id : Z)
    (session_id : str) (now : Z) : Response * DB :=
  match get_poll st poll_id with
  | None => (NotFound, st)
  | Some _ =>
      match vote st poll_id option_id session_id now with
      | Some (r, st') => (Served r, st')
      | None => (NotFound, st)
      end
  end.

(** The route from the start: the identifier check comes first, then the
    lookup, then the option of the request body: [option_id] is the number
    that the body gives, [None] for a body without one.  The test
    [if not option_id] also refuses the number zero, which is falsy.  A
    body whose option is not a number (a text that [int] converts, or one
    that it refuses with 400 "Invalid option ID") is not modelled. *)
Definition vote_route (st : DB) (poll_id : str) (option_id : option Z)
    (session_id : str) (now : Z) : Response * DB :=
  if negb (is_valid_poll_id poll_id) then (BadRequest "Invalid poll ID", st)
  else
    match get_poll st poll_id with
    | None => (NotFound, st)
    | Some _ =>
        match option_id with
        | None => (BadRequest "No option selected", st)
        | Some option_id =>
            if decide (option_id = 0)
            then (BadRequest "No option selected", st)
            else cast_vote st poll_id option_id session_id now
        end
    end.

End Service.


(** ** Notions used in the statements *)

(** The counter of an option row, when the row exists. *)
Definition count_of (st : DB) (option_id : Z) : option Z :=
  vote_count <$> poll_options st !! option_id.

(** The store after a vote change: floor-decrement of the old option, the
    row reassigned, the new option incremented. *)
Definition changed (st : DB) (i : nat) (existing_vote : Vote) (option_id : Z)
  : DB :=
  increment_option
    (reassign_vote (decrement_option st (vote_option_id existing_vote))
       i existing_vote option_id)
    option_id.

(** The store after a first vote: both counters incremented, one row
    appended. *)
Definition recorded (st : DB) (poll voter_hash : str) (option_id now : Z) : DB :=
  let st2 := increment_total (increment_option st option_id) poll in
  with_votes st2 (votes st2 ++ [mkVote poll voter_hash option_id now]).

(** A request to the voting route, and the store after a sequence of
    them. *)
Record Request := mkRequest {
  req_poll : str;
  req_option : Z;
  req_session : str;
  req_now : Z
}.

Definition step (sha256_hexdigest : bytes → str) (st : DB) (rq : Request) : DB :=
  (cast_vote sha256_hexdigest st (req_poll rq) (req_option rq)
     (req_session rq) (req_now rq)).2.

Definition run (sha256_hexdigest : bytes → str) (st : DB) (rqs : list Request)
  : DB :=
  foldl (step sha256_hexdigest) st rqs.

(** The [unique_vote_per_poll] constraint as a property of the table. *)
Definition votes_unique (st : DB) : Prop :=
  NoDup (vote_key <$> votes st).

(** [sum(option.vote_count for option in poll.options)] *)
Definition sum_option_votes (st : DB) (poll : str) : Z :=
  foldr Z.add 0 ((λ a : Z * PollOption, vote_count a.2) <$> options_of st poll).

(** The number of [Vote] rows that point at an option. *)
Definition hit (k : Z) (v : Vote) : nat :=
  if decide (vote_option_id v = k) then 1%nat else 0%nat.

Definition hits (k : Z) (l : list Vote) : nat :=
  length (filter (λ v, vote_option_id v = k) l).

Definition rows_for (st : DB) (option_id : Z) : nat :=
  hits option_id (votes st).

(** A poll as [create_poll] leaves it: total and counters at zero, and no
    [Vote] row that refers to the poll or to one of its options. *)
Record fresh_poll (st : DB) (poll : str) : Prop := mkFreshPoll {
  fresh_total : ∃ p, polls st !! poll = Some p ∧ total_votes p = 0;
  fresh_counts : ∀ k o, poll_options st !! k = Some o → opt_poll_id o = poll →
                        vote_count o = 0;
  fresh_no_vote : ∀ v, v ∈ votes st → vote_poll_id v ≠ poll;
  fresh_no_ref : ∀ v o, v ∈ votes st →
                        poll_options st !! vote_option_id v = Some o →
                        opt_poll_id o ≠ poll
}.

(** The same, as a check that runs. *)
Definition is_fresh_poll (st : DB) (poll : str) : bool :=
  bool_decide (total_votes <$> polls st !! poll = Some 0)
  && forallb (λ a : Z * PollOption,
                bool_decide (opt_poll_id a.2 = poll → vote_count a.2 = 0))
       (map_to_list (poll_options st))
  && forallb (λ v,
                bool_decide (vote_poll_id v ≠ poll)
                && match poll_options st !! vote_option_id v with
                   | Some o => bool_decide (opt_poll_id o ≠ poll)
                   | None => true
                   end)
       (votes st).

(** The tally of a poll agrees with its [Vote] rows. *)
Record tallied (st : DB) (poll : str) : Prop := mkTallied {
  tally_total : ∃ p, polls st !! poll = Some p
                     ∧ total_votes p = sum_option_votes st poll;
  tally_counts : ∀ k o, poll_options st !! k = Some o → opt_poll_id o = poll →
                        vote_count o = Z.of_nat (rows_for st k);
  tally_option : ∀ v, v ∈ votes st → vote_poll_id v = poll →
                      ∃ o, poll_options st !! vote_option_id v = Some o
                           ∧ opt_poll_id o = poll;
  tally_poll : ∀ v o, v ∈ votes st →
                      poll_options st !! vote_option_id v = Some o →
                      opt_poll_id o = poll → vote_poll_id v = poll
}.

(** No two messages share a digest. *)
Definition collision_free (digest : bytes → str) : Prop :=
  ∀ m1 m2, digest m1 = digest m2 → m1 = m2.




Definition poll_id_chars : list ascii :=
  list_ascii_of_string
    "ABCDEFGHIJKLMNOPQRSTUVWXYZabcdefghijklmnopqrstuvwxyz0123456789_-".



(** The format a poll identifier is specified to have: 8 to 32 characters,
    all of them from [[A-Za-z0-9_-]]. *)
Definition well_formed_poll_id (s : str) : bool :=
  let l := list_ascii_of_string s in
  (8 <=? length l)%nat && (length l <=? 32)%nat && forallb poll_id_char l.

(** Base64 text that need not be canonical: [b2a_base64] with the bits of
    the last digit that no byte uses taken from [c] instead of zero. *)
Fixpoint b2a_base64_loose (c : ascii) (bs : bytes) : bytes :=
  match bs with
  | [] => []
  | [a] => [table_b2a (digit1 a); table_b2a (digit2 a c); pad; pad]
  | [a; b] =>
      [table_b2a (digit1 a); table_b2a (digit2 a b);
       table_b2a (digit3 b c); pad]
  | a :: b :: c' :: rest =>
      table_b2a (digit1 a) :: table_b2a (digit2 a b)
        :: table_b2a (digit3 b c') :: table_b2a (digit4 c')
        :: b2a_base64_loose c rest
  end.

(** Two texts that differ in exactly one character. *)
Definition one_char_differs (l l' : bytes) : Prop :=
  ∃ pre c c' suf, l = pre ++ c :: suf ∧ l' = pre ++ c' :: suf ∧ c ≠ c'.

(** Tamper detection as specified: whatever single character of the blob
    of a non-empty text is replaced, [decrypt] raises [DecryptionFailed]. *)
Definition detects_every_change
    (aesgcm_encrypt : bytes → bytes → bytes → bytes)
    (aesgcm_decrypt : bytes → bytes → bytes → option bytes)
    (self : AES256Encryption) : Prop :=
  ∀ nonce x blob blob',
    is_str x → x ≠ "" → length nonce = NONCE_SIZE →
    encrypt aesgcm_encrypt self nonce x = Ok blob →
    one_char_differs (encode blob) (encode blob') →
    ∃ e, decrypt aesgcm_decrypt self blob' = Raise (DecryptionFailed e).

(** The contribution of an option row to the sum of a poll. *)
Definition weight (poll : str) (a : Z * PollOption) : Z :=
  if decide (opt_poll_id a.2 = poll) then vote_count a.2 else 0.

(** The ways a call of [PollService.vote] ends, with the store it leaves. *)
Section Cases.

Context (sha256_hexdigest : bytes → str).

Local Abbreviation voter_hash session_id poll :=
  (hash_voter_token sha256_hexdigest
     (generate_voter_token sha256_hexdigest session_id poll)).

Inductive vote_case (st : DB) (poll : str) (option_id : Z) (session_id : str)
    (now : Z) : result VoteReturn → DB → Prop :=
| case_inactive : vote_case st poll option_id session_id now (Ok PollInactive) st
| case_invalid : vote_case st poll option_id session_id now (Ok InvalidOption) st
| case_already (i : nat) (v : Vote) :
    find_vote st poll (voter_hash session_id poll) = Some (i, v) →
    vote_case st poll option_id session_id now (Ok AlreadyVoted) st
| case_changed (p : Poll) (o : PollOption) (i : nat) (v : Vote) :
    polls st !! poll = Some p →
    find_option st option_id poll = Some o →
    find_vote st poll (voter_hash session_id poll) = Some (i, v) →
    vote_case st poll option_id session_id now
      (Ok (VoteChanged (vote_data (changed st i v option_id) poll option_id)))
      (changed st i v option_id)
| case_recorded (p : Poll) (o : PollOption) :
    polls st !! poll = Some p →
    find_option st option_id poll = Some o →
    find_vote st poll (voter_hash session_id poll) = None →
    vote_case st poll option_id session_id now
      (Ok (VoteRecorded
             (vote_data (recorded st poll (voter_hash session_id poll) option_id now)
                poll option_id)))
      (recorded st poll (voter_hash session_id poll) option_id now).

End Cases.

(** ** Further notions: what the pages show of a vote *)

(** The lookup of [view_poll] and [poll_results]: [voted_option_id], which
    is [None] exactly when [has_voted] is false. *)
Definition voted_option_id_of (sha256_hexdigest : bytes → str) (st : DB)
    (poll_id session_id : str) : option Z :=
  (λ iv : nat * Vote, vote_option_id iv.2)
    <$> find_vote st poll_id
          (hash_voter_token sha256_hexdigest
             (generate_voter_token sha256_hexdigest session_id poll_id)).

Definition has_voted (sha256_hexdigest : bytes → str) (st : DB)
    (poll_id session_id : str) : bool :=
  bool_decide (is_Some (voted_option_id_of sha256_hexdigest st poll_id session_id)).

(** No counter of the store is negative. *)
Definition counters_nonneg (st : DB) : Prop :=
  (∀ k o, poll_options st !! k = Some o → 0 ≤ vote_count o)
  ∧ (∀ q p, polls st !! q = Some p → 0 ≤ total_votes p).

(** ** Startup check ([services/config_validation.py]) *)

Definition REQUIRED_VARS : list str := ["SECRET_KEY"; "POLLIVU_SALT"].

(** [sep.join(l)] *)
Fixpoint join (sep : str) (l : list str) : str :=
  match l with
  | [] => ""
  | [s] => s
  | s :: l' => s +:+ sep +:+ join sep l'
  end.

(** How [validate_config] ends: it returns, or it leaves the process
    through [sys.exit(1)] after logging [error_msg]. *)
Inductive startup : Type :=
| Continues
| Exits (code : Z) (error_msg : str).

(** [validate_config]; [environ] is the process environment read by
    [os.getenv]. *)
Definition validate_config (environ : gmap string str) : startup :=
  let missing :=
    filter (λ var, truthy (environ !! var) = false) REQUIRED_VARS in
  match missing with
  | [] => Continues
  | _ =>
      Exits 1 ("CRITICAL: Missing required environment variables: "
               +:+ join ", " missing)
  end.

(** ** Random identifiers ([utils.py]) *)

(** [bytes.rstrip(b'=')] *)
Fixpoint rstrip (c : ascii) (l : bytes) : bytes :=
  match l with
  | [] => []
  | x :: l' =>
      match rstrip c l' with
      | [] => if decide (x = c) then [] else [x]
      | r => x :: r
      end
  end.

(** [bytes.decode('ascii')] *)
Definition decode_ascii (bs : bytes) : result str :=
  if forallb (byte_in 0x00 0x7F) bs then Ok (string_of_list_ascii bs)
  else Raise UnicodeDecodeError.

(** [secrets.token_urlsafe(nbytes)]; [tok] is the value of
    [token_bytes(nbytes)]. *)
Definition token_urlsafe (tok : bytes) : result str :=
  decode_ascii (rstrip pad (urlsafe_b64encode tok)).

(** [s[:n]] on text *)
Definition str_take (n : nat) (s : str) : str :=
  string_of_list_ascii (take n (list_ascii_of_string s)).

(** [generate_poll_id(length)]; [tok] is the value of
    [token_bytes(length)]. *)
Definition generate_poll_id (length : nat) (tok : bytes) : result str :=
  match token_urlsafe tok with
  | Ok s => Ok (str_take length s)
  | Raise e => Raise e
  end.

(** [generate_creator_token] and [generate_session_id]; [tok] is the value
    of [token_bytes(32)]. *)
Definition generate_creator_token (tok : bytes) : result str := token_urlsafe tok.
Definition generate_session_id (tok : bytes) : result str := token_urlsafe tok.

(** [Poll.time_remaining] *)
Definition time_remaining (p : Poll) (now : Z) : option Z :=
  match expires_at p with
  | None => None
  | Some expires =>
      let remaining := expires - now in
      if bool_decide (remaining < 0) then None else Some remaining
  end.

Section Keys.

Variable sha256_hexdigest : bytes → str.
Variable pbkdf2_hmac_sha256 : N → bytes → N → bytes → bytes.
Variable aesgcm_encrypt : bytes → bytes → bytes → bytes.
Variable aesgcm_decrypt : bytes → bytes → bytes → option bytes.

(** [is_poll_creator]; [creator_tokens] is
    [session.get('creator_tokens', {})] and [poll_id] is [poll.id]. *)
Definition is_poll_creator (creator_tokens : gmap string str) (poll_id : str)
    (poll : Poll) : bool :=
  match creator_tokens !! poll_id with
  | Some (String c t) =>
      bool_decide (hash_creator_token sha256_hexdigest (String c t)
                   = creator_token_hash poll)
  | _ => false
  end.

(** [Poll.set_question]: the poll after the call, or the exception that
    [encrypt_field] raised before anything was assigned. *)
Definition set_question (environ_salt : option str) (nonce : bytes)
    (self : Poll) (question : str) (secret_key : option str) (encrypt : bool)
  : result Poll :=
  if encrypt && truthy secret_key then
    match encrypt_field pbkdf2_hmac_sha256 aesgcm_encrypt environ_salt nonce
            question (default "" secret_key) with
    | Ok c =>
        Ok (mkPoll question (Some c) (expires_at self) (allow_vote_change self)
              (is_closed self) true (creator_token_hash self) (total_votes self))
    | Raise e => Raise e
    end
  else
    Ok (mkPoll question (question_encrypted self) (expires_at self)
          (allow_vote_change self) (is_closed self) (is_encrypted self)
          (creator_token_hash self) (total_votes self)).

(** [get_encryption]: [instances] is the module's [_encryption_instances]
    before the call; the result comes with the dictionary after it. *)
Definition get_encryption (environ_salt : option str)
    (instances : gmap string AES256Encryption) (secret_key : str)
  : result AES256Encryption * gmap string AES256Encryption :=
  match instances !! secret_key with
  | Some e => (Ok e, instances)
  | None =>
      match AES256Encryption_init pbkdf2_hmac_sha256 environ_salt secret_key None with
      | Ok e => (Ok e, <[secret_key := e]> instances)
      | Raise x => (Raise x, instances)
      end
  end.

(** [encrypt_data] and [decrypt_data] *)
Definition encrypt_data (environ_salt : option str)
    (instances : gmap string AES256Encryption) (nonce : bytes)
    (data secret_key : str)
  : result str * gmap string AES256Encryption :=
  match get_encryption environ_salt instances secret_key with
  | (Ok e, instances') => (encrypt aesgcm_encrypt e nonce data, instances')
  | (Raise x, instances') => (Raise x, instances')
  end.

Definition decrypt_data (environ_salt : option str)
    (instances : gmap string AES256Encryption) (encrypted secret_key : str)
  : result str * gmap string AES256Encryption :=
  match get_encryption environ_salt instances secret_key with
  | (Ok e, instances') => (decrypt aesgcm_decrypt e encrypted, instances')
  | (Raise x, instances') => (Raise x, instances')
  end.

End Keys.

(** ** Poll management ([PollService], [blueprints/polls/routes.py]) *)

Definition set_is_closed (p : Poll) (b : bool) : Poll :=
  mkPoll (question p) (question_encrypted p) (expires_at p)
         (allow_vote_change p) b (is_encrypted p)
         (creator_token_hash p) (total_votes p).

Definition set_expires_at (p : Poll) (e : option Z) : Poll :=
  mkPoll (question p) (question_encrypted p) e
         (allow_vote_change p) (is_closed p) (is_encrypted p)
         (creator_token_hash p) (total_votes p).

(** [PollService.close_poll] and [PollService.reopen_poll]; [poll] is the
    primary key of the row.  The assignment to [updated_at] sets an
    attribute that is no column of the model. *)
Definition close_poll (st : DB) (poll : str) : DB :=
  with_polls st (alter (λ p, set_is_closed p true) poll (polls st)).

Definition reopen_poll (st : DB) (poll : str) : DB :=
  with_polls st (alter (λ p, set_is_closed p false) poll (polls st)).

(** Whether a [Vote] row points at an option of one of the polls [doomed]. *)
Definition points_into (st : DB) (doomed : list str) (v : Vote) : bool :=
  match poll_options st !! vote_option_id v with
  | Some o => bool_decide (opt_poll_id o ∈ doomed)
  | None => false
  end.

(** [db.session.delete(poll)] for each poll of [doomed], then
    [db.session.commit()].  The [cascade='all, delete-orphan'] of
    [Poll.options] and of [Poll.votes] deletes the options and the votes
    of these polls with them.  A vote of a poll that stays, pointing at an
    option that goes, is no orphan of a deleted poll: the unit of work
    would clear its [option_id], which [nullable=False] refuses, and the
    commit fails as a whole. *)
Definition delete_polls (st : DB) (doomed : list str) : result DB :=
  if existsb (λ v, bool_decide (vote_poll_id v ∉ doomed)
                   && points_into st doomed v) (votes st)
  then Raise (IntegrityError "votes.option_id")
  else Ok (mkDB (filter (λ a : str * Poll, a.1 ∉ doomed) (polls st))
                (filter (λ a : Z * PollOption, opt_poll_id a.2 ∉ doomed)
                   (poll_options st))
                (filter (λ v, vote_poll_id v ∉ doomed) (votes st))).

(** [PollService.delete_poll]: the exception is raised again after the
    rollback. *)
Definition delete_poll (st : DB) (poll : str) : result DB :=
  delete_polls st [poll].

(** [needle in hay] on text *)
Fixpoint contains (needle hay : str) : bool :=
  String.prefix needle hay
  || match hay with
     | "" => false
     | String _ hay' => contains needle hay'
     end.

(** The status of the answer of [POST /poll/<poll_id>/vote] to what the
    service returned. *)
Definition vote_status_code (r : VoteReturn) : Z :=
  let '(success, message, _) := r in
  if success then 200
  else if contains "already voted" message || contains "active" message
       then 403 else 400.

(** The status of every answer of the route; an exception that the
    service raised is not handled by the route. *)
Definition response_status (r : Response) : option Z :=
  match r with
  | BadRequest _ => Some 400
  | NotFound => Some 404
  | Served (Ok v) => Some (vote_status_code v)
  | Served (Raise _) => None
  end.

(** The answers of the management routes. *)
Inductive Reply : Type :=
| Abort (status : Z)
| JsonError (error : str) (status : Z)
| JsonSuccess (message : option str)
| JsonOption (id : Z) (option_text : str) (vote_count : Z)
| Redirect (endpoint : str).

(** ** Background tasks ([tasks.py]) *)

(** The rows of [Poll.query.filter(Poll.expires_at.isnot(None),
    Poll.expires_at < now)]. *)
Definition expired_polls (st : DB) (now : Z) : list (str * Poll) :=
  filter (λ a : str * Poll,
            match expires_at a.2 with
            | Some expires => bool_decide (expires < now)
            | None => false
            end = true)
    (map_to_list (polls st)).

(** [cleanup_expired_polls]: the count, or the exception of the commit. *)
Definition cleanup_expired_polls (st : DB) (now : Z) : result Z * DB :=
  let count := Z.of_nat (length (expired_polls st now)) in
  match delete_polls st ((expired_polls st now).*1) with
  | Ok st' => (Ok count, st')
  | Raise e => (Raise e, st)
  end.

Record PollStats := mkPollStats {
  total_polls : Z;
  active_polls : Z
}.

(** [get_poll_stats] *)
Definition get_poll_stats (st : DB) (now : Z) : PollStats :=
  mkPollStats
    (Z.of_nat (length (map_to_list (polls st))))
    (Z.of_nat
       (length
          (filter (λ a : str * Poll,
                     is_closed a.2 = false
                     ∧ match expires_at a.2 with
                       | None => true
                       | Some expires => bool_decide (expires > now)
                       end = true)
             (map_to_list (polls st))))).

Section Management.

Variable sha256_hexdigest : bytes → str.

(** [bleach.clean(text, tags=[], strip=True)], [str.strip] and
    [str.lower] *)
Variable bleach_clean : str → str.
Variable strip : str → str.
Variable lower : str → str.

(** The test of the routes [close], [reopen] and [delete]:
    [is_poll_creator(poll)] or [owner], the value of
    [current_user.is_authenticated and poll.user_id == current_user.id]. *)
Definition unauthorized (creator_tokens : gmap string str) (owner : bool)
    (poll_id : str) (poll : Poll) : bool :=
  negb (is_poll_creator sha256_hexdigest creator_tokens poll_id poll)
  && negb owner.

(** [POST /poll/<poll_id>/close] *)
Definition close_poll_route (st : DB) (creator_tokens : gmap string str)
    (owner : bool) (poll_id : str) : Reply * DB :=
  match polls st !! poll_id with
  | None => (Abort 404, st)
  | Some poll =>
      if unauthorized creator_tokens owner poll_id poll
      then (JsonError "Unauthorized" 403, st)
      else (JsonSuccess (Some "Poll closed"), close_poll st poll_id)
  end.

(** [POST /poll/<poll_id>/reopen] *)
Definition reopen_poll_route (st : DB) (creator_tokens : gmap string str)
    (owner : bool) (poll_id : str) (now : Z) : Reply * DB :=
  match polls st !! poll_id with
  | None => (Abort 404, st)
  | Some poll =>
      if unauthorized creator_tokens owner poll_id poll
      then (JsonError "Unauthorized" 403, st)
      else
        let st1 :=
          if is_expired poll now
          then with_polls st (<[poll_id := set_expires_at poll None]> (polls st))
          else st in
        (JsonSuccess (Some "Poll reopened"), reopen_poll st1 poll_id)
  end.

(** [POST /poll/<poll_id>/delete]; [ajax] is the test on the request
    headers and [authenticated] is [current_user.is_authenticated]. *)
Definition delete_poll_route (st : DB) (creator_tokens : gmap string str)
    (owner ajax authenticated : bool) (poll_id : str) : result Reply * DB :=
  match polls st !! poll_id with
  | None => (Ok (Abort 404), st)
  | Some poll =>
      if unauthorized creator_tokens owner poll_id poll
      then (Ok (JsonError "Unauthorized" 403), st)
      else
        match delete_poll st poll_id with
        | Raise e => (Raise e, st)
        | Ok st' =>
            (Ok (if ajax then JsonSuccess (Some "Poll deleted")
                 else if authenticated then Redirect "dashboard.dashboard"
                 else Redirect "main.landing"),
             st')
        end
  end.

(** [sanitize_text] *)
Definition sanitize_text (text : option str) : str :=
  match text with
  | None => ""
  | Some text => strip (bleach_clean text)
  end.

(** [len] on text: the number of code points of well-formed UTF-8. *)
Definition len (s : str) : nat :=
  length (filter (λ c, continuation c = false) (list_ascii_of_string s)).

(** [db.session.add(option); db.session.commit()] with [id] the key that
    the database assigns; a key in use violates the primary key. *)
Definition insert_option (st : DB) (id : Z) (o : PollOption) : result DB :=
  if decide (is_Some (poll_options st !! id))
  then Raise (IntegrityError "poll_options.id")
  else Ok (with_poll_options st (<[id := o]> (poll_options st))).

(** [max(opt.display_order for opt in existing_options)] on a list that is
    not empty. *)
Definition max_display_order (first : Z * PollOption)
    (rest : list (Z * PollOption)) : Z :=
  foldl (λ m a, Z.max m (display_order a.2)) (display_order first.2) rest.

(** What [PollService.add_option] returns: [(False, message)] or
    [(True, new_option)]. *)
Inductive AddReturn : Type :=
| AddRefused (message : str)
| Added (id : Z) (new_option : PollOption).

(** [PollService.add_option]; [text] is the argument [option_text] and
    [new_id] the key that the database assigns to the new row. *)
Definition add_option (st : DB) (new_id : Z) (poll : str) (text : str)
  : result AddReturn * DB :=
  let text := sanitize_text (Some text) in
  if bool_decide (text = "") || (200 <? len text)%nat
  then (Ok (AddRefused "Invalid option text"), st)
  else if (10 <=? length (options_of st poll))%nat
  then (Ok (AddRefused "Maximum 10 options allowed"), st)
  else
    let existing_options := options_of st poll in
    if existsb (λ opt : Z * PollOption,
                  bool_decide (lower (option_text opt.2) = lower text))
         existing_options
    then (Ok (AddRefused "Option already exists"), st)
    else
      let max_order :=
        match existing_options with
        | [] => 0
        | first :: rest => max_display_order first rest
        end in
      let new_option := mkPollOption poll text 0 (max_order + 1) in
      match insert_option st new_id new_option with
      | Ok st' => (Ok (Added new_id new_option), st')
      | Raise e => (Raise e, st)
      end.

(** [POST /poll/<poll_id>/option/add]; [owner] is the value of
    [poll.user_id == current_user.id] and [text] that of
    [data.get('option_text', '')]. *)
Definition add_poll_option (st : DB) (new_id : Z) (owner : bool)
    (poll_id : str) (text : str) : result Reply * DB :=
  match polls st !! poll_id with
  | None => (Ok (Abort 404), st)
  | Some poll =>
      if negb owner then (Ok (JsonError "Unauthorized" 403), st)
      else
        let text := sanitize_text (Some text) in
        if bool_decide (text = "")
        then (Ok (JsonError "Option text required" 400), st)
        else
          match add_option st new_id poll_id text with
          | (Ok (AddRefused result), st') => (Ok (JsonError result 400), st')
          | (Ok (Added id new_option), st') =>
              (Ok (JsonOption id (option_text new_option) 0), st')
          | (Raise e, st') => (Raise e, st')
          end
  end.

(** [POST /poll/<poll_id>/option/<option_id>/delete]; [option_id] is the
    number that the path segment denotes. *)
Definition delete_poll_option (st : DB) (owner : bool) (poll_id : str)
    (option_id : Z) : Reply * DB :=
  match polls st !! poll_id with
  | None => (Abort 404, st)
  | Some poll =>
      match poll_options st !! option_id with
      | Some option =>
          if negb owner || bool_decide (opt_poll_id option ≠ poll_id)
          then (JsonError "Unauthorized or Not Found" 403, st)
          else if (length (options_of st poll_id) <=? 2)%nat
          then (JsonError "Poll must have at least 2 options" 400, st)
          else
            let total := Z.max 0 (total_votes poll - vote_count option) in
            (JsonSuccess None,
             mkDB (<[poll_id := set_total_votes poll total]> (polls st))
                  (delete option_id (poll_options st))
                  (filter (λ v, vote_option_id v ≠ option_id) (votes st)))
      | None => (JsonError "Unauthorized or Not Found" 403, st)
      end
  end.

(** The form data that [create_poll] and [edit_poll] read. *)
Record FormData := mkFormData {
  form_question : option str;
  form_expiration : option str;
  form_allow_vote_change : bool;
  form_options : list str
}.

Definition HOUR : Z := 3600.
Definition DAY : Z := 86400.

(** The expiry that [create_poll] computes from the form. *)
Definition expiry_of (expiration : option str) (now : Z) : option Z :=
  if decide (expiration = Some "1h") then Some (now + 1 * HOUR)
  else if decide (expiration = Some "24h") then Some (now + 24 * HOUR)
  else if decide (expiration = Some "7d") then Some (now + 7 * DAY)
  else if decide (expiration = Some "30d") then Some (now + 30 * DAY)
  else None.

(** The option rows of [create_poll]: the texts that are neither empty nor
    blank, each with its position in the form as [display_order]. *)
Definition new_options (poll_id : str) (options : list str)
  : list PollOption :=
  omap (λ a : nat * str,
          if bool_decide (a.2 ≠ "") && bool_decide (strip a.2 ≠ "")
          then Some (mkPollOption poll_id (sanitize_text (Some a.2)) 0
                       (Z.of_nat a.1))
          else None)
    (imap (λ i text, (i, text)) options).

(** The commit of several new option rows; [new_id k] is the key that the
    database assigns to the [k]-th of them. *)
Fixpoint insert_options (st : DB) (new_id : nat → Z) (k : nat)
    (rows : list PollOption) : result DB :=
  match rows with
  | [] => Ok st
  | o :: rows' =>
      match insert_option st (new_id k) o with
      | Ok st' => insert_options st' new_id (S k) rows'
      | Raise e => Raise e
      end
  end.

(** [PollService.create_poll]: the poll's key and the creator token, with
    the store after the commit; [tok_id] and [tok_creator] are the values
    of [token_bytes(16)] and [token_bytes(32)]. *)
Definition create_poll (st : DB) (tok_id tok_creator : bytes) (now : Z)
    (new_id : nat → Z) (form_data : FormData) : result (str * str) * DB :=
  match generate_poll_id 16 tok_id with
  | Raise e => (Raise e, st)
  | Ok poll_id =>
      match generate_creator_token tok_creator with
      | Raise e => (Raise e, st)
      | Ok creator_token =>
          let expires_at := expiry_of (form_expiration form_data) now in
          let poll :=
            mkPoll (sanitize_text (form_question form_data)) None expires_at
                   (form_allow_vote_change form_data) false false
                   (hash_creator_token sha256_hexdigest creator_token) 0 in
          if decide (is_Some (polls st !! poll_id))
          then (Raise (IntegrityError "polls.id"), st)
          else
            match insert_options
                    (with_polls st (<[poll_id := poll]> (polls st)))
                    new_id 0 (new_options poll_id (form_options form_data)) with
            | Ok st' => (Ok (poll_id, creator_token), st')
            | Raise e => (Raise e, st)
            end
      end
  end.

(** [POST /create] once the form is valid: the service, then the creator
    token stored in the session under the poll's key. *)
Definition create_poll_route (st : DB) (creator_tokens : gmap string str)
    (tok_id tok_creator : bytes) (now : Z) (new_id : nat → Z)
    (form_data : FormData)
  : result str * gmap string str * DB :=
  match create_poll st tok_id tok_creator now new_id form_data with
  | (Ok (poll_id, creator_token), st') =>
      (Ok poll_id, <[poll_id := creator_token]> creator_tokens, st')
  | (Raise e, st') => (Raise e, creator_tokens, st')
  end.

(** [PollService.edit_poll] on the columns of the model *)
Definition edit_poll (st : DB) (poll : str) (now : Z) (form_data : FormData)
  : DB :=
  with_polls st
    (alter
       (λ p,
          let expiration := form_expiration form_data in
          let expires_at :=
            if decide (expiration = Some "current") then expires_at p
            else if decide (expiration = Some "never") then None
            else if decide (expiration = Some "1h") then Some (now + 1 * HOUR)
            else if decide (expiration = Some "24h") then Some (now + 24 * HOUR)
            else if decide (expiration = Some "7d") then Some (now + 7 * DAY)
            else if decide (expiration = Some "30d") then Some (now + 30 * DAY)
            else expires_at p in
          mkPoll (sanitize_text (form_question form_data))
                 (question_encrypted p) expires_at
                 (form_allow_vote_change form_data) (is_closed p)
                 (is_encrypted p) (creator_token_hash p) (total_votes p))
       poll (polls st)).

End Management.

(** ** Consistency of the store *)

(** The foreign keys of the tables: every option belongs to a poll, every
    vote to a poll and to an option. *)
Record foreign_keys (st : DB) : Prop := mkForeignKeys {
  fk_option_poll : ∀ k o, poll_options st !! k = Some o →
                          is_Some (polls st !! opt_poll_id o);
  fk_vote_poll : ∀ v, v ∈ votes st → is_Some (polls st !! vote_poll_id v);
  fk_vote_option : ∀ v, v ∈ votes st →
                        is_Some (poll_options st !! vote_option_id v)
}.

(** A consistent store: the foreign keys hold, no voter has two rows in
    one poll, and the tally of every poll agrees with the rows. *)
Record consistent (st : DB) : Prop := mkConsistent {
  cons_keys : foreign_keys st;
  cons_unique : votes_unique st;
  cons_tally : ∀ poll, is_Some (polls st !! poll) → tallied st poll
}.

(** The store without any row. *)
Definition empty_db : DB := mkDB ∅ ∅ [].

(** The number of [Vote] rows of a poll. *)
Definition poll_rows (st : DB) (poll : str) : nat :=
  length (filter (λ v, vote_poll_id v = poll) (votes st)).

(** What one vote adds to the counters of a poll: one if it points at an
    option of the poll. *)
Definition share (poll : str) (v : Vote) (a : Z * PollOption) : Z :=
  if decide (opt_poll_id a.2 = poll) then Z.of_nat (hit a.1 v) else 0.

(** ** The requests that change the store *)

Inductive Operation : Type :=
| OpCreate (tok_id tok_creator : bytes) (new_id : nat → Z)
    (form_data : FormData)
| OpVote (poll_id : str) (option_id : option Z) (session_id : str)
| OpClose (creator_tokens : gmap string str) (owner : bool) (poll_id : str)
| OpReopen (creator_tokens : gmap string str) (owner : bool) (poll_id : str)
| OpEdit (poll_id : str) (form_data : FormData)
| OpAddOption (new_id : Z) (owner : bool) (poll_id : str) (text : str)
| OpDeleteOption (owner : bool) (poll_id : str) (option_id : Z)
| OpDelete (creator_tokens : gmap string str) (owner : bool) (poll_id : str)
| OpCleanup.

Section Site.

Variable sha256_hexdigest : bytes → str.
Variable bleach_clean : str → str.
Variable strip : str → str.
Variable lower : str → str.

(** The store after a request that arrives at time [now]. *)
Definition perform (st : DB) (request : Z * Operation) : DB :=
  let (now, op) := request in
  match op with
  | OpCreate tok_id tok_creator new_id form_data =>
      (create_poll sha256_hexdigest bleach_clean strip st tok_id tok_creator
         now new_id form_data).2
  | OpVote poll_id option_id session_id =>
      (vote_route sha256_hexdigest st poll_id option_id session_id now).2
  | OpClose creator_tokens owner poll_id =>
      (close_poll_route sha256_hexdigest st creator_tokens owner poll_id).2
  | OpReopen creator_tokens owner poll_id =>
      (reopen_poll_route sha256_hexdigest st creator_tokens owner poll_id
         now).2
  | OpEdit poll_id form_data =>
      edit_poll bleach_clean strip st poll_id now form_data
  | OpAddOption new_id owner poll_id text =>
      (add_poll_option bleach_clean strip lower st new_id owner poll_id
         text).2
  | OpDeleteOption owner poll_id option_id =>
      (delete_poll_option st owner poll_id option_id).2
  | OpDelete creator_tokens owner poll_id =>
      (delete_poll_route sha256_hexdigest st creator_tokens owner false false
         poll_id).2
  | OpCleanup => (cleanup_expired_polls st now).2
  end.

(** The store that a sequence of requests leaves. *)
Definition history (st : DB) (requests : list (Z * Operation)) : DB :=
  foldl perform st requests.

End Site.

(** ** A concrete instance of the primitives

    Used to run the model on explicit inputs: the digest keeps its message,
    the key derivation cuts the password and salt to [length] bytes, and
    the AEAD appends a 16-byte tag made of the nonce, a checksum of the
    data and the key. *)
Module Reference.

Definition digest (m : bytes) : str := string_of_list_ascii m.



Definition kdf (length : N) (salt : bytes) (iterations : N) (password : bytes)
  : bytes :=
  take (N.to_nat length) (password ++ salt ++ replicate (N.to_nat length) zero)%list.

Definition checksum (data : bytes) : ascii :=
  ascii_of_N (foldr (λ c acc, N.lxor (N_of_ascii c) acc) 0%N data).

Definition tag (key nonce data : bytes) : bytes :=
  take 16 (nonce ++ [checksum data] ++ key ++ replicate 16 zero)%list.

Definition seal (key nonce data : bytes) : bytes :=
  (data ++ tag key nonce data)%list.

Definition open (key nonce sealed : bytes) : option bytes :=
  let n := (length sealed - 16)%nat in
  if decide ((16 ≤ length sealed)%nat
             ∧ drop n sealed = tag key nonce (take n sealed))
  then Some (take n sealed) else None.

Definition engine : AES256Encryption :=
  mkAES256Encryption (encode "pepper") (_derive_key kdf (encode "pepper") "secret").

(** Three polls with two options each and no vote yet: one that forbids
    vote changes, one that allows them, one that expired at time 100. *)
Definition poll_fixed : Poll :=
  mkPoll "Tea or coffee?" None None false false false "c0ffee" 0.

Definition poll_open : Poll :=
  mkPoll "Cats or dogs?" None None true false false "c0ffee" 0.

Definition poll_expired : Poll :=
  mkPoll "Red or blue?" None (Some 100) true false false "c0ffee" 0.

Definition db0 : DB :=
  mkDB {[ "poll0001" := poll_fixed; "poll0002" := poll_open;
          "poll0003" := poll_expired ]}
       {[ 1 := mkPollOption "poll0001" "Tea" 0 0;
          2 := mkPollOption "poll0001" "Coffee" 0 1;
          3 := mkPollOption "poll0002" "Cats" 0 0;
          4 := mkPollOption "poll0002" "Dogs" 0 1;
          5 := mkPollOption "poll0003" "Red" 0 0;
          6 := mkPollOption "poll0003" "Blue" 0 1 ]}
       [].

(** The store after session [S1] voted for the first option of the first
    two polls at time 50. *)
Definition db1 : DB :=
  recorded
    (recorded db0 "poll0001"
       (hash_voter_token digest (generate_voter_token digest "S1" "poll0001"))
       1 50)
    "poll0002"
    (hash_voter_token digest (generate_voter_token digest "S1" "poll0002"))
    3 50.

End Reference.

(** ** A small site *)

Module Sample.

(** Stand-ins for [bleach.clean], [str.strip] and [str.lower] on texts
    that they leave unchanged. *)
Definition unchanged (text : str) : str := text.

Definition tok_id : bytes := encode "0123456789abcdef".
Definition tok_creator : bytes := encode "fedcba9876543210fedcba9876543210".

Definition new_id (k : nat) : Z := Z.of_nat k + 1.

Definition form : FormData :=
  mkFormData (Some "Tea or coffee?") (Some "1h") true
    ["Tea"; ""; "Coffee"; "Milk"].

Definition poll_id : str := "MDEyMzQ1Njc4OWFi".

Definition creator_token : str := "ZmVkY2JhOTg3NjU0MzIxMGZlZGNiYTk4NzY1NDMyMTA".

Definition tokens : gmap string str := {[ poll_id := creator_token ]}.

(** The store after the poll was created at time 0, ... *)
Definition site0 : DB :=
  history Reference.digest unchanged unchanged unchanged empty_db
    [(0, OpCreate tok_id tok_creator new_id form)].

(** ... and after two sessions voted, for the first and the last option. *)
Definition site1 : DB :=
  history Reference.digest unchanged unchanged unchanged site0
    [(10, OpVote poll_id (Some 1) "S1"); (20, OpVote poll_id (Some 3) "S2")].

End Sample.

(** * Properties of the voting protocol *)

Section VotingProtocol.

Context (sha256_hexdigest : bytes → str).

Local Abbreviation voter_hash session_id poll :=
  (hash_voter_token sha256_hexdigest
     (generate_voter_token sha256_hexdigest session_id poll)).

Lemma is_expired_past (p : Poll) (expires now : Z) :
  expires_at p = Some expires → expires < now → is_expired p now = true.
Proof.
  intros Hexp Hlt. unfold is_expired. rewrite Hexp.
  apply bool_decide_eq_true. lia.
Qed.

Lemma is_active_spec (p : Poll) (now : Z) :
  is_active p now = true ↔
  is_closed p = false ∧ (∀ expires, expires_at p = Some expires → now ≤ expires).
Proof.
  unfold is_active, is_expired. rewrite andb_true_iff, !negb_true_iff. split.
  - intros [Hc He]. split; [done|]. intros e Hexp. rewrite Hexp in He.
    apply bool_decide_eq_false in He. lia.
  - intros [Hc He]. split; [done|]. destruct (expires_at p) as [e|]; [|done].
    apply bool_decide_eq_false. specialize (He e eq_refl). lia.
Qed.

(** C5. A vote on a poll that is not active is answered with the
    [PollInactive] outcome and the store is left as it was; [is_active]
    holds exactly when the poll is not closed and the clock is not past
    [expires_at]; so a poll whose [expires_at] lies in the past rejects
    every vote, whatever its [is_closed] flag. *)
Theorem inactive_poll_rejects_vote (st : DB) (poll : str) (p : Poll)
    (option_id : Z) (session_id : str) (now : Z) :
  polls st !! poll = Some p →
  (is_active p now = false →
     vote sha256_hexdigest st poll option_id session_id now
     = Some (Ok PollInactive, st))
  ∧ (is_active p now = negb (is_closed p) && negb (is_expired p now))
  ∧ (∀ expires, expires_at p = Some expires → expires < now →
       vote sha256_hexdigest st poll option_id session_id now
       = Some (Ok PollInactive, st)).
Proof.
  intros Hp.
  assert (Hrej : is_active p now = false →
            vote sha256_hexdigest st poll option_id session_id now
            = Some (Ok PollInactive, st)).
  { intros Hna. unfold vote. rewrite Hp. simpl. by rewrite Hna. }
  split; [exact Hrej|]. split; [reflexivity|].
  intros expires Hexp Hlt. apply Hrej.
  unfold is_active. rewrite (is_expired_past p expires now Hexp Hlt).
  apply andb_false_r.
Qed.

(** C4. On an active poll that does not allow vote changes, a vote for a
    valid option by a voter who already has a [Vote] row is answered with
    the [AlreadyVoted] outcome, and the whole store (the existing row,
    every counter, the poll total) is exactly as before the call. *)
Theorem repeat_vote_rejected_when_change_disallowed (st : DB) (poll : str)
    (p : Poll) (option_id : Z) (o : PollOption) (session_id : str) (now : Z)
    (i : nat) (existing_vote : Vote) :
  polls st !! poll = Some p →
  is_active p now = true →
  allow_vote_change p = false →
  find_option st option_id poll = Some o →
  find_vote st poll (voter_hash session_id poll) = Some (i, existing_vote) →
  vote sha256_hexdigest st poll option_id session_id now
  = Some (Ok AlreadyVoted, st).
Proof.
  intros Hp Ha Hc Ho Hv. unfold vote. rewrite Hp. simpl.
  by rewrite Ha, Ho, Hv, Hc.
Qed.

Lemma decrement_option_votes (st : DB) (k : Z) :
  votes (decrement_option st k) = votes st.
Proof. unfold decrement_option. by destruct (poll_options st !! k). Qed.

Lemma decrement_option_polls (st : DB) (k : Z) :
  polls (decrement_option st k) = polls st.
Proof. unfold decrement_option. by destruct (poll_options st !! k). Qed.

Lemma increment_option_votes (st : DB) (k : Z) :
  votes (increment_option st k) = votes st.
Proof. unfold increment_option. by destruct (poll_options st !! k). Qed.

Lemma increment_option_polls (st : DB) (k : Z) :
  polls (increment_option st k) = polls st.
Proof. unfold increment_option. by destruct (poll_options st !! k). Qed.

Lemma increment_total_votes (st : DB) (poll : str) :
  votes (increment_total st poll) = votes st.
Proof. unfold increment_total. by destruct (polls st !! poll). Qed.

Lemma increment_total_options (st : DB) (poll : str) :
  poll_options (increment_total st poll) = poll_options st.
Proof. unfold increment_total. by destruct (polls st !! poll). Qed.

Lemma decrement_option_lookup (st : DB) (k j : Z) :
  poll_options (decrement_option st k) !! j
  = if decide (k = j)
    then (λ o, set_vote_count o (Z.max 0 (vote_count o - 1)))
           <$> poll_options st !! j
    else poll_options st !! j.
Proof.
  unfold decrement_option. case_decide as Hkj.
  - subst j. destruct (poll_options st !! k) as [o|] eqn:Hk; simpl.
    + by rewrite lookup_insert_eq.
    + by rewrite Hk.
  - destruct (poll_options st !! k); simpl; [|done].
    by rewrite lookup_insert_ne.
Qed.

Lemma increment_option_lookup (st : DB) (k j : Z) :
  poll_options (increment_option st k) !! j
  = if decide (k = j)
    then (λ o, set_vote_count o (vote_count o + 1)) <$> poll_options st !! j
    else poll_options st !! j.
Proof.
  unfold increment_option. case_decide as Hkj.
  - subst j. destruct (poll_options st !! k) as [o|] eqn:Hk; simpl.
    + by rewrite lookup_insert_eq.
    + by rewrite Hk.
  - destruct (poll_options st !! k); simpl; [|done].
    by rewrite lookup_insert_ne.
Qed.

Lemma find_option_Some (st : DB) (k : Z) (poll : str) (o : PollOption) :
  find_option st k poll = Some o ↔
  poll_options st !! k = Some o ∧ opt_poll_id o = poll.
Proof.
  unfold find_option. destruct (poll_options st !! k) as [o'|].
  - destruct (decide (opt_poll_id o' = poll)) as [Heq|Hne]; split.
    + by intros [= ->].
    + by intros [[= ->] _].
    + done.
    + intros [[= ->] Heq]. done.
  - split; [done|]. by intros [? _].
Qed.

Lemma vote_change_step (st : DB) (poll : str) (p : Poll) (option_id : Z)
    (o : PollOption) (session_id : str) (now : Z) (i : nat)
    (existing_vote : Vote) :
  polls st !! poll = Some p →
  is_active p now = true →
  allow_vote_change p = true →
  find_option st option_id poll = Some o →
  find_vote st poll (voter_hash session_id poll) = Some (i, existing_vote) →
  vote sha256_hexdigest st poll option_id session_id now
  = Some (Ok (VoteChanged
                (vote_data (changed st i existing_vote option_id) poll option_id)),
          changed st i existing_vote option_id).
Proof.
  intros Hp Ha Hc Ho Hv. unfold vote. rewrite Hp. simpl.
  by rewrite Ha, Ho, Hv, Hc.
Qed.

(** The row of a changed vote: at its position the table holds the row
    of the pair with the new option and the old time, the lookup of the
    pair finds it there, and every other position is as before. *)
Lemma changed_row (st : DB) (poll h : str) (i : nat) (v : Vote)
    (option_id : Z) :
  find_vote st poll h = Some (i, v) →
  votes (changed st i v option_id) !! i
  = Some (mkVote poll h option_id (voted_at v))
  ∧ vote_option_id <$> votes (changed st i v option_id) !! i = Some option_id
  ∧ (∀ j, j ≠ i → votes (changed st i v option_id) !! j = votes st !! j)
  ∧ find_vote (changed st i v option_id) poll h
    = Some (i, mkVote poll h option_id (voted_at v)).
Proof.
  intros Hv.
  assert (Hvotes : votes (changed st i v option_id)
                   = <[i := mkVote poll h option_id (voted_at v)]> (votes st)).
  { unfold changed. rewrite increment_option_votes. simpl.
    rewrite decrement_option_votes.
    apply list_find_Some in Hv as (_ & [<- <-] & _). done. }
  unfold find_vote in *. rewrite Hvotes.
  pose proof Hv as (Hi & [Hvp Hvh] & Hleast)%list_find_Some.
  assert (Hlt : (i < length (votes st))%nat) by by eapply lookup_lt_Some.
  split; [by apply list_lookup_insert_eq|].
  split; [by rewrite list_lookup_insert_eq|].
  split; [intros j Hj; by apply list_lookup_insert_ne|].
  apply list_find_Some. split; [by apply list_lookup_insert_eq|].
  split; [done|]. intros j z Hj Hlt'.
  rewrite list_lookup_insert_ne in Hj by lia. by eapply Hleast.
Qed.

(** C3. On an active poll that allows vote changes, a vote for a valid
    option by a voter who already has a [Vote] row succeeds as a change:
    the old option's counter is decremented with a floor at zero, the
    existing row is reassigned to the new option (no row is added), the
    new option's counter is incremented by one, in that order; every other
    option and every poll row, [total_votes] included, is unchanged, and
    the old option's counter is not negative afterwards.  When the old and
    the new option are the same row, the decrement and the increment both
    apply to it.  After the change the row at the position of the existing
    one is the row of the same poll and voter with the new [option_id] and
    the old [voted_at], the lookup of the voter's row finds it there, and
    every other row of the table is as before. *)
Theorem vote_change_moves_one_vote (st : DB) (poll : str) (p : Poll)
    (option_id : Z) (o : PollOption) (session_id : str) (now : Z)
    (i : nat) (existing_vote : Vote) :
  polls st !! poll = Some p →
  is_active p now = true →
  allow_vote_change p = true →
  find_option st option_id poll = Some o →
  find_vote st poll (voter_hash session_id poll) = Some (i, existing_vote) →
  let old_id := vote_option_id existing_vote in
  ∃ d st',
    vote sha256_hexdigest st poll option_id session_id now
    = Some (Ok (VoteChanged d), st')
    ∧ st' = increment_option
              (reassign_vote (decrement_option st old_id)
                 i existing_vote option_id)
              option_id
    ∧ polls st' = polls st
    ∧ polls st' !! poll = Some p
    ∧ data_total_votes d = total_votes p
    ∧ votes st' = <[i := set_vote_option_id existing_vote option_id]> (votes st)
    ∧ length (votes st') = length (votes st)
    ∧ (∀ k, k ≠ option_id → k ≠ old_id →
         poll_options st' !! k = poll_options st !! k)
    ∧ (old_id ≠ option_id →
         count_of st' old_id = (λ c, Z.max 0 (c - 1)) <$> count_of st old_id
         ∧ count_of st' option_id = Some (vote_count o + 1))
    ∧ (old_id = option_id →
         count_of st' option_id = Some (Z.max 0 (vote_count o - 1) + 1))
    ∧ (∀ c, count_of st' old_id = Some c → 0 ≤ c)
    ∧ votes st' !! i
      = Some (mkVote poll (voter_hash session_id poll) option_id
                (voted_at existing_vote))
    ∧ vote_option_id <$> votes st' !! i = Some option_id
    ∧ (∀ j, j ≠ i → votes st' !! j = votes st !! j)
    ∧ find_vote st' poll (voter_hash session_id poll)
      = Some (i, mkVote poll (voter_hash session_id poll) option_id
                   (voted_at existing_vote)).
Proof.
  intros Hp Ha Hc Ho Hv old_id.
  pose proof (changed_row st poll _ i existing_vote option_id Hv) as Hrow.
  eexists _, _. split; [by eapply vote_change_step|].
  apply find_option_Some in Ho as [Ho Hopoll].
  assert (Hpolls : polls (changed st i existing_vote option_id) = polls st).
  { unfold changed. rewrite increment_option_polls. simpl.
    apply decrement_option_polls. }
  assert (Hlk : ∀ k, poll_options (changed st i existing_vote option_id) !! k
    = if decide (option_id = k)
      then (λ o, set_vote_count o (vote_count o + 1))
             <$> poll_options (decrement_option st old_id) !! k
      else poll_options (decrement_option st old_id) !! k).
  { intros k. unfold changed. by rewrite increment_option_lookup. }
  split; [done|]. split; [done|]. split; [by rewrite Hpolls|].
  split; [simpl; by rewrite Hpolls, Hp|].
  split.
  { unfold changed. rewrite increment_option_votes. simpl.
    by rewrite decrement_option_votes. }
  split.
  { unfold changed. rewrite increment_option_votes. simpl.
    by rewrite length_insert, decrement_option_votes. }
  split.
  { intros k Hk1 Hk2. rewrite Hlk, decrement_option_lookup.
    destruct (decide (option_id = k)); [congruence|].
    destruct (decide (old_id = k)); [congruence|done]. }
  split.
  { intros Hne. unfold count_of. rewrite !Hlk, !decrement_option_lookup.
    destruct (decide (option_id = old_id)); [congruence|].
    destruct (decide (old_id = old_id)); [|congruence].
    destruct (decide (option_id = option_id)); [|congruence].
    destruct (decide (old_id = option_id)); [congruence|].
    rewrite Ho. split; [|done].
    by destruct (poll_options st !! old_id). }
  split.
  { intros Heq. unfold count_of. rewrite Hlk, decrement_option_lookup.
    destruct (decide (option_id = option_id)); [|congruence].
    destruct (decide (old_id = option_id)); [|congruence].
    by rewrite Ho. }
  split; [|exact Hrow].
  intros c. unfold count_of. rewrite Hlk, decrement_option_lookup.
  destruct (decide (old_id = old_id)); [|congruence].
  destruct (poll_options st !! old_id) as [old|]; [|by case_decide].
  case_decide; simpl; intros [= <-]; lia.
Qed.

(** *** The cases of a vote *)

Local Abbreviation vote_case := (vote_case sha256_hexdigest).

Lemma find_vote_None (st : DB) (poll h : str) :
  find_vote st poll h = None ↔ (poll, h) ∉ vote_key <$> votes st.
Proof.
  unfold find_vote. rewrite list_find_None, Forall_forall. split.
  - intros Hall [v [Hk Hv]]%list_elem_of_fmap. apply (Hall v Hv).
    unfold vote_key in Hk. by inversion Hk.
  - intros Hnot v Hv [H1 H2]. apply Hnot. apply list_elem_of_fmap.
    exists v. split; [|done]. unfold vote_key. by rewrite H1, H2.
Qed.

Lemma find_vote_Some (st : DB) (poll h : str) (i : nat) (v : Vote) :
  find_vote st poll h = Some (i, v) →
  votes st !! i = Some v ∧ vote_key v = (poll, h).
Proof.
  unfold find_vote. intros (Hi & [H1 H2] & _)%list_find_Some.
  split; [done|]. unfold vote_key. by rewrite H1, H2.
Qed.

Lemma insert_vote_fresh (st : DB) (v : Vote) :
  vote_key v ∉ vote_key <$> votes st →
  insert_vote st v = Ok (with_votes st (votes st ++ [v])%list).
Proof. intros Hk. unfold insert_vote. by case_decide. Qed.

Lemma vote_cases (st : DB) (poll : str) (option_id : Z) (session_id : str)
    (now : Z) (r : result VoteReturn) (st' : DB) :
  vote sha256_hexdigest st poll option_id session_id now = Some (r, st') →
  vote_case st poll option_id session_id now r st'.
Proof.
  unfold vote. destruct (polls st !! poll) as [p|] eqn:Hp; simpl; [|done].
  destruct (is_active p now); simpl.
  2:{ intros [= <- <-]. constructor. }
  destruct (find_option st option_id poll) as [o|] eqn:Ho.
  2:{ intros [= <- <-]. constructor. }
  destruct (find_vote st poll (voter_hash session_id poll)) as [[i v]|] eqn:Hv.
  - destruct (allow_vote_change p).
    + intros [= <- <-]. by eapply case_changed.
    + intros [= <- <-]. by eapply case_already.
  - rewrite insert_vote_fresh.
    + intros [= <- <-]. by eapply case_recorded.
    + rewrite increment_total_votes, increment_option_votes.
      by apply find_vote_None.
Qed.

Lemma cast_vote_cases (st : DB) (poll : str) (option_id : Z) (session_id : str)
    (now : Z) (r : Response) (st' : DB) :
  cast_vote sha256_hexdigest st poll option_id session_id now = (r, st') →
  (r = NotFound ∧ st' = st)
  ∨ ∃ r', r = Served r' ∧ vote_case st poll option_id session_id now r' st'.
Proof.
  unfold cast_vote, get_poll. destruct (polls st !! poll) as [p|] eqn:Hp.
  - destruct (vote sha256_hexdigest st poll option_id session_id now)
      as [[r' st'']|] eqn:Hv.
    + intros [= <- <-]. right. exists r'. split; [done|]. by apply vote_cases.
    + unfold vote in Hv. by rewrite Hp in Hv.
  - intros [= <- <-]. by left.
Qed.

Lemma cast_vote_found (st : DB) (poll : str) (p : Poll) (option_id : Z)
    (session_id : str) (now : Z) :
  polls st !! poll = Some p →
  ∃ r st',
    vote sha256_hexdigest st poll option_id session_id now = Some (r, st')
    ∧ cast_vote sha256_hexdigest st poll option_id session_id now
      = (Served r, st').
Proof.
  intros Hp. unfold cast_vote, get_poll. rewrite Hp.
  destruct (vote sha256_hexdigest st poll option_id session_id now)
    as [[r st']|] eqn:Hv.
  - by exists r, st'.
  - unfold vote in Hv. by rewrite Hp in Hv.
Qed.

Lemma changed_votes (st : DB) (i : nat) (v : Vote) (option_id : Z) :
  votes (changed st i v option_id)
  = <[i := set_vote_option_id v option_id]> (votes st).
Proof.
  unfold changed. rewrite increment_option_votes. simpl.
  by rewrite decrement_option_votes.
Qed.

Lemma recorded_votes (st : DB) (poll h : str) (option_id now : Z) :
  votes (recorded st poll h option_id now)
  = (votes st ++ [mkVote poll h option_id now])%list.
Proof.
  unfold recorded. simpl.
  by rewrite increment_total_votes, increment_option_votes.
Qed.

Lemma reassign_keeps_keys (l : list Vote) (i : nat) (v : Vote) (option_id : Z) :
  l !! i = Some v →
  vote_key <$> <[i := set_vote_option_id v option_id]> l = vote_key <$> l.
Proof.
  intros Hi. rewrite list_fmap_insert. apply list_insert_id.
  by rewrite list_lookup_fmap, Hi.
Qed.

(** The constraint holds the table by itself: an accepted insert keeps the
    keys distinct whatever the caller checked before. *)
Lemma insert_vote_unique (st st' : DB) (v : Vote) :
  votes_unique st → insert_vote st v = Ok st' → votes_unique st'.
Proof.
  unfold votes_unique, insert_vote. intros Hu.
  case_decide as Hk; [done|]. intros [= <-]. simpl. rewrite fmap_app.
  apply NoDup_app. split; [done|]. split; [|apply NoDup_singleton].
  intros k Hin Hk'%list_elem_of_singleton. by subst k.
Qed.

Lemma vote_case_unique (st : DB) (poll : str) (option_id : Z)
    (session_id : str) (now : Z) (r : result VoteReturn) (st' : DB) :
  vote_case st poll option_id session_id now r st' →
  votes_unique st → votes_unique st'.
Proof.
  unfold votes_unique. intros Hcase Hu. destruct Hcase; try done.
  - apply find_vote_Some in H1 as [Hi _].
    by rewrite changed_votes, reassign_keeps_keys.
  - apply find_vote_None in H1.
    rewrite recorded_votes, fmap_app. simpl.
    apply NoDup_app. split; [done|]. split; [|apply NoDup_singleton].
    intros k Hk Hk'%list_elem_of_singleton. by subst k.
Qed.

Lemma step_unique (st : DB) (rq : Request) :
  votes_unique st → votes_unique (step sha256_hexdigest st rq).
Proof.
  intros Hu. unfold step.
  destruct (cast_vote sha256_hexdigest st (req_poll rq) (req_option rq)
              (req_session rq) (req_now rq)) as [r st'] eqn:Hc.
  apply cast_vote_cases in Hc as [[_ ->]|(r' & _ & Hcase)]; [done|].
  simpl. by eapply vote_case_unique.
Qed.

Lemma run_unique (st0 : DB) (rqs : list Request) :
  votes_unique st0 → votes_unique (run sha256_hexdigest st0 rqs).
Proof.
  unfold run. revert st0. induction rqs as [|rq rqs IH]; intros st0 Hu; [done|].
  simpl. apply IH. by apply step_unique.
Qed.

(** C1. In every store reached from one that satisfies the uniqueness
    constraint by any sequence of votes, each (poll, voter hash) pair has
    at most one [Vote] row.  A further vote by a pair without a row either
    leaves the table alone (it was rejected) or appends exactly one row for
    that pair, and it does append it when the poll is active and the option
    valid; a vote by a pair that has its row never adds a second one: the
    keys of the table stay as they are, and a successful change rewrites
    the [option_id] of the pair's own row: afterwards the row at its
    position is the row of the pair with the option of the request and the
    time of the first vote, and every other row is as before. *)
Theorem one_vote_row_per_poll_and_voter (st0 : DB) (rqs : list Request) :
  votes_unique st0 →
  let st := run sha256_hexdigest st0 rqs in
  votes_unique st
  ∧ ∀ poll option_id session_id now r st',
      cast_vote sha256_hexdigest st poll option_id session_id now = (r, st') →
      let key := (poll, voter_hash session_id poll) in
      let row := mkVote poll (voter_hash session_id poll) option_id now in
      votes_unique st'
      ∧ (key ∉ vote_key <$> votes st →
           (votes st' = votes st ∨ votes st' = (votes st ++ [row])%list)
           ∧ (∀ p o, polls st !! poll = Some p → is_active p now = true →
                     find_option st option_id poll = Some o →
                ∃ d, r = Served (Ok (VoteRecorded d))
                     ∧ votes st' = (votes st ++ [row])%list))
      ∧ (key ∈ vote_key <$> votes st →
           vote_key <$> votes st' = vote_key <$> votes st
           ∧ length (votes st') = length (votes st)
           ∧ (∀ d, r = Served (Ok (VoteChanged d)) →
                ∃ i v, votes st !! i = Some v ∧ vote_key v = key
                       ∧ votes st'
                         = <[i := set_vote_option_id v option_id]> (votes st)
                       ∧ votes st' !! i
                         = Some (mkVote poll (voter_hash session_id poll)
                                   option_id (voted_at v))
                       ∧ vote_option_id <$> votes st' !! i = Some option_id
                       ∧ (∀ j, j ≠ i → votes st' !! j = votes st !! j))).
Proof.
  intros Hu0 st. assert (Hu : votes_unique st) by by apply run_unique.
  split; [done|]. intros poll option_id session_id now r st' Hc key row.
  pose proof Hc as Hc'.
  apply cast_vote_cases in Hc' as [[-> ->]|(r' & -> & Hcase)].
  { split; [done|]. split.
    - intros _. split; [by left|]. intros p o Hp _ _.
      destruct (cast_vote_found st poll p option_id session_id now Hp)
        as (r1 & st1 & _ & Hc1).
      congruence.
    - intros _. by repeat split. }
  split; [by eapply vote_case_unique|]. split.
  - intros Hfresh. apply find_vote_None in Hfresh. split.
    + destruct Hcase; try (by left); try congruence.
      right. apply recorded_votes.
    + intros p o Hp Ha Ho. unfold cast_vote, get_poll, vote in Hc.
      rewrite Hp in Hc. simpl in Hc. rewrite Ha, Ho, Hfresh in Hc. simpl in Hc.
      rewrite insert_vote_fresh in Hc.
      * injection Hc as <- <-. eexists. split; [reflexivity|].
        simpl. by rewrite increment_total_votes, increment_option_votes.
      * rewrite increment_total_votes, increment_option_votes.
        by apply find_vote_None.
  - intros Hin. destruct Hcase; try (by repeat split).
    + pose proof (find_vote_Some _ _ _ _ _ H1) as [Hi Hk].
      rewrite changed_votes. split; [by apply reassign_keeps_keys|].
      split; [by rewrite length_insert|].
      intros _ _. exists i, v.
      destruct (changed_row st poll _ i v option_id H1) as (Hr1 & Hr2 & Hr3 & _).
      rewrite changed_votes in Hr1, Hr2, Hr3. done.
    + apply find_vote_None in H1. done.
Qed.

(** *** Sums over the options of a poll *)

Lemma foldr_add_perm (l1 l2 : list Z) :
  l1 ≡ₚ l2 → foldr Z.add 0 l1 = foldr Z.add 0 l2.
Proof. induction 1; cbn [foldr]; lia. Qed.

Lemma sum_filter_weight (poll : str) (l : list (Z * PollOption)) :
  foldr Z.add 0 ((λ a : Z * PollOption, vote_count a.2)
                   <$> filter (λ a : Z * PollOption, opt_poll_id a.2 = poll) l)
  = foldr Z.add 0 (weight poll <$> l).
Proof.
  induction l as [|a l IH]; [done|].
  rewrite filter_cons, fmap_cons. unfold weight at 1.
  case_decide; cbn [fmap list_fmap foldr]; rewrite IH; lia.
Qed.

Lemma sum_option_votes_weight (st : DB) (poll : str) :
  sum_option_votes st poll
  = foldr Z.add 0 (weight poll <$> map_to_list (poll_options st)).
Proof.
  unfold sum_option_votes, options_of. rewrite <- sum_filter_weight.
  apply foldr_add_perm, fmap_Permutation, merge_sort_Permutation.
Qed.

Lemma sum_weight_update (poll : str) (m : gmap Z PollOption) (k : Z)
    (o o' : PollOption) :
  m !! k = Some o →
  foldr Z.add 0 (weight poll <$> map_to_list (<[k := o']> m))
  = foldr Z.add 0 (weight poll <$> map_to_list m)
    - weight poll (k, o) + weight poll (k, o').
Proof.
  intros Hk.
  rewrite <- (insert_delete_eq m k o').
  rewrite (foldr_add_perm _ (weight poll <$> (k, o') :: map_to_list (delete k m))).
  2:{ apply fmap_Permutation, map_to_list_insert, lookup_delete_eq. }
  rewrite (foldr_add_perm (weight poll <$> map_to_list m)
             (weight poll <$> (k, o) :: map_to_list (delete k m))).
  2:{ apply fmap_Permutation. symmetry. by apply map_to_list_delete. }
  simpl. lia.
Qed.


Lemma sum_option_votes_ext (st1 st2 : DB) (poll : str) :
  poll_options st1 = poll_options st2 →
  sum_option_votes st1 poll = sum_option_votes st2 poll.
Proof. intros H. by rewrite !sum_option_votes_weight, H. Qed.

Lemma sum_increment_option (st : DB) (poll : str) (k : Z) (o : PollOption) :
  poll_options st !! k = Some o →
  sum_option_votes (increment_option st k) poll
  = sum_option_votes st poll + (if decide (opt_poll_id o = poll) then 1 else 0).
Proof.
  intros Hk. rewrite !sum_option_votes_weight. unfold increment_option.
  rewrite Hk. simpl. rewrite (sum_weight_update poll _ k o _ Hk).
  unfold weight. simpl. case_decide; lia.
Qed.

Lemma sum_decrement_option (st : DB) (poll : str) (k : Z) (o : PollOption) :
  poll_options st !! k = Some o →
  sum_option_votes (decrement_option st k) poll
  = sum_option_votes st poll
    - (if decide (opt_poll_id o = poll)
       then vote_count o - Z.max 0 (vote_count o - 1) else 0).
Proof.
  intros Hk. rewrite !sum_option_votes_weight. unfold decrement_option.
  rewrite Hk. simpl. rewrite (sum_weight_update poll _ k o _ Hk).
  unfold weight. simpl. case_decide; lia.
Qed.

(** *** Rows that point at an option *)

Lemma hits_cons (k : Z) (v : Vote) (l : list Vote) :
  hits k (v :: l) = (hit k v + hits k l)%nat.
Proof. unfold hits, hit. rewrite filter_cons. by case_decide. Qed.

Lemma hits_app (k : Z) (l : list Vote) (v : Vote) :
  hits k (l ++ [v]) = (hits k l + hit k v)%nat.
Proof.
  induction l as [|x l IH].
  - rewrite app_nil_l, hits_cons. unfold hits. simpl. lia.
  - rewrite <- app_comm_cons, !hits_cons, IH. lia.
Qed.

Lemma hits_insert (k : Z) (l : list Vote) (i : nat) (x y : Vote) :
  l !! i = Some x →
  (hits k (<[i := y]> l) + hit k x = hits k l + hit k y)%nat.
Proof.
  revert i. induction l as [|z l IH]; intros [|i] Hi; try done.
  - injection Hi as ->. simpl. rewrite !hits_cons. lia.
  - simpl in *. rewrite !hits_cons. specialize (IH i Hi). lia.
Qed.

Lemma hits_pos (k : Z) (l : list Vote) (v : Vote) :
  v ∈ l → vote_option_id v = k → (1 ≤ hits k l)%nat.
Proof.
  intros Hv Hk. induction Hv as [v l|v x l Hv IH]; rewrite hits_cons.
  - unfold hit. case_decide; [lia|done].
  - specialize (IH Hk). lia.
Qed.

Lemma changed_lookup (st : DB) (i : nat) (v : Vote) (option_id k : Z) :
  poll_options (changed st i v option_id) !! k
  = (λ o,
       let o1 := if decide (vote_option_id v = k)
                 then set_vote_count o (Z.max 0 (vote_count o - 1)) else o in
       if decide (option_id = k)
       then set_vote_count o1 (vote_count o1 + 1) else o1)
    <$> poll_options st !! k.
Proof.
  unfold changed. rewrite increment_option_lookup. simpl.
  rewrite decrement_option_lookup.
  destruct (poll_options st !! k); simpl; by repeat case_decide.
Qed.

Lemma recorded_lookup (st : DB) (poll h : str) (option_id now k : Z) :
  poll_options (recorded st poll h option_id now) !! k
  = (λ o, if decide (option_id = k)
          then set_vote_count o (vote_count o + 1) else o)
    <$> poll_options st !! k.
Proof.
  unfold recorded. simpl. rewrite increment_total_options.
  rewrite increment_option_lookup.
  destruct (poll_options st !! k); simpl; by case_decide.
Qed.

Lemma recorded_polls (st : DB) (poll h : str) (option_id now : Z) (q : str) :
  polls (recorded st poll h option_id now) !! q
  = if decide (poll = q)
    then (λ p, set_total_votes p (total_votes p + 1)) <$> polls st !! q
    else polls st !! q.
Proof.
  unfold recorded. simpl. unfold increment_total.
  rewrite increment_option_polls. case_decide as Hq.
  - subst q. destruct (polls st !! poll) as [p|] eqn:Hp; simpl.
    + by rewrite lookup_insert_eq.
    + by rewrite increment_option_polls.
  - destruct (polls st !! poll); simpl.
    + by rewrite lookup_insert_ne.
    + by rewrite increment_option_polls.
Qed.

Lemma changed_polls (st : DB) (i : nat) (v : Vote) (option_id : Z) :
  polls (changed st i v option_id) = polls st.
Proof.
  unfold changed. rewrite increment_option_polls. simpl.
  apply decrement_option_polls.
Qed.


Lemma sum_changed (st : DB) (i : nat) (v : Vote) (option_id : Z) (poll : str)
    (o : PollOption) :
  poll_options st !! option_id = Some o →
  sum_option_votes (changed st i v option_id) poll
  = sum_option_votes st poll
    - match poll_options st !! vote_option_id v with
      | Some old => if decide (opt_poll_id old = poll)
                    then vote_count old - Z.max 0 (vote_count old - 1) else 0
      | None => 0
      end
    + (if decide (opt_poll_id o = poll) then 1 else 0).
Proof.
  intros Ho. unfold changed.
  set (st1 := decrement_option st (vote_option_id v)).
  assert (Ho1 : ∃ o1, poll_options (reassign_vote st1 i v option_id) !! option_id
                      = Some o1 ∧ opt_poll_id o1 = opt_poll_id o).
  { simpl. subst st1. rewrite decrement_option_lookup, Ho.
    case_decide; simpl; eauto. }
  destruct Ho1 as (o1 & Ho1 & Hpoll).
  rewrite (sum_increment_option _ poll option_id o1 Ho1), Hpoll.
  rewrite (sum_option_votes_ext _ st1 poll) by done. subst st1.
  destruct (poll_options st !! vote_option_id v) as [old|] eqn:Hold.
  - by rewrite (sum_decrement_option st poll _ old Hold).
  - unfold decrement_option. rewrite Hold. lia.
Qed.

Lemma sum_recorded (st : DB) (q h : str) (option_id now : Z) (poll : str)
    (o : PollOption) :
  poll_options st !! option_id = Some o →
  sum_option_votes (recorded st q h option_id now) poll
  = sum_option_votes st poll + (if decide (opt_poll_id o = poll) then 1 else 0).
Proof.
  intros Ho. rewrite <- (sum_increment_option st poll option_id o Ho).
  apply sum_option_votes_ext. unfold recorded. simpl.
  apply increment_total_options.
Qed.

Lemma tallied_changed (st : DB) (poll q : str) (option_id : Z) (o : PollOption)
    (h : str) (i : nat) (v : Vote) :
  find_option st option_id q = Some o →
  find_vote st q h = Some (i, v) →
  tallied st poll → tallied (changed st i v option_id) poll.
Proof.
  intros [Ho Hoq]%find_option_Some Hv [Htot Hcnt Hopt Hpoll].
  apply find_vote_Some in Hv as [Hi Hkey].
  assert (Hvq : vote_poll_id v = q) by (unfold vote_key in Hkey; congruence).
  assert (Hin : v ∈ votes st) by (by eapply list_elem_of_lookup_2).
  assert (Hrows : ∀ k, (rows_for (changed st i v option_id) k + hit k v
                        = rows_for st k + hit k (set_vote_option_id v option_id))%nat).
  { intros k. unfold rows_for. rewrite changed_votes.
    by apply (hits_insert k (votes st) i v). }
  assert (Hpos : (1 ≤ rows_for st (vote_option_id v))%nat).
  { by apply (hits_pos _ _ v). }
  split.
  - destruct Htot as (p & Hp & Hsum). exists p. rewrite changed_polls.
    split; [done|]. rewrite (sum_changed st i v option_id poll o Ho), Hsum.
    destruct (poll_options st !! vote_option_id v) as [old|] eqn:Hold.
    + case_decide as Hown.
      * pose proof (Hcnt _ _ Hold Hown) as Hc.
        pose proof (Hpoll v old Hin Hold Hown) as Hvp.
        case_decide; [lia|congruence].
      * case_decide as Hown'; [|lia].
        destruct (Hopt v Hin) as (old' & Hold' & Hown''); [congruence|].
        congruence.
    + case_decide as Hown'; [|lia].
      destruct (Hopt v Hin) as (old' & Hold' & Hown''); [congruence|].
      congruence.
  - intros k o' Hk Hown. rewrite changed_lookup in Hk.
    destruct (poll_options st !! k) as [ok|] eqn:Hok; [|done].
    simpl in Hk. injection Hk as <-.
    assert (Hownk : opt_poll_id ok = poll) by (by repeat case_decide).
    pose proof (Hcnt k ok Hok Hownk) as Hc. specialize (Hrows k).
    unfold hit in Hrows. simpl in Hrows.
    repeat case_decide; simpl; subst; lia.
  - intros w Hw Hwp. rewrite changed_votes in Hw.
    apply list_elem_of_lookup in Hw as [j Hj].
    destruct (decide (i = j)) as [<-|Hij].
    + rewrite list_lookup_insert_eq in Hj by (by eapply lookup_lt_Some).
      injection Hj as <-. simpl. rewrite changed_lookup, Ho. simpl.
      eexists. split; [reflexivity|]. simpl in Hwp.
      repeat case_decide; simpl; congruence.
    + rewrite list_lookup_insert_ne in Hj by done.
      destruct (Hopt w) as (ow & How & Hown); [by eapply list_elem_of_lookup_2|done|].
      rewrite changed_lookup, How. simpl. eexists. split; [reflexivity|].
      by repeat case_decide.
  - intros w ow Hw How Hown. rewrite changed_votes in Hw.
    rewrite changed_lookup in How.
    destruct (poll_options st !! vote_option_id w) as [ow'|] eqn:How'; [|done].
    simpl in How. injection How as <-.
    assert (Hown' : opt_poll_id ow' = poll) by (by repeat case_decide).
    apply list_elem_of_lookup in Hw as [j Hj].
    destruct (decide (i = j)) as [<-|Hij].
    + rewrite list_lookup_insert_eq in Hj by (by eapply lookup_lt_Some).
      injection Hj as <-. simpl in *. congruence.
    + rewrite list_lookup_insert_ne in Hj by done.
      eapply Hpoll; [by eapply list_elem_of_lookup_2|done..].
Qed.


Lemma tallied_recorded (st : DB) (poll q : str) (p : Poll) (option_id now : Z)
    (o : PollOption) (h : str) :
  polls st !! q = Some p →
  find_option st option_id q = Some o →
  tallied st poll → tallied (recorded st q h option_id now) poll.
Proof.
  intros Hq [Ho Hoq]%find_option_Some [Htot Hcnt Hopt Hpoll].
  assert (Hrows : ∀ k, rows_for (recorded st q h option_id now) k
                       = (rows_for st k + hit k (mkVote q h option_id now))%nat).
  { intros k. unfold rows_for. rewrite recorded_votes. apply hits_app. }
  split.
  - destruct Htot as (p' & Hp' & Hsum). rewrite recorded_polls.
    rewrite (sum_recorded st q h option_id now poll o Ho), Hoq.
    case_decide as Hqp.
    + subst q. rewrite Hp'. simpl. eexists. split; [reflexivity|]. simpl. lia.
    + exists p'. split; [done|lia].
  - intros k o' Hk Hown. rewrite recorded_lookup in Hk.
    destruct (poll_options st !! k) as [ok|] eqn:Hok; [|done].
    simpl in Hk. injection Hk as <-.
    assert (Hownk : opt_poll_id ok = poll) by (by case_decide).
    pose proof (Hcnt k ok Hok Hownk) as Hc. rewrite Hrows.
    unfold hit. simpl. repeat case_decide; simpl; subst; lia.
  - intros w Hw Hwp. rewrite recorded_votes in Hw.
    apply elem_of_app in Hw as [Hw|Hw%list_elem_of_singleton].
    + destruct (Hopt w Hw Hwp) as (ow & How & Hown).
      rewrite recorded_lookup, How. simpl. eexists. split; [reflexivity|].
      by case_decide.
    + subst w. simpl in Hwp. rewrite recorded_lookup.
      cbn [vote_option_id]. rewrite Ho. simpl.
      eexists. split; [reflexivity|]. case_decide; simpl; congruence.
  - intros w ow Hw How Hown. rewrite recorded_votes in Hw.
    rewrite recorded_lookup in How.
    destruct (poll_options st !! vote_option_id w) as [ow'|] eqn:How'; [|done].
    simpl in How. injection How as <-.
    assert (Hown' : opt_poll_id ow' = poll) by (by case_decide).
    apply elem_of_app in Hw as [Hw|Hw%list_elem_of_singleton].
    + by eapply Hpoll.
    + subst w. cbn [vote_option_id vote_poll_id] in *. congruence.
Qed.

Lemma vote_case_tallied (st : DB) (poll q : str) (option_id : Z)
    (session_id : str) (now : Z) (r : result VoteReturn) (st' : DB) :
  vote_case st q option_id session_id now r st' →
  tallied st poll → tallied st' poll.
Proof.
  intros Hcase Ht. destruct Hcase; try done.
  - by eapply tallied_changed.
  - by eapply tallied_recorded.
Qed.

Lemma step_tallied (st : DB) (poll : str) (rq : Request) :
  tallied st poll → tallied (step sha256_hexdigest st rq) poll.
Proof.
  intros Ht. unfold step.
  destruct (cast_vote sha256_hexdigest st (req_poll rq) (req_option rq)
              (req_session rq) (req_now rq)) as [r st'] eqn:Hc.
  apply cast_vote_cases in Hc as [[_ ->]|(r' & _ & Hcase)]; [done|].
  simpl. by eapply vote_case_tallied.
Qed.

Lemma run_tallied (st0 : DB) (poll : str) (rqs : list Request) :
  tallied st0 poll → tallied (run sha256_hexdigest st0 rqs) poll.
Proof.
  unfold run. revert st0. induction rqs as [|rq rqs IH]; intros st0 Ht; [done|].
  simpl. apply IH. by apply step_tallied.
Qed.

Lemma sum_weight_zero (poll : str) (l : list (Z * PollOption)) :
  Forall (λ a, opt_poll_id a.2 = poll → vote_count a.2 = 0) l →
  foldr Z.add 0 (weight poll <$> l) = 0.
Proof.
  induction 1 as [|a l Ha _ IH]; [done|].
  cbn [fmap list_fmap foldr]. fold (weight poll <$> l). rewrite IH.
  unfold weight. case_decide; [|done]. rewrite Ha; [done|done].
Qed.

Lemma hits_zero (k : Z) (l : list Vote) :
  (∀ v, v ∈ l → vote_option_id v ≠ k) → hits k l = 0%nat.
Proof.
  induction l as [|x l IH]; intros Hl; [done|].
  rewrite hits_cons, IH.
  - unfold hit. case_decide as Hx; [|done].
    exfalso. by apply (Hl x); [left|].
  - intros v Hv. apply Hl. by right.
Qed.

Lemma fresh_poll_tallied (st : DB) (poll : str) :
  fresh_poll st poll → tallied st poll.
Proof.
  intros [Htot Hcnt Hnov Hnoref]. split.
  - destruct Htot as (p & Hp & H0). exists p. split; [done|].
    rewrite H0, sum_option_votes_weight. symmetry. apply sum_weight_zero.
    apply Forall_forall. intros [k o] Hko%elem_of_map_to_list. simpl.
    by apply (Hcnt k o).
  - intros k o Hk Hown. rewrite (Hcnt k o Hk Hown).
    unfold rows_for. fold (hits k (votes st)). rewrite hits_zero; [done|].
    intros v Hv Hvk. apply (Hnoref v o Hv); [by rewrite Hvk|done].
  - intros v Hv Hvp. by destruct (Hnov v Hv).
  - intros v o Hv Hvo Hown. by destruct (Hnoref v o Hv Hvo).
Qed.

Lemma is_fresh_poll_correct (st : DB) (poll : str) :
  is_fresh_poll st poll = true → fresh_poll st poll.
Proof.
  unfold is_fresh_poll. rewrite !andb_true_iff, !forallb_forall.
  intros [[Htot Hcnt] Hvotes]. apply bool_decide_eq_true in Htot. split.
  - destruct (polls st !! poll) as [p|]; [|done].
    exists p. split; [done|]. simpl in Htot. congruence.
  - intros k o Hk Hown.
    assert (Hin : In (k, o) (map_to_list (poll_options st))).
    { apply list_elem_of_In. by apply elem_of_map_to_list. }
    apply Hcnt in Hin. apply bool_decide_eq_true in Hin. by apply Hin.
  - intros v Hv%list_elem_of_In. apply Hvotes in Hv.
    apply andb_true_iff in Hv as [Hv _]. by apply bool_decide_eq_true in Hv.
  - intros v o Hv%list_elem_of_In Ho. apply Hvotes in Hv.
    apply andb_true_iff in Hv as [_ Hv]. rewrite Ho in Hv.
    by apply bool_decide_eq_true in Hv.
Qed.

(** C2. Start from a poll as created: [total_votes] and every option's
    [vote_count] at zero, and no [Vote] row for it yet.  After any sequence
    of votes (first votes and changes, accepted or rejected, by any voters,
    on this poll or on others) the poll's [total_votes] equals the sum of
    [vote_count] over its options. *)
Theorem total_votes_is_sum_of_option_counts (st0 : DB) (poll : str)
    (rqs : list Request) :
  is_fresh_poll st0 poll = true →
  ∃ p, polls (run sha256_hexdigest st0 rqs) !! poll = Some p
       ∧ total_votes p
         = sum_option_votes (run sha256_hexdigest st0 rqs) poll.
Proof.
  intros Hfresh%is_fresh_poll_correct.
  apply (tally_total _ _ (run_tallied st0 poll rqs (fresh_poll_tallied _ _ Hfresh))).
Qed.

End VotingProtocol.

(** ** The protocol on explicit stores *)

(** The scenario of two sessions' worth of requests on a poll that forbids
    changes and on one that allows them: the first vote counts once, the
    repeat is rejected on the first poll and moves the vote on the second. *)
Example scenario_change_forbidden :
  let st := Reference.db1 in
  total_votes <$> polls st !! "poll0001" = Some 1
  ∧ count_of st 1 = Some 1 ∧ count_of st 2 = Some 0
  ∧ cast_vote Reference.digest st "poll0001" 2 "S1" 60
    = (Served (Ok AlreadyVoted), st).
Proof. repeat split. Qed.

Example scenario_change_allowed :
  let st := (cast_vote Reference.digest Reference.db1 "poll0002" 4 "S1" 60).2 in
  total_votes <$> polls st !! "poll0002" = Some 1
  ∧ count_of st 3 = Some 0 ∧ count_of st 4 = Some 1
  ∧ vote_option_id <$> votes st = [1; 4].
Proof. repeat split. Qed.

Lemma inactive_poll_rejects_vote_witness :
  polls Reference.db1 !! "poll0003" = Some Reference.poll_expired
  ∧ is_active Reference.poll_expired 200 = false
  ∧ vote Reference.digest Reference.db1 "poll0003" 5 "S1" 200
    = Some (Ok PollInactive, Reference.db1).
Proof.
  split; [reflexivity|]. split; [reflexivity|].
  apply (inactive_poll_rejects_vote Reference.digest Reference.db1 "poll0003"
           Reference.poll_expired 5 "S1" 200); reflexivity.
Defined.

Lemma repeat_vote_rejected_when_change_disallowed_witness :
  vote Reference.digest Reference.db1 "poll0001" 2 "S1" 60
  = Some (Ok AlreadyVoted, Reference.db1).
Proof.
  apply (repeat_vote_rejected_when_change_disallowed Reference.digest
           Reference.db1 "poll0001" (set_total_votes Reference.poll_fixed 1) 2
           (mkPollOption "poll0001" "Coffee" 0 1) "S1" 60 0
           (mkVote "poll0001" "S1:poll0001" 1 50)); reflexivity.
Defined.

Lemma vote_change_moves_one_vote_witness :
  ∃ d st',
    vote Reference.digest Reference.db1 "poll0002" 4 "S1" 60
    = Some (Ok (VoteChanged d), st')
    ∧ count_of st' 3 = Some 0 ∧ count_of st' 4 = Some 1
    ∧ total_votes <$> polls st' !! "poll0002" = Some 1
    ∧ vote_option_id <$> votes Reference.db1 = [1; 3]
    ∧ votes st' !! 1%nat = Some (mkVote "poll0002" "S1:poll0002" 4 50)
    ∧ votes st' !! 0%nat = Some (mkVote "poll0001" "S1:poll0001" 1 50).
Proof.
  destruct (vote_change_moves_one_vote Reference.digest Reference.db1
              "poll0002" (set_total_votes Reference.poll_open 1) 4
              (mkPollOption "poll0002" "Dogs" 0 1) "S1" 60 1
              (mkVote "poll0002" "S1:poll0002" 3 50)
              eq_refl eq_refl eq_refl eq_refl eq_refl)
    as (d & st' & Hv & _ & _ & Hp & _ & _ & _ & _ & Hne & _ & _ & Hrow & _
        & Hrest & _).
  exists d, st'. split; [exact Hv|].
  destruct Hne as [H3 H4]; [discriminate|].
  split; [exact H3|]. split; [exact H4|]. split; [by rewrite Hp|].
  split; [reflexivity|]. split; [exact Hrow|].
  rewrite (Hrest 0%nat); [reflexivity|discriminate].
Defined.

Lemma one_vote_row_per_poll_and_voter_witness :
  votes_unique
    (run Reference.digest Reference.db0
       [mkRequest "poll0002" 3 "S1" 50; mkRequest "poll0002" 4 "S1" 60;
        mkRequest "poll0002" 4 "S2" 70; mkRequest "poll0001" 1 "S1" 80;
        mkRequest "poll0001" 2 "S1" 90])
  ∧ vote_option_id
      <$> votes (run Reference.digest Reference.db0
                   [mkRequest "poll0002" 3 "S1" 50])
    = [3]
  ∧ ∃ i,
      votes (run Reference.digest Reference.db0
               [mkRequest "poll0002" 3 "S1" 50; mkRequest "poll0002" 4 "S1" 60])
        !! i
      = Some (mkVote "poll0002" "S1:poll0002" 4 50)
      ∧ length
          (votes (run Reference.digest Reference.db0
                    [mkRequest "poll0002" 3 "S1" 50;
                     mkRequest "poll0002" 4 "S1" 60]))
        = 1%nat.
Proof.
  split.
  { apply (one_vote_row_per_poll_and_voter Reference.digest Reference.db0).
    apply NoDup_nil_2. }
  split; [reflexivity|].
  destruct (one_vote_row_per_poll_and_voter Reference.digest Reference.db0
              [mkRequest "poll0002" 3 "S1" 50] NoDup_nil_2) as [_ H].
  destruct (H "poll0002" 4 "S1" 60 _ _ eq_refl) as (_ & _ & Hheld).
  destruct Hheld as (_ & Hlen & Hchanged).
  { apply (bool_decide_unpack _). vm_compute. exact I. }
  destruct (Hchanged _ eq_refl) as (i & v & Hi & _ & _ & Hrow & _).
  exists i. split; [|exact Hlen].
  assert (v = mkVote "poll0002" "S1:poll0002" 3 50) as ->.
  { destruct i as [|[|i]]; vm_compute in Hi; [|discriminate Hi..].
    by injection Hi as <-. }
  exact Hrow.
Defined.

Lemma total_votes_is_sum_of_option_counts_witness :
  ∃ p,
    polls (run Reference.digest Reference.db0
             [mkRequest "poll0002" 3 "S1" 50; mkRequest "poll0002" 4 "S1" 60;
              mkRequest "poll0002" 4 "S2" 70; mkRequest "poll0002" 3 "S2" 80])
      !! "poll0002" = Some p
    ∧ total_votes p
      = sum_option_votes
          (run Reference.digest Reference.db0
             [mkRequest "poll0002" 3 "S1" 50; mkRequest "poll0002" 4 "S1" 60;
              mkRequest "poll0002" 4 "S2" 70; mkRequest "poll0002" 3 "S2" 80])
          "poll0002".
Proof.
  apply (total_votes_is_sum_of_option_counts Reference.digest Reference.db0
           "poll0002"). reflexivity.
Defined.

(** * Properties of the token engine and of the identifier check *)

Section TokenEngine.

Context (sha256_hexdigest : bytes → str).

Lemma encode_inj (s1 s2 : str) : encode s1 = encode s2 → s1 = s2.
Proof.
  unfold encode. intros H.
  rewrite <- (string_of_list_ascii_of_string s1),
          <- (string_of_list_ascii_of_string s2).
  by rewrite H.
Qed.



(** *** Counting digests and identifiers *)





(** [poll_id_chars] lists the class of the identifier check. *)
Lemma poll_id_chars_spec (c : ascii) :
  c ∈ poll_id_chars ↔ poll_id_char c = true.
Proof.
  assert (H : bool_decide (c ∈ poll_id_chars) = poll_id_char c).
  { by destruct c as [[] [] [] [] [] [] [] []]; vm_compute. }
  rewrite <- H. symmetry. apply bool_decide_eq_true.
Qed.





End TokenEngine.

Lemma reference_digest_collision_free : collision_free Reference.digest.
Proof.
  intros m1 m2 H. unfold Reference.digest in H.
  rewrite <- (list_ascii_of_string_of_list_ascii m1),
          <- (list_ascii_of_string_of_list_ascii m2).
  by rewrite H.
Qed.





(** ** Poll identifiers *)

Lemma rep_true (cls : ascii → bool) (k : list ascii → bool) (hi lo : nat)
    (s : list ascii) :
  rep cls lo hi k s = true ↔
  ∃ n, (lo ≤ n ≤ hi)%nat ∧ (n ≤ length s)%nat
       ∧ forallb cls (take n s) = true ∧ k (drop n s) = true.
Proof.
  revert lo s. induction hi as [|hi IH]; intros lo s; simpl.
  - split.
    + destruct lo; [|done]. intros Hk. exists 0%nat. repeat split; try lia; done.
    + intros (n & Hn & _ & _ & Hk). assert (n = 0%nat) as -> by lia.
      destruct lo; [done|lia].
  - rewrite orb_true_iff. split.
    + intros [H|H].
      * destruct s as [|c s]; [done|]. apply andb_true_iff in H as [Hc H].
        apply IH in H as (n & Hn & Hlen & Hall & Hk).
        exists (S n). simpl. rewrite Hc, Hall. repeat split; try lia; done.
      * destruct lo; [|done]. exists 0%nat. repeat split; try lia; done.
    + intros (n & Hn & Hlen & Hall & Hk). destruct n as [|n].
      * right. destruct lo; [done|lia].
      * left. destruct s as [|c s]; [simpl in Hlen; lia|].
        simpl in *. apply andb_true_iff in Hall as [Hc Hall]. rewrite Hc. simpl.
        apply IH. exists n. repeat split; try lia; done.
Qed.

Lemma list_ascii_of_string_app (s t : str) :
  list_ascii_of_string (s +:+ t)
  = (list_ascii_of_string s ++ list_ascii_of_string t)%list.
Proof. induction s as [|c s IH]; simpl; [done|]. by rewrite IH. Qed.

(** What [is_valid_poll_id] accepts: the well-formed identifiers, and the
    well-formed identifiers followed by one newline. *)
Lemma is_valid_poll_id_spec (s : str) :
  is_valid_poll_id s = true ↔
  well_formed_poll_id s = true
  ∨ ∃ t, s = t +:+ String newline "" ∧ well_formed_poll_id t = true.
Proof.
  unfold is_valid_poll_id, well_formed_poll_id, re_match, poll_id_pattern.
  cbn [match_here]. rewrite andb_true_l.
  split.
  - case_decide as Hs; [done|]. intros (n & Hn & Hlen & Hall & Hk)%rep_true.
    destruct (drop n (list_ascii_of_string s)) as [|c [|c' l]] eqn:Hd; [| |done].
    + left. assert (n = length (list_ascii_of_string s)) as ->.
      { apply drop_nil_inv in Hd. lia. }
      rewrite firstn_all in Hall. rewrite Hall, andb_true_r.
      apply andb_true_iff. split; apply Nat.leb_le; lia.
    + right. apply andb_true_iff in Hk as [Hc _].
      apply bool_decide_eq_true in Hc. subst c.
      exists (string_of_list_ascii (take n (list_ascii_of_string s))).
      rewrite list_ascii_of_string_of_list_ascii, length_take, Hall, andb_true_r.
      split.
      * apply encode_inj. unfold encode.
        rewrite list_ascii_of_string_app, list_ascii_of_string_of_list_ascii.
        simpl. rewrite <- Hd. by rewrite take_drop.
      * apply andb_true_iff. split; apply Nat.leb_le; lia.
  - intros [H|(t & -> & H)].
    + apply andb_true_iff in H as [[H8 H32]%andb_true_iff Hall].
      apply Nat.leb_le in H8, H32.
      case_decide as Hs; [subst s; simpl in H8; lia|].
      apply rep_true. exists (length (list_ascii_of_string s)).
      rewrite firstn_all, drop_all. repeat split; try lia; done.
    + apply andb_true_iff in H as [[H8 H32]%andb_true_iff Hall].
      apply Nat.leb_le in H8, H32.
      case_decide as Hs; [destruct t; simpl in *; [lia|done]|].
      apply rep_true. exists (length (list_ascii_of_string t)).
      rewrite list_ascii_of_string_app, take_app_length, drop_app_length.
      cbn [list_ascii_of_string].
      repeat split; try lia; try done. rewrite length_app. simpl. lia.
Qed.

(** C9. [is_valid_poll_id] accepts every string of 8 to 32 characters from
    [[A-Za-z0-9_-]], but not only those: [$] also matches before a final
    newline, so the nine-character string [abcdefgh] followed by a newline
    passes the check although it is not of the specified format, and the
    route hands it to the poll lookup instead of answering 400. *)
Theorem poll_id_check_accepts_trailing_newline :
  is_valid_poll_id ("abcdefgh" +:+ String newline "") = true
  ∧ well_formed_poll_id ("abcdefgh" +:+ String newline "") = false
  ∧ validate_poll_id ("abcdefgh" +:+ String newline "")
    = Ok ("abcdefgh" +:+ String newline "")
  ∧ vote_route Reference.digest Reference.db0
      ("abcdefgh" +:+ String newline "") (Some 1) "S1" 0
    = (NotFound, Reference.db0)
  ∧ (∀ s, well_formed_poll_id s = true → is_valid_poll_id s = true).
Proof.
  split; [reflexivity|]. split; [reflexivity|]. split; [reflexivity|].
  split; [reflexivity|].
  intros s Hs. apply is_valid_poll_id_spec. by left.
Qed.

(** * Properties of the encryption engine *)

(** ** Base64 *)

Lemma table_a2b_b2a (d : sextet) : table_a2b (table_b2a d) = Some d.
Proof. destruct d as [[] [] [] [] [] []]; reflexivity. Qed.

Lemma table_b2a_not_pad (d : sextet) : table_b2a d ≠ pad.
Proof. destruct d as [[] [] [] [] [] []]; discriminate. Qed.

Lemma urlsafe_decode_encode_char (d : sextet) :
  urlsafe_decode_char (urlsafe_encode_char (table_b2a d)) = table_b2a d.
Proof. destruct d as [[] [] [] [] [] []]; reflexivity. Qed.

Lemma out1_digits (a b : ascii) : out1 (digit1 a) (digit2 a b) = a.
Proof. by destruct a, b. Qed.

Lemma out2_digits (a b c : ascii) : out2 (low4 (digit2 a b)) (digit3 b c) = b.
Proof. by destruct a, b, c. Qed.

Lemma out3_digits (b c : ascii) : out3 (low2 (digit3 b c)) (digit4 c) = c.
Proof. by destruct b, c. Qed.

(** One step of the decoder on a character of the alphabet. *)
Lemma a2b_loop_digit (d : sextet) (s : bytes) (quad_pos : nat)
    (leftchar : sextet) (pad_count : nat) (out : bytes) :
  a2b_loop (table_b2a d :: s) quad_pos leftchar pad_count out
  = match quad_pos with
    | O => a2b_loop s 1%nat d O out
    | 1%nat => a2b_loop s 2%nat (low4 d) O (out ++ [out1 leftchar d])
    | 2%nat => a2b_loop s 3%nat (low2 d) O (out ++ [out2 leftchar d])
    | _ => a2b_loop s O sextet_zero O (out ++ [out3 leftchar d])
    end.
Proof.
  cbn [a2b_loop]. rewrite decide_False by apply table_b2a_not_pad.
  by rewrite table_a2b_b2a.
Qed.

Lemma list_ind3 {A : Type} (P : list A → Prop) :
  P [] → (∀ a, P [a]) → (∀ a b, P [a; b]) →
  (∀ a b c l, P l → P (a :: b :: c :: l)) →
  ∀ l, P l.
Proof.
  intros H0 H1 H2 H3 l.
  enough (P l ∧ (∀ a, P (a :: l)) ∧ (∀ a b, P (a :: b :: l))) by tauto.
  induction l as [|x l (IH0 & IH1 & IH2)]; [by auto|].
  split; [apply IH1|]. split; [intros a; apply IH2|]. intros a b. by apply H3.
Qed.

Lemma a2b_loop_b2a (bs : bytes) :
  ∀ leftchar pad_count out,
    a2b_loop (b2a_base64 bs) O leftchar pad_count out = Ok (out ++ bs).
Proof.
  induction bs as [|a|a b|a b c bs IH] using list_ind3;
    intros leftchar pad_count out.
  - by rewrite app_nil_r.
  - cbn [b2a_base64]. rewrite !a2b_loop_digit. by rewrite out1_digits.
  - cbn [b2a_base64]. rewrite !a2b_loop_digit.
    rewrite out1_digits, out2_digits. cbn. by rewrite <- app_assoc.
  - cbn [b2a_base64]. rewrite !a2b_loop_digit.
    rewrite out1_digits, out2_digits, out3_digits, IH.
    by rewrite <- !app_assoc.
Qed.

Lemma urlsafe_decode_encode (bs : bytes) :
  urlsafe_decode_char <$> urlsafe_b64encode bs = b2a_base64 bs.
Proof.
  unfold urlsafe_b64encode.
  induction bs as [|a|a b|a b c bs IH] using list_ind3.
  - done.
  - cbn [b2a_base64 fmap list_fmap]. by rewrite !urlsafe_decode_encode_char.
  - cbn [b2a_base64 fmap list_fmap]. by rewrite !urlsafe_decode_encode_char.
  - cbn [b2a_base64 fmap list_fmap]. fold (urlsafe_encode_char <$> b2a_base64 bs).
    fold (urlsafe_decode_char <$> (urlsafe_encode_char <$> b2a_base64 bs)).
    by rewrite !urlsafe_decode_encode_char, IH.
Qed.

(** Decoding undoes encoding. *)
Lemma urlsafe_b64decode_encode (bs : bytes) :
  urlsafe_b64decode (urlsafe_b64encode bs) = Ok bs.
Proof.
  unfold urlsafe_b64decode, a2b_base64.
  by rewrite urlsafe_decode_encode, a2b_loop_b2a.
Qed.

(** The encoded text is ASCII, hence well-formed UTF-8, and it is empty
    only for the empty input. *)
Lemma utf8_valid_ascii (l : bytes) :
  Forall (λ c, byte_in 0x00 0x7F c = true) l → utf8_valid l = true.
Proof.
  induction 1 as [|c l Hc _ IH]; [done|]. cbn [utf8_valid]. by rewrite Hc.
Qed.

Lemma urlsafe_char_ascii (d : sextet) :
  byte_in 0x00 0x7F (urlsafe_encode_char (table_b2a d)) = true.
Proof. destruct d as [[] [] [] [] [] []]; reflexivity. Qed.

Lemma urlsafe_b64encode_ascii (bs : bytes) :
  Forall (λ c, byte_in 0x00 0x7F c = true) (urlsafe_b64encode bs).
Proof.
  unfold urlsafe_b64encode.
  induction bs as [|a|a b|a b c bs IH] using list_ind3;
    cbn [b2a_base64 fmap list_fmap];
    repeat (apply Forall_cons; split;
            [first [apply urlsafe_char_ascii | reflexivity]|]);
    first [apply Forall_nil_2 | exact IH].
Qed.

Lemma decode_urlsafe_b64encode (bs : bytes) :
  decode (urlsafe_b64encode bs)
  = Ok (string_of_list_ascii (urlsafe_b64encode bs)).
Proof.
  unfold decode.
  by rewrite (utf8_valid_ascii _ (urlsafe_b64encode_ascii bs)).
Qed.

Lemma urlsafe_b64encode_nonempty (bs : bytes) :
  bs ≠ [] → string_of_list_ascii (urlsafe_b64encode bs) ≠ "".
Proof.
  intros Hbs. destruct bs as [|a [|b [|c bs]]]; [done|discriminate..].
Qed.

Lemma decode_encode (x : str) : is_str x → decode (encode x) = Ok x.
Proof.
  unfold is_str, decode, encode. intros ->.
  by rewrite string_of_list_ascii_of_string.
Qed.

Lemma encode_string_of_list_ascii (l : bytes) :
  encode (string_of_list_ascii l) = l.
Proof. apply list_ascii_of_string_of_list_ascii. Qed.

(** ** Round trip *)

Section EncryptionEngine.

Context (aesgcm_encrypt : bytes → bytes → bytes → bytes).
Context (aesgcm_decrypt : bytes → bytes → bytes → option bytes).

(** What is produced under a key and a 96-bit nonce opens under them. *)
Hypothesis aesgcm_correct : ∀ key nonce data,
  length nonce = NONCE_SIZE →
  aesgcm_decrypt key nonce (aesgcm_encrypt key nonce data) = Some data.

(** The blob of a non-empty text. *)
Lemma encrypt_blob (self : AES256Encryption) (nonce : bytes) (x : str) :
  x ≠ "" →
  encrypt aesgcm_encrypt self nonce x
  = Ok (string_of_list_ascii
          (urlsafe_b64encode
             (nonce ++ aesgcm_encrypt (_key self) nonce (encode x)))).
Proof.
  intros Hx. unfold encrypt. rewrite decide_False by done.
  apply decode_urlsafe_b64encode.
Qed.

(** A blob that decodes to nonce and ciphertext of [x] decrypts to [x]. *)
Lemma decrypt_of_decoded (self : AES256Encryption) (nonce : bytes) (x blob : str) :
  is_str x → length nonce = NONCE_SIZE → blob ≠ "" →
  urlsafe_b64decode (encode blob)
  = Ok (nonce ++ aesgcm_encrypt (_key self) nonce (encode x)) →
  decrypt aesgcm_decrypt self blob = Ok x.
Proof.
  intros Hx Hn Hblob Hdec. unfold decrypt, decrypt_body.
  rewrite decide_False by done. rewrite Hdec.
  rewrite take_app_length', drop_app_length' by done.
  by rewrite aesgcm_correct, decode_encode.
Qed.

(** C7. For every text [x], what [encrypt] returns under an engine (a key
    and a salt) and a fresh 96-bit nonce, [decrypt] turns back into [x]
    under the same engine.  The empty text is not encrypted: [encrypt]
    returns the empty string for it whatever the cipher, and [decrypt]
    returns the empty text for the empty string. *)
Theorem encrypt_decrypt_roundtrip (self : AES256Encryption) (nonce : bytes)
    (x : str) :
  is_str x → length nonce = NONCE_SIZE →
  (∃ blob, encrypt aesgcm_encrypt self nonce x = Ok blob
           ∧ decrypt aesgcm_decrypt self blob = Ok x)
  ∧ (∀ cipher, encrypt cipher self nonce "" = Ok "")
  ∧ (∀ cipher, decrypt cipher self "" = Ok "").
Proof.
  intros Hx Hn. split; [|by split].
  destruct (decide (x = "")) as [->|Hne]; [by exists ""|].
  eexists. split; [by apply encrypt_blob|].
  apply (decrypt_of_decoded self nonce); [done|done| |].
  - apply urlsafe_b64encode_nonempty. destruct nonce; [done|discriminate].
  - by rewrite encode_string_of_list_ascii, urlsafe_b64decode_encode.
Qed.

End EncryptionEngine.

Lemma reference_tag_length (key nonce data : bytes) :
  length (Reference.tag key nonce data) = 16%nat.
Proof.
  unfold Reference.tag.
  rewrite length_take, !length_app, length_replicate. lia.
Qed.

Lemma reference_aead_correct (key nonce data : bytes) :
  length nonce = NONCE_SIZE →
  Reference.open key nonce (Reference.seal key nonce data) = Some data.
Proof.
  intros _. unfold Reference.open, Reference.seal.
  rewrite length_app, reference_tag_length.
  replace (length data + 16 - 16)%nat with (length data) by lia.
  rewrite take_app_length, drop_app_length.
  rewrite decide_True; [done|]. split; [lia|done].
Qed.

Lemma encrypt_decrypt_roundtrip_witness :
  ∃ blob,
    encrypt Reference.seal Reference.engine (encode "0123456789ab") "vote"
    = Ok blob
    ∧ decrypt Reference.open Reference.engine blob = Ok "vote".
Proof.
  apply (encrypt_decrypt_roundtrip Reference.seal Reference.open
           reference_aead_correct Reference.engine (encode "0123456789ab")
           "vote"); reflexivity.
Defined.

(** ** Tampering *)

Section Tampering.

Context (aesgcm_encrypt : bytes → bytes → bytes → bytes).
Context (aesgcm_decrypt : bytes → bytes → bytes → option bytes).

Hypothesis aesgcm_correct : ∀ key nonce data,
  length nonce = NONCE_SIZE →
  aesgcm_decrypt key nonce (aesgcm_encrypt key nonce data) = Some data.

(** [decrypt] on a non-empty blob either returns a text that the cipher
    authenticated, or raises [DecryptionFailed]. *)
Lemma decrypt_outcome (self : AES256Encryption) (blob : str) :
  blob ≠ "" →
  (∃ y bs pt,
      decrypt aesgcm_decrypt self blob = Ok y
      ∧ urlsafe_b64decode (encode blob) = Ok bs
      ∧ aesgcm_decrypt (_key self) (take NONCE_SIZE bs) (drop NONCE_SIZE bs)
        = Some pt
      ∧ decode pt = Ok y)
  ∨ (∃ e, decrypt aesgcm_decrypt self blob = Raise (DecryptionFailed e)).
Proof.
  intros Hblob. unfold decrypt, decrypt_body. rewrite decide_False by done.
  destruct (urlsafe_b64decode (encode blob)) as [bs|e]; [|right; by exists e].
  destruct (aesgcm_decrypt (_key self) (take NONCE_SIZE bs) (drop NONCE_SIZE bs))
    as [pt|] eqn:Hpt; [|right; by eexists].
  destruct (decode pt) as [y|e] eqn:Hy; [|right; by exists e].
  left. by exists y, bs, pt.
Qed.

(** C8, as the code has it.  Take the blob of a non-empty text [x] and any
    non-empty string [blob'] in its place.  [decrypt] returns a text only
    when the cipher authenticated the nonce and ciphertext that [blob']
    decodes to, and every failure is raised as [DecryptionFailed].  If
    [blob'] still decodes to the nonce and ciphertext of the blob,
    [decrypt] returns [x] itself; if it does not, and the cipher rejects
    what it decodes to, [decrypt] raises [DecryptionFailed]. *)
Theorem tampered_blob_fails_or_yields_original (self : AES256Encryption)
    (nonce : bytes) (x blob blob' : str) :
  is_str x → x ≠ "" → length nonce = NONCE_SIZE →
  encrypt aesgcm_encrypt self nonce x = Ok blob →
  blob' ≠ "" →
  let sealed := nonce ++ aesgcm_encrypt (_key self) nonce (encode x) in
  urlsafe_b64decode (encode blob) = Ok sealed
  ∧ (∀ y, decrypt aesgcm_decrypt self blob' = Ok y →
     ∃ bs pt,
       urlsafe_b64decode (encode blob') = Ok bs
       ∧ aesgcm_decrypt (_key self) (take NONCE_SIZE bs) (drop NONCE_SIZE bs)
         = Some pt
       ∧ decode pt = Ok y)
  ∧ (urlsafe_b64decode (encode blob') = Ok sealed →
       decrypt aesgcm_decrypt self blob' = Ok x)
  ∧ ((∀ bs, urlsafe_b64decode (encode blob') = Ok bs → bs ≠ sealed →
        aesgcm_decrypt (_key self) (take NONCE_SIZE bs) (drop NONCE_SIZE bs)
        = None) →
       urlsafe_b64decode (encode blob') ≠ Ok sealed →
       ∃ e, decrypt aesgcm_decrypt self blob' = Raise (DecryptionFailed e)).
Proof.
  intros Hx Hne Hn Henc Hblob' sealed.
  split; [|split; [|split]].
  - rewrite (encrypt_blob aesgcm_encrypt self nonce x Hne) in Henc.
    injection Henc as <-.
    by rewrite encode_string_of_list_ascii, urlsafe_b64decode_encode.
  - intros y Hy.
    destruct (decrypt_outcome self blob' Hblob')
      as [(y' & bs & pt & Hy' & Hbs & Hpt & Hdec)|[e He]]; [|congruence].
    exists bs, pt. repeat split; try done. congruence.
  - intros Hdec. by apply (decrypt_of_decoded _ _ aesgcm_correct self nonce).
  - intros Hreject Hdiff.
    destruct (decrypt_outcome self blob' Hblob')
      as [(y' & bs & pt & Hy' & Hbs & Hpt & Hdec)|[e He]]; [|by exists e].
    rewrite (Hreject bs Hbs) in Hpt; [done|]. intros ->. by apply Hdiff.
Qed.

Lemma a2b_loop_loose_tail1 (a c : ascii) (leftchar : sextet)
    (pad_count : nat) (out : bytes) :
  a2b_loop [table_b2a (digit1 a); table_b2a (digit2 a c); pad; pad]
    O leftchar pad_count out = Ok (out ++ [a]).
Proof.
  rewrite !a2b_loop_digit. cbn.
  by replace (out1 (digit1 a) (digit2 a c)) with a by (by destruct a, c).
Qed.

Lemma a2b_loop_loose_tail2 (a b c : ascii) (leftchar : sextet)
    (pad_count : nat) (out : bytes) :
  a2b_loop [table_b2a (digit1 a); table_b2a (digit2 a b);
            table_b2a (digit3 b c); pad]
    O leftchar pad_count out = Ok (out ++ [a; b]).
Proof.
  rewrite !a2b_loop_digit, out1_digits, out2_digits. cbn.
  by rewrite <- app_assoc.
Qed.

Lemma a2b_loop_loose (c : ascii) (bs : bytes) :
  ∀ leftchar pad_count out,
    a2b_loop (b2a_base64_loose c bs) O leftchar pad_count out = Ok (out ++ bs).
Proof.
  induction bs as [|a|a b|a b c' bs IH] using list_ind3;
    intros leftchar pad_count out.
  - by rewrite app_nil_r.
  - apply a2b_loop_loose_tail1.
  - apply a2b_loop_loose_tail2.
  - cbn [b2a_base64_loose]. rewrite !a2b_loop_digit.
    rewrite out1_digits, out2_digits, out3_digits, IH.
    by rewrite <- !app_assoc.
Qed.

Lemma urlsafe_decode_encode_loose (c : ascii) (bs : bytes) :
  urlsafe_decode_char <$> (urlsafe_encode_char <$> b2a_base64_loose c bs)
  = b2a_base64_loose c bs.
Proof.
  induction bs as [|a|a b|a b c' bs IH] using list_ind3.
  - done.
  - cbn [b2a_base64_loose fmap list_fmap]. by rewrite !urlsafe_decode_encode_char.
  - cbn [b2a_base64_loose fmap list_fmap]. by rewrite !urlsafe_decode_encode_char.
  - cbn [b2a_base64_loose fmap list_fmap].
    fold (urlsafe_encode_char <$> b2a_base64_loose c bs).
    fold (urlsafe_decode_char <$> (urlsafe_encode_char <$> b2a_base64_loose c bs)).
    by rewrite !urlsafe_decode_encode_char, IH.
Qed.

Lemma urlsafe_char_inj (d1 d2 : sextet) :
  urlsafe_encode_char (table_b2a d1) = urlsafe_encode_char (table_b2a d2) →
  d1 = d2.
Proof.
  intros H. apply (f_equal (λ c, table_a2b (urlsafe_decode_char c))) in H.
  rewrite !urlsafe_decode_encode_char, !table_a2b_b2a in H. by injection H.
Qed.

Lemma loose_differs (bs : bytes) :
  (length bs mod 3 ≠ 0)%nat →
  one_char_differs (urlsafe_b64encode bs)
    (urlsafe_encode_char <$> b2a_base64_loose "255"%char bs).
Proof.
  unfold urlsafe_b64encode.
  induction bs as [|a|a b|a b c bs IH] using list_ind3; intros Hlen.
  - done.
  - exists [urlsafe_encode_char (table_b2a (digit1 a))],
      (urlsafe_encode_char (table_b2a (digit2 a zero))),
      (urlsafe_encode_char (table_b2a (digit2 a "255"%char))), [pad; pad].
    repeat split; try done. intros H%urlsafe_char_inj. by destruct a.
  - exists [urlsafe_encode_char (table_b2a (digit1 a));
            urlsafe_encode_char (table_b2a (digit2 a b))],
      (urlsafe_encode_char (table_b2a (digit3 b zero))),
      (urlsafe_encode_char (table_b2a (digit3 b "255"%char))), [pad].
    repeat split; try done. intros H%urlsafe_char_inj. by destruct b.
  - destruct IH as (pre & x & x' & suf & H1 & H2 & Hx).
    { intros H. apply Hlen. cbn [length].
      replace (S (S (S (length bs)))) with (length bs + 1 * 3)%nat by lia.
      by rewrite Nat.Div0.mod_add. }
    exists (urlsafe_encode_char (table_b2a (digit1 a))
              :: urlsafe_encode_char (table_b2a (digit2 a b))
              :: urlsafe_encode_char (table_b2a (digit3 b c))
              :: urlsafe_encode_char (table_b2a (digit4 c)) :: pre),
      x, x', suf.
    cbn [b2a_base64 b2a_base64_loose fmap list_fmap].
    fold (urlsafe_encode_char <$> b2a_base64 bs).
    fold (urlsafe_encode_char <$> b2a_base64_loose "255"%char bs).
    rewrite H1, H2. by repeat split.
Qed.

(** Whatever the cipher, when the sealed bytes do not fill whole groups of
    three, one character of the blob can be changed and [decrypt] still
    returns the text. *)
Lemma noncanonical_blob_accepted (self : AES256Encryption) (nonce : bytes)
    (x : str) :
  is_str x → x ≠ "" → length nonce = NONCE_SIZE →
  (length (nonce ++ aesgcm_encrypt (_key self) nonce (encode x)) mod 3 ≠ 0)%nat →
  ∃ blob blob',
    encrypt aesgcm_encrypt self nonce x = Ok blob
    ∧ one_char_differs (encode blob) (encode blob')
    ∧ decrypt aesgcm_decrypt self blob' = Ok x.
Proof.
  intros Hx Hne Hn Hlen.
  set (sealed := nonce ++ aesgcm_encrypt (_key self) nonce (encode x)) in *.
  exists (string_of_list_ascii (urlsafe_b64encode sealed)),
    (string_of_list_ascii
       (urlsafe_encode_char <$> b2a_base64_loose "255"%char sealed)).
  pose proof (loose_differs sealed Hlen) as Hdiff.
  split; [by apply encrypt_blob|].
  rewrite !encode_string_of_list_ascii. split; [done|].
  apply (decrypt_of_decoded _ _ aesgcm_correct self nonce); try done.
  - destruct Hdiff as (pre & c & c' & suf & _ & H2 & _).
    intros H%(f_equal encode). rewrite encode_string_of_list_ascii, H2 in H.
    by destruct pre.
  - rewrite encode_string_of_list_ascii. unfold urlsafe_b64decode, a2b_base64.
    by rewrite urlsafe_decode_encode_loose, a2b_loop_loose.
Qed.

(** No cipher that is correct and appends a 16-byte tag, as AES-GCM does,
    makes [decrypt] detect every change of a blob. *)
Lemma not_every_change_detected (self : AES256Encryption) :
  (∀ key nonce data,
     length (aesgcm_encrypt key nonce data) = (length data + 16)%nat) →
  ¬ detects_every_change aesgcm_encrypt aesgcm_decrypt self.
Proof.
  intros Htag Hdetect.
  destruct (noncanonical_blob_accepted self (replicate 12 zero) "a")
    as (blob & blob' & Henc & Hdiff & Hdec); try done.
  { rewrite length_app, Htag. simpl. done. }
  destruct (Hdetect (replicate 12 zero) "a" blob blob') as [e He]; try done.
  congruence.
Qed.

End Tampering.

(** The counterexample to C8 as stated: the blob of the text [a], and the
    same blob with its last digit [M] replaced by [N].  [decrypt] accepts
    the modified blob and returns [a], so not every change is detected. *)
Lemma modified_blob_still_decrypts :
  encrypt Reference.seal Reference.engine (encode "0123456789ab") "a"
  = Ok "MDEyMzQ1Njc4OWFiYTAxMjM0NTY3ODlhYmFzZWM="
  ∧ encode "MDEyMzQ1Njc4OWFiYTAxMjM0NTY3ODlhYmFzZWN="
    = <[38%nat := "N"%char]> (encode "MDEyMzQ1Njc4OWFiYTAxMjM0NTY3ODlhYmFzZWM=")
  ∧ "MDEyMzQ1Njc4OWFiYTAxMjM0NTY3ODlhYmFzZWN="
    ≠ "MDEyMzQ1Njc4OWFiYTAxMjM0NTY3ODlhYmFzZWM="
  ∧ decrypt Reference.open Reference.engine
      "MDEyMzQ1Njc4OWFiYTAxMjM0NTY3ODlhYmFzZWN=" = Ok "a"
  ∧ ¬ detects_every_change Reference.seal Reference.open Reference.engine.
Proof.
  split; [reflexivity|]. split; [reflexivity|].
  split; [discriminate|]. split; [reflexivity|].
  intros Hdetect.
  destruct (Hdetect (encode "0123456789ab") "a"
              "MDEyMzQ1Njc4OWFiYTAxMjM0NTY3ODlhYmFzZWM="
              "MDEyMzQ1Njc4OWFiYTAxMjM0NTY3ODlhYmFzZWN=") as [e He];
    try done.
  exists (encode "MDEyMzQ1Njc4OWFiYTAxMjM0NTY3ODlhYmFzZW"), "M"%char, "N"%char,
    [pad].
  by repeat split.
Qed.

Lemma tampered_blob_fails_or_yields_original_witness :
  ∃ e, decrypt Reference.open Reference.engine
         "MDEyMzQ1Njc4OWFiYjAxMjM0NTY3ODlhYmFzZWM="
       = Raise (DecryptionFailed e).
Proof.
  apply (tampered_blob_fails_or_yields_original Reference.seal Reference.open
           reference_aead_correct Reference.engine (encode "0123456789ab")
           "a" "MDEyMzQ1Njc4OWFiYTAxMjM0NTY3ODlhYmFzZWM="
           "MDEyMzQ1Njc4OWFiYjAxMjM0NTY3ODlhYmFzZWM=").
  - reflexivity.
  - discriminate.
  - reflexivity.
  - reflexivity.
  - discriminate.
  - intros bs Hbs _. vm_compute in Hbs. injection Hbs as <-. reflexivity.
  - vm_compute. discriminate.
Defined.


(** * Properties of the encrypted fields *)

Section EncryptedFields.

Context (pbkdf2_hmac_sha256 : N → bytes → N → bytes → bytes).
Context (aesgcm_decrypt : bytes → bytes → bytes → option bytes).

Local Abbreviation field := (decrypt_field pbkdf2_hmac_sha256 aesgcm_decrypt).
Local Abbreviation field_body :=
  (decrypt_field_body pbkdf2_hmac_sha256 aesgcm_decrypt).
Local Abbreviation question_of :=
  (get_question pbkdf2_hmac_sha256 aesgcm_decrypt).
Local Abbreviation branch_of :=
  (get_question_branch pbkdf2_hmac_sha256 aesgcm_decrypt).

(** [decrypt_field] returns on every input. *)
Lemma decrypt_field_returns (environ_salt : option str)
    (encrypted secret_key : str) :
  field environ_salt encrypted secret_key
  = Ok (match field_body environ_salt encrypted secret_key with
        | Ok v => if decide (encrypted = "") then "" else v
        | Raise _ => ""
        end).
Proof.
  unfold decrypt_field.
  destruct (field_body environ_salt encrypted secret_key);
    by case_decide.
Qed.

(** The [except] branch of [get_question] is never taken. *)
Lemma get_question_branch_not_except (environ_salt : option str) (self : Poll)
    (secret_key : option str) :
  branch_of environ_salt self secret_key ≠ ExceptReturn.
Proof.
  unfold get_question_branch. rewrite decrypt_field_returns.
  by destruct (_ && _).
Qed.

(** C10. For a poll marked [is_encrypted] with a non-empty encrypted
    question, and a secret key (a non-empty one: the guard of
    [get_question] tests it) under which decrypting that payload fails,
    whether in the engine's constructor or in [decrypt], [get_question]
    returns the empty string: it neither raises nor returns the plaintext
    [question] column.  [decrypt_field] turns every exception into the
    empty string, so a call of [get_question] that enters the [try] block
    leaves through its [return], and the plaintext fallback of the
    [except] branch is never reached. *)
Theorem get_question_empty_when_decryption_fails (environ_salt : option str)
    (self : Poll) (payload secret_key : str) (e : exn) :
  is_encrypted self = true →
  question_encrypted self = Some payload →
  payload ≠ "" →
  secret_key ≠ "" →
  field_body environ_salt payload secret_key = Raise e →
  question_of environ_salt self (Some secret_key) = Ok ""
  ∧ branch_of environ_salt self (Some secret_key) = TryReturn
  ∧ (∀ environ_salt' encrypted' secret_key',
       ∃ v, field environ_salt' encrypted' secret_key' = Ok v)
  ∧ (∀ environ_salt' self' secret_key',
       branch_of environ_salt' self' secret_key' ≠ ExceptReturn).
Proof.
  intros Henc Hpayload Hne Hkey Hfail.
  assert (Hguard : is_encrypted self && truthy (question_encrypted self)
                   && truthy (Some secret_key) = true).
  { rewrite Henc, Hpayload. simpl.
    destruct payload; [done|]. by destruct secret_key. }
  split; [|split; [|split]].
  - unfold get_question. rewrite Hguard, Hpayload. simpl.
    by rewrite decrypt_field_returns, Hfail.
  - unfold get_question_branch. rewrite Hguard, Hpayload. simpl.
    by rewrite decrypt_field_returns.
  - intros. eexists. apply decrypt_field_returns.
  - intros. apply get_question_branch_not_except.
Qed.

End EncryptedFields.

Lemma get_question_empty_when_decryption_fails_witness :
  get_question Reference.kdf Reference.open (Some "pepper")
    (mkPoll "Tea or coffee?" (Some "not-a-blob") None false false true "c0ffee" 0)
    (Some "secret")
  = Ok "".
Proof.
  apply (get_question_empty_when_decryption_fails Reference.kdf Reference.open
           (Some "pepper")
           (mkPoll "Tea or coffee?" (Some "not-a-blob") None false false true
              "c0ffee" 0)
           "not-a-blob" "secret"
           (DecryptionFailed (BinasciiError "Incorrect padding"))).
  - reflexivity.
  - reflexivity.
  - discriminate.
  - discriminate.
  - reflexivity.
Defined.

(** * Further properties of the voting protocol *)

Section VotingFurther.

Context (sha256_hexdigest : bytes → str).

Local Abbreviation voter_hash session_id poll :=
  (hash_voter_token sha256_hexdigest
     (generate_voter_token sha256_hexdigest session_id poll)).

Lemma vote_recorded_step (st : DB) (poll : str) (p : Poll) (option_id : Z)
    (o : PollOption) (session_id : str) (now : Z) :
  polls st !! poll = Some p →
  is_active p now = true →
  find_option st option_id poll = Some o →
  find_vote st poll (voter_hash session_id poll) = None →
  vote sha256_hexdigest st poll option_id session_id now
  = Some (Ok (VoteRecorded
                (vote_data
                   (recorded st poll (voter_hash session_id poll) option_id now)
                   poll option_id)),
          recorded st poll (voter_hash session_id poll) option_id now).
Proof.
  intros Hp Ha Ho Hv. unfold vote. rewrite Hp. simpl. rewrite Ha, Ho, Hv. simpl.
  rewrite insert_vote_fresh; [done|].
  rewrite increment_total_votes, increment_option_votes.
  by apply find_vote_None.
Qed.

(** X1. A first vote: on an active poll, for an option of that poll, by a
    session without a row, the vote is recorded.  The option's counter and
    the poll's total both go up by one, one row is appended, and no other
    option or poll is touched. *)
Theorem first_vote_counts_once (st : DB) (poll : str) (p : Poll)
    (option_id : Z) (o : PollOption) (session_id : str) (now : Z) :
  polls st !! poll = Some p →
  is_active p now = true →
  find_option st option_id poll = Some o →
  find_vote st poll (voter_hash session_id poll) = None →
  ∃ d st',
    vote sha256_hexdigest st poll option_id session_id now
    = Some (Ok (VoteRecorded d), st')
    ∧ votes st'
      = votes st ++ [mkVote poll (voter_hash session_id poll) option_id now]
    ∧ count_of st' option_id = Some (vote_count o + 1)
    ∧ (∀ k, k ≠ option_id → poll_options st' !! k = poll_options st !! k)
    ∧ polls st' !! poll = Some (set_total_votes p (total_votes p + 1))
    ∧ (∀ q, q ≠ poll → polls st' !! q = polls st !! q)
    ∧ data_total_votes d = total_votes p + 1
    ∧ voted_option_id d = option_id.
Proof.
  intros Hp Ha Ho Hv. eexists _, _.
  split; [by eapply vote_recorded_step|].
  apply find_option_Some in Ho as [Ho _].
  split; [apply recorded_votes|].
  split. { unfold count_of. rewrite recorded_lookup, Ho. simpl.
           by rewrite decide_True. }
  split. { intros k Hk. rewrite recorded_lookup.
           destruct (poll_options st !! k); simpl; [|done].
           by rewrite decide_False. }
  split. { rewrite recorded_polls, decide_True by done. by rewrite Hp. }
  split. { intros q Hq. by rewrite recorded_polls, decide_False. }
  split; [|done].
  unfold vote_data. cbn [data_total_votes].
  rewrite recorded_polls, decide_True by done. by rewrite Hp.
Qed.

(** X2. An option that does not exist, or that belongs to another poll, is
    refused with [Invalid option] and the store stays as it was. *)
Theorem foreign_option_rejected (st : DB) (poll : str) (p : Poll)
    (option_id : Z) (session_id : str) (now : Z) :
  polls st !! poll = Some p →
  is_active p now = true →
  (∀ o, poll_options st !! option_id = Some o → opt_poll_id o ≠ poll) →
  vote sha256_hexdigest st poll option_id session_id now
  = Some (Ok InvalidOption, st).
Proof.
  intros Hp Ha Hforeign. unfold vote. rewrite Hp. simpl. rewrite Ha. simpl.
  destruct (find_option st option_id poll) as [o|] eqn:Ho; [|done].
  apply find_option_Some in Ho as [Ho Hown]. by destruct (Hforeign o Ho).
Qed.

Lemma vote_found_after (st st' : DB) (poll : str) (option_id : Z)
    (session_id : str) (now : Z) (message : str) (d : option VoteData) :
  vote sha256_hexdigest st poll option_id session_id now
  = Some (Ok (true, message, d), st') →
  voted_option_id_of sha256_hexdigest st' poll session_id = Some option_id.
Proof.
  intros Hvote. apply vote_cases in Hvote. unfold voted_option_id_of, find_vote.
  inversion Hvote as [| | |p o i v Hp Ho Hv|p o Hp Ho Hv]; subst.
  - rewrite changed_votes.
    pose proof Hv as (Hi & [Hvp Hvh] & Hleast)%list_find_Some.
    rewrite (proj2 (list_find_insert_Some _ _ i i
               (set_vote_option_id v option_id)
               (set_vote_option_id v option_id))); [done|].
    right; left. split; [done|]. split; [done|].
    split; [by eapply lookup_lt_Some|]. split; [done|].
    intros j z Hj Hlt. by eapply Hleast.
  - rewrite recorded_votes. unfold find_vote in Hv.
    rewrite list_find_app_r by done. simpl. by rewrite decide_True.
Qed.

(** X3. What was voted is what the pages show: after any accepted vote,
    first or changed, the lookup of [view_poll] and [poll_results] for the
    same session and poll finds a row, and its option is the one just
    voted for. *)
Theorem accepted_vote_is_shown (st st' : DB) (poll : str) (option_id : Z)
    (session_id : str) (now : Z) (message : str) (d : option VoteData) :
  vote sha256_hexdigest st poll option_id session_id now
  = Some (Ok (true, message, d), st') →
  voted_option_id_of sha256_hexdigest st' poll session_id = Some option_id
  ∧ has_voted sha256_hexdigest st' poll session_id = true.
Proof.
  intros Hshown%vote_found_after.
  split; [done|]. unfold has_voted. rewrite Hshown.
  by apply bool_decide_eq_true.
Qed.

Lemma is_active_set_total_votes (p : Poll) (n now : Z) :
  is_active (set_total_votes p n) now = is_active p now.
Proof. done. Qed.

Lemma find_option_recorded (st : DB) (poll q h : str) (option_id now k : Z)
    (o : PollOption) :
  find_option st k q = Some o →
  ∃ o', find_option (recorded st poll h option_id now) k q = Some o'.
Proof.
  intros [Hk Hown]%find_option_Some. unfold find_option.
  rewrite recorded_lookup, Hk. simpl.
  destruct (decide (option_id = k)); simpl; rewrite decide_True by done; eauto.
Qed.

(** X4. One session, two votes.  After a session's first vote on a poll is
    recorded, its next vote for a valid option, while the poll is active,
    is rejected with [AlreadyVoted] and changes nothing when the poll
    forbids changes; when the poll allows them it is a change: total and
    number of rows stay, and the pages show the new option. *)
Theorem second_vote_changes_or_is_rejected (st st1 : DB) (poll : str)
    (p : Poll) (o1 o2 : Z) (o : PollOption) (session_id : str) (now1 now2 : Z)
    (d1 : VoteData) :
  polls st !! poll = Some p →
  vote sha256_hexdigest st poll o1 session_id now1
  = Some (Ok (VoteRecorded d1), st1) →
  is_active p now2 = true →
  find_option st o2 poll = Some o →
  (allow_vote_change p = false →
     vote sha256_hexdigest st1 poll o2 session_id now2
     = Some (Ok AlreadyVoted, st1))
  ∧ (allow_vote_change p = true →
       ∃ d2 st2,
         vote sha256_hexdigest st1 poll o2 session_id now2
         = Some (Ok (VoteChanged d2), st2)
         ∧ polls st2 = polls st1
         ∧ length (votes st2) = length (votes st1)
         ∧ voted_option_id_of sha256_hexdigest st2 poll session_id = Some o2).
Proof.
  intros Hp Hvote1 Ha2 Ho2.
  pose proof (vote_found_after _ _ _ _ _ _ _ _ Hvote1) as Hshown.
  unfold voted_option_id_of in Hshown.
  destruct (find_vote st1 poll (voter_hash session_id poll))
    as [[i v]|] eqn:Hfind; [|done].
  apply vote_cases in Hvote1.
  inversion Hvote1 as [| | | |p' o' Hp' Ho' Hv']; subst.
  assert (Hp1 : polls (recorded st poll (voter_hash session_id poll) o1 now1)
                  !! poll = Some (set_total_votes p (total_votes p + 1))).
  { rewrite recorded_polls, decide_True by done. by rewrite Hp. }
  destruct (find_option_recorded st poll poll (voter_hash session_id poll)
              o1 now1 o2 o Ho2) as [o2' Ho2'].
  split.
  - intros Hforbid. unfold vote. rewrite Hp1. simpl.
    rewrite is_active_set_total_votes, Ha2, Ho2', Hfind. simpl.
    by rewrite Hforbid.
  - intros Hallow. eexists _, _. split.
    { by eapply vote_change_step. }
    split; [apply changed_polls|].
    split; [by rewrite changed_votes, length_insert|].
    eapply vote_found_after. by eapply vote_change_step.
Qed.

(** *** Sessions do not interfere *)

Lemma append_cancel_r (s1 s2 t : str) : s1 +:+ t = s2 +:+ t → s1 = s2.
Proof.
  intros H%(f_equal list_ascii_of_string).
  rewrite !list_ascii_of_string_app in H. apply app_inv_tail in H.
  by apply encode_inj.
Qed.

Lemma voter_hash_inj (s1 s2 poll : str) :
  collision_free sha256_hexdigest →
  voter_hash s1 poll = voter_hash s2 poll → s1 = s2.
Proof.
  intros Hfree H. unfold hash_voter_token, generate_voter_token in H.
  apply Hfree, encode_inj, Hfree, encode_inj in H.
  by apply append_cancel_r in H.
Qed.

Lemma list_find_insert_other {A} (P : A → Prop) `{!∀ x, Decision (P x)}
    (l : list A) (i : nat) (x y : A) :
  l !! i = Some x → ¬ P x → ¬ P y →
  list_find P (<[i := y]> l) = list_find P l.
Proof.
  revert i. induction l as [|z l IH]; intros [|i] Hi Hx Hy; try done.
  - injection Hi as ->. simpl. by rewrite !decide_False.
  - simpl in Hi. simpl. by rewrite (IH i Hi Hx Hy).
Qed.

(** X5. A vote touches one voter's row only: whatever poll and session a
    vote comes from, the option that the pages show for another poll, or
    for another session of the same poll when the digest has no
    collisions, is the same before and after. *)
Theorem vote_leaves_other_voters_alone (st st' : DB) (poll other_poll : str)
    (option_id : Z) (session_id other_session : str) (now : Z)
    (r : result VoteReturn) :
  vote sha256_hexdigest st poll option_id session_id now = Some (r, st') →
  poll ≠ other_poll
  ∨ (collision_free sha256_hexdigest ∧ session_id ≠ other_session) →
  voted_option_id_of sha256_hexdigest st' other_poll other_session
  = voted_option_id_of sha256_hexdigest st other_poll other_session.
Proof.
  intros Hvote Hother.
  assert (Hkey : ∀ v, vote_key v = (poll, voter_hash session_id poll) →
            ¬ (vote_poll_id v = other_poll
               ∧ voter_token_hash v = voter_hash other_session other_poll)).
  { intros v Hv [H1 H2]. unfold vote_key in Hv. injection Hv as Hv1 Hv2.
    destruct Hother as [Hne|[Hfree Hne]]; [congruence|].
    destruct (decide (poll = other_poll)) as [->|]; [|congruence].
    apply Hne, (voter_hash_inj _ _ other_poll Hfree). congruence. }
  apply vote_cases in Hvote. unfold voted_option_id_of, find_vote.
  inversion Hvote as [| | |p o i v Hp Ho Hv|p o Hp Ho Hv]; subst; try done.
  - apply find_vote_Some in Hv as [Hi Hk]. rewrite changed_votes.
    rewrite (list_find_insert_other _ (votes st) i v
               (set_vote_option_id v option_id) Hi); [done|by apply Hkey..].
  - rewrite recorded_votes.
    destruct (list_find _ (votes st)) as [[j w]|] eqn:Hfind.
    + by rewrite (list_find_app_l _ _ _ _ _ Hfind).
    + rewrite list_find_app_r by done. simpl.
      rewrite decide_False; [done|].
      by apply (Hkey (mkVote poll (voter_hash session_id poll) option_id now)).
Qed.

(** X6. Counters never go negative: from a store whose option counters and
    poll totals are all at least zero, every sequence of votes leads to
    such a store. *)
Theorem counters_stay_nonnegative (st0 : DB) (rqs : list Request) :
  counters_nonneg st0 → counters_nonneg (run sha256_hexdigest st0 rqs).
Proof.
  unfold run. revert st0. induction rqs as [|rq rqs IH]; intros st0 Hst0; [done|].
  simpl. apply IH. unfold step.
  destruct (cast_vote sha256_hexdigest st0 (req_poll rq) (req_option rq)
              (req_session rq) (req_now rq)) as [r st'] eqn:Hc.
  apply cast_vote_cases in Hc as [[_ ->]|(r' & _ & Hcase)]; [done|]. simpl.
  destruct Hst0 as [Hopt Hpoll].
  inversion Hcase as [| | |p o i v Hp Ho Hv|p o Hp Ho Hv]; subst;
    try (by split).
  - split.
    + intros k ok. rewrite changed_lookup.
      destruct (poll_options st0 !! k) as [ok'|] eqn:Hk; [|done].
      simpl. intros [= <-]. specialize (Hopt k ok' Hk).
      repeat case_decide; simpl; lia.
    + intros q pq. rewrite changed_polls. apply Hpoll.
  - split.
    + intros k ok. rewrite recorded_lookup.
      destruct (poll_options st0 !! k) as [ok'|] eqn:Hk; [|done].
      simpl. intros [= <-]. specialize (Hopt k ok' Hk).
      case_decide; simpl; lia.
    + intros q pq. rewrite recorded_polls.
      case_decide; [|apply Hpoll].
      destruct (polls st0 !! q) as [pq'|] eqn:Hq; [|done].
      simpl. intros [= <-]. specialize (Hpoll q pq' Hq). simpl. lia.
Qed.

(** *** The results of a poll *)

#[local] Instance by_display_order_total : Total by_display_order.
Proof. intros a b. unfold by_display_order. lia. Qed.

#[local] Instance by_display_order_trans : Transitive by_display_order.
Proof. intros a b c. unfold by_display_order. lia. Qed.

Lemma options_of_elem (st : DB) (poll : str) (k : Z) (o : PollOption) :
  (k, o) ∈ options_of st poll ↔
  poll_options st !! k = Some o ∧ opt_poll_id o = poll.
Proof.
  unfold options_of. rewrite merge_sort_Permutation, list_elem_of_filter.
  rewrite elem_of_map_to_list. simpl. tauto.
Qed.

Lemma options_of_NoDup (st : DB) (poll : str) :
  NoDup ((options_of st poll).*1).
Proof.
  unfold options_of. rewrite merge_sort_Permutation.
  eapply sublist_NoDup; [apply (NoDup_fst_map_to_list (poll_options st))|].
  apply fmap_sublist, sublist_filter.
Qed.

Lemma options_of_sorted (st : DB) (poll : str) :
  StronglySorted by_display_order (options_of st poll).
Proof. apply StronglySorted_merge_sort; apply _. Qed.

(** X7. What a successful vote returns: the option voted for, the poll's
    stored total, and as results exactly the options of the poll in the
    store after the vote, each once, with their current counters, in
    ascending display order. *)
Theorem returned_results_are_the_poll_options (st st' : DB) (poll : str)
    (option_id : Z) (session_id : str) (now : Z) (message : str)
    (data : option VoteData) :
  vote sha256_hexdigest st poll option_id session_id now
  = Some (Ok (true, message, data), st') →
  ∃ d, data = Some d
    ∧ voted_option_id d = option_id
    ∧ total_votes <$> polls st' !! poll = Some (data_total_votes d)
    ∧ StronglySorted Z.le (d_display_order <$> results d)
    ∧ NoDup (d_id <$> results d)
    ∧ ∀ e, e ∈ results d ↔
           ∃ o, poll_options st' !! d_id e = Some o ∧ opt_poll_id o = poll
                ∧ e = mkOptionDict (d_id e) (option_text o) (vote_count o)
                        (display_order o).
Proof.
  intros Hvote. apply vote_cases in Hvote.
  assert (Hwith : ∀ p, polls st' !! poll = Some p →
    data = Some (vote_data st' poll option_id) →
    ∃ d, data = Some d
      ∧ voted_option_id d = option_id
      ∧ total_votes <$> polls st' !! poll = Some (data_total_votes d)
      ∧ StronglySorted Z.le (d_display_order <$> results d)
      ∧ NoDup (d_id <$> results d)
      ∧ ∀ e, e ∈ results d ↔
             ∃ o, poll_options st' !! d_id e = Some o ∧ opt_poll_id o = poll
                  ∧ e = mkOptionDict (d_id e) (option_text o) (vote_count o)
                          (display_order o)).
  { intros p Hp ->. eexists. split; [done|]. split; [done|].
    unfold vote_data. cbn [data_total_votes results].
    split; [by rewrite Hp|]. split.
    { rewrite <- list_fmap_compose.
      eapply StronglySorted_fmap; [|apply options_of_sorted].
      by intros a b. }
    split.
    { rewrite <- list_fmap_compose.
      apply (options_of_NoDup st' poll). }
    intros e. rewrite list_elem_of_fmap. split.
    - intros ([k o] & -> & [Hk Hown]%options_of_elem). by exists o.
    - intros (o & Hk & Hown & He). exists (d_id e, o).
      split; [by rewrite He|]. by apply options_of_elem. }
  inversion Hvote as [| | |p o i v Hp Ho Hv|p o Hp Ho Hv]; subst.
  - apply (Hwith p); [|done]. by rewrite changed_polls.
  - apply (Hwith (set_total_votes p (total_votes p + 1))); [|done].
    rewrite recorded_polls, decide_True by done. by rewrite Hp.
Qed.

End VotingFurther.

(** * Further properties of the encryption engine and of the keys *)

Section KeysFurther.

Context (pbkdf2_hmac_sha256 : N → bytes → N → bytes → bytes).
Context (aesgcm_encrypt : bytes → bytes → bytes → bytes).
Context (aesgcm_decrypt : bytes → bytes → bytes → option bytes).

Hypothesis aesgcm_correct : ∀ key nonce data,
  length nonce = NONCE_SIZE →
  aesgcm_decrypt key nonce (aesgcm_encrypt key nonce data) = Some data.

Local Abbreviation init := (AES256Encryption_init pbkdf2_hmac_sha256).
Local Abbreviation enc_field := (encrypt_field pbkdf2_hmac_sha256 aesgcm_encrypt).
Local Abbreviation dec_field := (decrypt_field pbkdf2_hmac_sha256 aesgcm_decrypt).
Local Abbreviation question_of := (get_question pbkdf2_hmac_sha256 aesgcm_decrypt).
Local Abbreviation set_question_of :=
  (set_question pbkdf2_hmac_sha256 aesgcm_encrypt).
Local Abbreviation engine_of := (get_encryption pbkdf2_hmac_sha256).

Lemma init_with_environ_salt (environ_salt : option str) (secret_key : str) :
  truthy environ_salt = true →
  init environ_salt secret_key None
  = Ok (mkAES256Encryption (encode (default "" environ_salt))
          (_derive_key pbkdf2_hmac_sha256 (encode (default "" environ_salt))
             secret_key)).
Proof. by destruct environ_salt as [[|c s]|]. Qed.

Lemma init_without_salt (environ_salt : option str) (secret_key : str)
    (salt : option bytes) :
  truthy environ_salt = false → salt = None ∨ salt = Some [] →
  init environ_salt secret_key salt
  = Raise (ValueError
             "POLLIVU_SALT environment variable is required for encryption").
Proof. intros He [->| ->]; by destruct environ_salt as [[|c s]|]. Qed.

Lemma init_total_with_environ_salt (environ_salt : option str)
    (secret_key : str) (salt : option bytes) :
  truthy environ_salt = true → ∃ e, init environ_salt secret_key salt = Ok e.
Proof.
  intros He. destruct environ_salt as [[|c s]|]; try done.
  destruct salt as [[|b l]|]; by eexists.
Qed.

Lemma encrypt_then_decrypt (self : AES256Encryption) (nonce : bytes) (x : str) :
  is_str x → length nonce = NONCE_SIZE → x ≠ "" →
  ∃ blob, encrypt aesgcm_encrypt self nonce x = Ok blob ∧ blob ≠ ""
          ∧ decrypt aesgcm_decrypt self blob = Ok x.
Proof.
  intros Hx Hn Hne.
  assert (Hblob : string_of_list_ascii
            (urlsafe_b64encode
               (nonce ++ aesgcm_encrypt (_key self) nonce (encode x))) ≠ "").
  { apply urlsafe_b64encode_nonempty. destruct nonce; [done|discriminate]. }
  eexists. split; [by apply encrypt_blob|]. split; [done|].
  apply (decrypt_of_decoded aesgcm_encrypt aesgcm_decrypt aesgcm_correct
           self nonce); [done|done|done|].
  by rewrite encode_string_of_list_ascii, urlsafe_b64decode_encode.
Qed.

Lemma encrypted_field_of (environ_salt : option str) (nonce : bytes)
    (value secret_key : str) :
  is_str value → length nonce = NONCE_SIZE → truthy environ_salt = true →
  ∃ c, enc_field environ_salt nonce value secret_key = Ok c
       ∧ dec_field environ_salt c secret_key = Ok value.
Proof.
  intros Hv Hn He. unfold encrypt_field, decrypt_field, decrypt_field_body.
  rewrite (init_with_environ_salt _ _ He).
  destruct (decide (value = "")) as [->|Hne].
  { exists "". by rewrite decide_True. }
  destruct (encrypt_then_decrypt
              (mkAES256Encryption (encode (default "" environ_salt))
                 (_derive_key pbkdf2_hmac_sha256
                    (encode (default "" environ_salt)) secret_key))
              nonce value Hv Hn Hne) as (c & Hc & Hc0 & Hd).
  exists c. split; [done|]. rewrite Hd. by rewrite decide_False.
Qed.

(** X8. The startup check and the engine agree on the salt.
    [validate_config] lets the process continue exactly when [SECRET_KEY]
    and [POLLIVU_SALT] are both set and non-empty, and otherwise exits
    with status 1.  Once it has let the process continue, building an
    engine never fails, with or without an explicit salt; without
    [POLLIVU_SALT] and without an explicit salt it raises [ValueError]. *)
Theorem startup_check_guards_the_engine (environ : gmap string str) :
  (validate_config environ = Continues ↔
     truthy (environ !! "SECRET_KEY") = true
     ∧ truthy (environ !! "POLLIVU_SALT") = true)
  ∧ (validate_config environ ≠ Continues →
       ∃ error_msg, validate_config environ = Exits 1 error_msg)
  ∧ (validate_config environ = Continues →
       ∀ secret_key salt,
         ∃ e, init (environ !! "POLLIVU_SALT") secret_key salt = Ok e)
  ∧ (truthy (environ !! "POLLIVU_SALT") = false →
       ∀ secret_key,
         init (environ !! "POLLIVU_SALT") secret_key None
         = Raise (ValueError
                    "POLLIVU_SALT environment variable is required for encryption")).
Proof.
  assert (Hiff : validate_config environ = Continues ↔
            truthy (environ !! "SECRET_KEY") = true
            ∧ truthy (environ !! "POLLIVU_SALT") = true).
  { unfold validate_config, REQUIRED_VARS. rewrite !filter_cons, filter_nil.
    destruct (truthy (environ !! "SECRET_KEY")),
             (truthy (environ !! "POLLIVU_SALT")); simpl;
      repeat case_decide; try done; split; try done; by intros []. }
  split; [done|]. split; [|split].
  - unfold validate_config. destruct (filter _ _); [done|]. intros _. by eexists.
  - intros [_ Hsalt]%Hiff secret_key salt.
    by apply init_total_with_environ_salt.
  - intros Hsalt secret_key. apply init_without_salt; auto.
Qed.

(** X9. Encrypted fields.  With [POLLIVU_SALT] set, what [encrypt_field]
    returns for a text [decrypt_field] turns back into that text under the
    same secret key, the empty text included.  Without the salt the two
    differ: [encrypt_field] raises [ValueError] for a non-empty text, while
    [decrypt_field] returns the empty string for every input. *)
Theorem encrypted_field_roundtrip (environ_salt : option str) (nonce : bytes)
    (value secret_key : str) :
  is_str value → length nonce = NONCE_SIZE →
  (truthy environ_salt = true →
     ∃ c, enc_field environ_salt nonce value secret_key = Ok c
          ∧ dec_field environ_salt c secret_key = Ok value)
  ∧ (truthy environ_salt = false →
       (value ≠ "" →
          enc_field environ_salt nonce value secret_key
          = Raise (ValueError
                     "POLLIVU_SALT environment variable is required for encryption"))
       ∧ ∀ c, dec_field environ_salt c secret_key = Ok "").
Proof.
  intros Hv Hn. split.
  - intros He. by apply encrypted_field_of.
  - intros He. split.
    + intros Hne. unfold encrypt_field. rewrite decide_False by done.
      by rewrite init_without_salt by auto.
    + intros c. unfold decrypt_field, decrypt_field_body.
      rewrite init_without_salt by auto. by case_decide.
Qed.


Lemma get_question_plain (environ_salt : option str) (self : Poll)
    (secret_key : option str) :
  is_encrypted self && truthy (question_encrypted self) && truthy secret_key
  = false →
  question_of environ_salt self secret_key = Ok (question self).
Proof. unfold get_question. by intros ->. Qed.

(** X10. Setting and reading the question.  With [POLLIVU_SALT] set and a
    non-empty secret key, [set_question] with [encrypt=True] succeeds, and
    on the poll it leaves [get_question] returns the question that was set,
    with the key (through the encrypted column) and without it (from the
    plain column, which always holds the question); a non-empty question
    marks the poll as encrypted. *)
Theorem question_set_then_get (environ_salt : option str) (nonce : bytes)
    (self : Poll) (q secret_key : str) :
  truthy environ_salt = true → is_str q → length nonce = NONCE_SIZE →
  secret_key ≠ "" →
  ∃ self', set_question_of environ_salt nonce self q (Some secret_key) true
           = Ok self'
           ∧ question_of environ_salt self' (Some secret_key) = Ok q
           ∧ question_of environ_salt self' None = Ok q
           ∧ question self' = q
           ∧ is_encrypted self' = true.
Proof.
  intros He Hq Hn Hk.
  assert (Hkey : truthy (Some secret_key) = true) by by destruct secret_key.
  destruct (encrypted_field_of environ_salt nonce q secret_key Hq Hn He)
    as (c & Hc & Hd).
  unfold set_question. rewrite Hkey. simpl. rewrite Hc.
  eexists. split; [done|]. split; [|split; [|done]].
  - unfold get_question. simpl.
    destruct c as [|a c].
    + simpl. unfold decrypt_field in Hd. rewrite decide_True in Hd by done.
      congruence.
    + destruct secret_key; [done|]. simpl. by rewrite Hd.
  - apply get_question_plain. simpl. apply andb_false_r.
Qed.

(** X11. A later plain update leaves the old ciphertext in place.
    [set_question] without encryption assigns only the plain column: on a
    poll whose question was set encrypted, it leaves [is_encrypted] and the
    encrypted column as they were, so that afterwards [get_question] with
    the key still returns the earlier question, while [get_question]
    without a key returns the new one. *)
Theorem plain_update_keeps_encrypted_question (environ_salt : option str)
    (nonce : bytes) (self self1 : Poll) (q1 q2 secret_key : str)
    (later_key : option str) :
  truthy environ_salt = true → is_str q1 → length nonce = NONCE_SIZE →
  secret_key ≠ "" → q1 ≠ "" →
  set_question_of environ_salt nonce self q1 (Some secret_key) true = Ok self1 →
  ∃ self2, set_question_of environ_salt nonce self1 q2 later_key false
           = Ok self2
           ∧ question self2 = q2
           ∧ question_encrypted self2 = question_encrypted self1
           ∧ question_of environ_salt self2 None = Ok q2
           ∧ question_of environ_salt self2 (Some secret_key) = Ok q1.
Proof.
  intros He Hq Hn Hk Hq1 Hset.
  assert (Hkey : truthy (Some secret_key) = true) by by destruct secret_key.
  destruct (encrypted_field_of environ_salt nonce q1 secret_key Hq Hn He)
    as (c & Hc & Hd).
  unfold set_question in Hset. rewrite Hkey in Hset. simpl in Hset.
  rewrite Hc in Hset. injection Hset as <-.
  unfold set_question. simpl. eexists. split; [done|]. simpl.
  split; [done|]. split; [done|]. split.
  - apply get_question_plain. simpl. apply andb_false_r.
  - unfold get_question. simpl.
    destruct c as [|a c].
    + unfold encrypt_field in Hc. rewrite decide_False in Hc by done.
      rewrite (init_with_environ_salt _ _ He) in Hc.
      destruct (encrypt_then_decrypt
                  (mkAES256Encryption (encode (default "" environ_salt))
                     (_derive_key pbkdf2_hmac_sha256
                        (encode (default "" environ_salt)) secret_key))
                  nonce q1 Hq Hn Hq1) as (b & Hb & Hb0 & _).
      congruence.
    + destruct secret_key; [done|]. simpl. by rewrite Hd.
Qed.

(** X12. The engine cache.  [get_encryption] derives an engine for a secret
    key once: a call that succeeds leaves the engine in the dictionary under
    that key and touches no other entry, every later call for that key
    returns the same engine whatever [POLLIVU_SALT] has become, and a call
    that raises leaves the dictionary as it was. *)
Theorem cached_engine_is_reused (environ_salt : option str)
    (instances instances' : gmap string AES256Encryption) (secret_key : str)
    (r : result AES256Encryption) :
  engine_of environ_salt instances secret_key = (r, instances') →
  match r with
  | Ok e =>
      instances' !! secret_key = Some e
      ∧ (∀ k, k ≠ secret_key → instances' !! k = instances !! k)
      ∧ ∀ environ_salt',
          engine_of environ_salt' instances' secret_key = (Ok e, instances')
  | Raise _ => instances' = instances ∧ instances !! secret_key = None
  end.
Proof.
  unfold get_encryption.
  destruct (instances !! secret_key) as [e|] eqn:Hl.
  - intros [= <- <-]. rewrite Hl. by repeat split.
  - destruct (init environ_salt secret_key None) as [e|x]; intros [= <- <-].
    + rewrite lookup_insert_eq. split; [done|]. split; [|done].
      intros k Hk. by rewrite lookup_insert_ne.
    + done.
Qed.

(** X13. Round trip through the cached engine.  What [encrypt_data]
    returns for a text, [decrypt_data] with the same secret key and the
    dictionary [encrypt_data] left turns back into that text, also when
    [POLLIVU_SALT] has changed or is gone in the meantime. *)
Theorem cached_data_roundtrip (environ_salt environ_salt' : option str)
    (instances instances' : gmap string AES256Encryption) (nonce : bytes)
    (data secret_key blob : str) :
  is_str data → length nonce = NONCE_SIZE →
  encrypt_data pbkdf2_hmac_sha256 aesgcm_encrypt environ_salt instances nonce
    data secret_key = (Ok blob, instances') →
  decrypt_data pbkdf2_hmac_sha256 aesgcm_decrypt environ_salt' instances'
    blob secret_key = (Ok data, instances').
Proof.
  intros Hd Hn. unfold encrypt_data, decrypt_data.
  destruct (engine_of environ_salt instances secret_key) as [[e|x] i] eqn:Hg;
    [|done].
  intros [= Henc <-].
  assert (Hhit : engine_of environ_salt' i secret_key = (Ok e, i)).
  { unfold get_encryption in Hg |- *.
    destruct (instances !! secret_key) as [e0|] eqn:Hl.
    - injection Hg as <- <-. by rewrite Hl.
    - destruct (init environ_salt secret_key None); [|done].
      injection Hg as <- <-. by rewrite lookup_insert_eq. }
  rewrite Hhit. f_equal.
  destruct (decide (data = "")) as [->|Hne].
  - unfold encrypt in Henc. rewrite decide_True in Henc by done.
    by injection Henc as <-.
  - destruct (encrypt_then_decrypt e nonce data Hd Hn Hne)
      as (b & Hb & _ & Hdec). congruence.
Qed.

End KeysFurther.

(** * Generated identifiers and creator rights *)

Section Identifiers.

Lemma poll_id_char_digit (d : sextet) :
  poll_id_char (urlsafe_encode_char (table_b2a d)) = true.
Proof. destruct d as [[] [] [] [] [] []]; reflexivity. Qed.

Lemma poll_id_char_not_pad (c : ascii) : poll_id_char c = true → c ≠ pad.
Proof. intros H ->. vm_compute in H. discriminate. Qed.

Lemma poll_id_char_ascii (c : ascii) :
  poll_id_char c = true → byte_in 0x00 0x7F c = true.
Proof.
  destruct c as [[] [] [] [] [] [] [] []]; vm_compute; congruence.
Qed.

Lemma rstrip_digits (l : bytes) (k : nat) :
  Forall (λ c, poll_id_char c = true) l →
  rstrip pad (l ++ replicate k pad) = l.
Proof.
  induction 1 as [|c l Hc Hl IH]; cbn [app rstrip].
  - induction k as [|k IHk]; [done|]. cbn [replicate rstrip]. rewrite IHk.
    by destruct (decide (pad = pad)).
  - rewrite IH. destruct l; [|done].
    destruct (decide (c = pad)) as [Heq|]; [|done].
    by apply poll_id_char_not_pad in Hc.
Qed.

(** The output of [urlsafe_b64encode]: digits of the URL-safe alphabet, at
    least as many as there are bytes, and then padding. *)
Lemma urlsafe_b64encode_digits (bs : bytes) :
  ∃ digits k,
    urlsafe_b64encode bs = digits ++ replicate k pad
    ∧ Forall (λ c, poll_id_char c = true) digits
    ∧ (length bs ≤ length digits)%nat
    ∧ (bs ≠ [] → digits ≠ []).
Proof.
  unfold urlsafe_b64encode.
  induction bs as [|a|a b|a b c bs IH] using list_ind3.
  - exists [], 0%nat. by repeat split.
  - eexists [_; _], 2%nat. cbn [b2a_base64 fmap list_fmap].
    split; [reflexivity|]. split; [|split; [simpl; lia|done]].
    repeat constructor; apply poll_id_char_digit.
  - eexists [_; _; _], 1%nat. cbn [b2a_base64 fmap list_fmap].
    split; [reflexivity|]. split; [|split; [simpl; lia|done]].
    repeat constructor; apply poll_id_char_digit.
  - destruct IH as (digits & k & Heq & Hall & Hlen & _).
    eexists (_ :: _ :: _ :: _ :: digits), k.
    cbn [b2a_base64 fmap list_fmap]. rewrite Heq.
    split; [reflexivity|]. split; [|split; [simpl; lia|done]].
    repeat (constructor; [apply poll_id_char_digit|]). done.
Qed.

Lemma token_urlsafe_digits (tok : bytes) :
  ∃ digits,
    token_urlsafe tok = Ok (string_of_list_ascii digits)
    ∧ Forall (λ c, poll_id_char c = true) digits
    ∧ (length tok ≤ length digits)%nat
    ∧ (tok ≠ [] → digits ≠ []).
Proof.
  destruct (urlsafe_b64encode_digits tok) as (digits & k & Heq & Hall & Hlen & Hne).
  exists digits. split; [|done].
  unfold token_urlsafe, decode_ascii. rewrite Heq, rstrip_digits by done.
  replace (forallb (byte_in 0 127) digits) with true; [done|].
  symmetry. apply forallb_forall. intros c Hc.
  apply poll_id_char_ascii. rewrite Forall_forall in Hall.
  apply Hall. by apply list_elem_of_In.
Qed.

Lemma generate_poll_id_well_formed (n : nat) (tok : bytes) :
  length tok = n → (8 ≤ n ≤ 32)%nat →
  ∃ poll_id,
    generate_poll_id n tok = Ok poll_id
    ∧ length (list_ascii_of_string poll_id) = n
    ∧ well_formed_poll_id poll_id = true.
Proof.
  intros Htok Hn.
  destruct (token_urlsafe_digits tok) as (digits & Ht & Hall & Hlen & _).
  exists (str_take n (string_of_list_ascii digits)).
  unfold generate_poll_id. rewrite Ht. split; [done|].
  assert (Hl : list_ascii_of_string (str_take n (string_of_list_ascii digits))
               = take n digits).
  { unfold str_take. by rewrite !list_ascii_of_string_of_list_ascii. }
  assert (Hlen' : length (take n digits) = n) by (rewrite length_take; lia).
  split; [by rewrite Hl|].
  unfold well_formed_poll_id. rewrite Hl, Hlen'.
  apply andb_true_iff. split.
  - apply andb_true_iff. split; apply Nat.leb_le; lia.
  - apply forallb_forall. intros c Hc%list_elem_of_In.
    rewrite Forall_forall in Hall. apply Hall.
    by apply (subseteq_take n digits).
Qed.

Lemma length_list_ascii_of_string (s : str) :
  length (list_ascii_of_string s) = String.length s.
Proof. induction s; simpl; congruence. Qed.

(** X14. Generated poll identifiers pass the format check.  For a length
    between 8 and 32, as [create_poll] uses it with 16, [generate_poll_id]
    returns a text of exactly that many characters, all from
    [[A-Za-z0-9_-]], which [is_valid_poll_id] accepts and
    [validate_poll_id] returns unchanged, whatever the random bytes are. *)
Theorem generated_poll_id_is_valid (n : nat) (tok : bytes) :
  length tok = n → (8 ≤ n ≤ 32)%nat →
  ∃ poll_id,
    generate_poll_id n tok = Ok poll_id
    ∧ String.length poll_id = n
    ∧ well_formed_poll_id poll_id = true
    ∧ is_valid_poll_id poll_id = true
    ∧ validate_poll_id poll_id = Ok poll_id.
Proof.
  intros Htok Hn.
  destruct (generate_poll_id_well_formed n tok Htok Hn)
    as (poll_id & Hgen & Hlen & Hwf).
  exists poll_id. split; [done|].
  split; [by rewrite <- length_list_ascii_of_string|]. split; [done|].
  assert (Hvalid : is_valid_poll_id poll_id = true).
  { apply is_valid_poll_id_spec. by left. }
  split; [done|].
  unfold is_valid_poll_id in Hvalid. unfold validate_poll_id.
  case_decide; [done|]. by rewrite Hvalid.
Qed.

(** X15. Creator and session tokens are usable as issued.
    [generate_creator_token] and [generate_session_id] never raise, and
    from at least one random byte (the code asks for 32) the token is
    non-empty, made of characters from [[A-Za-z0-9_-]] only, and has at
    least one character per random byte. *)
Theorem generated_token_is_url_safe (tok : bytes) :
  tok ≠ [] →
  ∃ token,
    generate_creator_token tok = Ok token
    ∧ generate_session_id tok = Ok token
    ∧ token ≠ ""
    ∧ forallb poll_id_char (list_ascii_of_string token) = true
    ∧ (length tok ≤ String.length token)%nat.
Proof.
  intros Hne.
  destruct (token_urlsafe_digits tok) as (digits & Ht & Hall & Hlen & Hd).
  exists (string_of_list_ascii digits).
  unfold generate_creator_token, generate_session_id.
  split; [done|]. split; [done|]. split; [|split].
  - specialize (Hd Hne). by destruct digits.
  - rewrite list_ascii_of_string_of_list_ascii.
    apply forallb_forall. intros c Hc%list_elem_of_In.
    rewrite Forall_forall in Hall. by apply Hall.
  - replace (String.length (string_of_list_ascii digits)) with (length digits);
      [done|].
    clear. induction digits; simpl; congruence.
Qed.

Context (sha256_hexdigest : bytes → str).

(** X16. Creator rights follow the token.  [is_poll_creator] holds for a
    session that stores, under the poll's identifier, the non-empty token
    whose hash the poll carries; it fails for a session that stores no
    token for the poll or an empty one; and with a digest without
    collisions it holds only for the session that stores exactly the token
    whose hash the poll carries. *)
Theorem creator_rights_follow_the_token (creator_tokens : gmap string str)
    (poll_id token : str) (poll : Poll) :
  creator_token_hash poll = hash_creator_token sha256_hexdigest token →
  (creator_tokens !! poll_id = Some token → token ≠ "" →
     is_poll_creator sha256_hexdigest creator_tokens poll_id poll = true)
  ∧ (creator_tokens !! poll_id = None ∨ creator_tokens !! poll_id = Some "" →
       is_poll_creator sha256_hexdigest creator_tokens poll_id poll = false)
  ∧ (collision_free sha256_hexdigest →
       is_poll_creator sha256_hexdigest creator_tokens poll_id poll = true →
       creator_tokens !! poll_id = Some token).
Proof.
  intros Hhash. unfold is_poll_creator. split; [|split].
  - intros -> Hne. destruct token; [done|].
    by apply bool_decide_eq_true.
  - by intros [-> | ->].
  - intros Hfree. destruct (creator_tokens !! poll_id) as [[|c t]|]; [done| |done].
    intros Heq%bool_decide_eq_true. rewrite Hhash in Heq.
    unfold hash_creator_token in Heq. apply Hfree, encode_inj in Heq.
    by rewrite Heq.
Qed.

End Identifiers.

(** * Closing, reopening, and the answers of the voting route *)

Section Closing.

Context (sha256_hexdigest : bytes → str).

Local Abbreviation voter_hash session_id poll :=
  (hash_voter_token sha256_hexdigest
     (generate_voter_token sha256_hexdigest session_id poll)).

Lemma close_poll_lookup (st : DB) (poll q : str) :
  polls (close_poll st poll) !! q
  = if decide (poll = q) then (λ p, set_is_closed p true) <$> polls st !! q
    else polls st !! q.
Proof. unfold close_poll. simpl. rewrite lookup_alter. by case_decide; subst. Qed.

Lemma reopen_poll_lookup (st : DB) (poll q : str) :
  polls (reopen_poll st poll) !! q
  = if decide (poll = q) then (λ p, set_is_closed p false) <$> polls st !! q
    else polls st !! q.
Proof. unfold reopen_poll. simpl. rewrite lookup_alter. by case_decide; subst. Qed.

Lemma vote_outcome (st : DB) (poll : str) (p : Poll) (option_id : Z)
    (session_id : str) (now : Z) :
  polls st !! poll = Some p →
  vote sha256_hexdigest st poll option_id session_id now
  = Some
      (if is_active p now then
         match find_option st option_id poll with
         | None => (Ok InvalidOption, st)
         | Some _ =>
             match find_vote st poll (voter_hash session_id poll) with
             | Some (i, v) =>
                 if allow_vote_change p
                 then (Ok (VoteChanged
                             (vote_data (changed st i v option_id) poll
                                option_id)),
                       changed st i v option_id)
                 else (Ok AlreadyVoted, st)
             | None =>
                 (Ok (VoteRecorded
                        (vote_data
                           (recorded st poll (voter_hash session_id poll)
                              option_id now)
                           poll option_id)),
                  recorded st poll (voter_hash session_id poll) option_id now)
             end
         end
       else (Ok PollInactive, st)).
Proof.
  intros Hp. unfold vote. rewrite Hp. simpl. f_equal.
  destruct (is_active p now); simpl; [|done].
  destruct (find_option st option_id poll) as [o|]; [|done].
  destruct (find_vote st poll (voter_hash session_id poll)) as [[i v]|] eqn:Hv;
    [done|].
  rewrite insert_vote_fresh; [done|].
  rewrite increment_total_votes, increment_option_votes.
  by apply find_vote_None.
Qed.

Lemma vote_route_served (st : DB) (poll_id : str) (p : Poll) (option_id : Z)
    (session_id : str) (now : Z) (r : result VoteReturn) (st' : DB) :
  is_valid_poll_id poll_id = true → polls st !! poll_id = Some p →
  option_id ≠ 0 →
  vote sha256_hexdigest st poll_id option_id session_id now = Some (r, st') →
  vote_route sha256_hexdigest st poll_id (Some option_id) session_id now
  = (Served r, st').
Proof.
  intros Hvalid Hp Hk Hv. unfold vote_route, cast_vote, get_poll.
  rewrite Hvalid, Hp. simpl. rewrite decide_False by done. by rewrite Hv.
Qed.

Lemma vote_route_no_option (st : DB) (poll_id : str) (p : Poll)
    (option_id : option Z) (session_id : str) (now : Z) :
  is_valid_poll_id poll_id = true → polls st !! poll_id = Some p →
  option_id = None ∨ option_id = Some 0 →
  vote_route sha256_hexdigest st poll_id option_id session_id now
  = (BadRequest "No option selected", st).
Proof.
  intros Hvalid Hp Hk. unfold vote_route, get_poll. rewrite Hvalid, Hp. simpl.
  by destruct Hk as [-> | ->].
Qed.

(** The answers that the voting route can give. *)
Lemma vote_route_answers (st st' : DB) (poll_id : str) (option_id : option Z)
    (session_id : str) (now : Z) (r : Response) :
  vote_route sha256_hexdigest st poll_id option_id session_id now = (r, st') →
  (∃ d, r = Served (Ok (VoteChanged d)) ∨ r = Served (Ok (VoteRecorded d)))
  ∨ (st' = st
     ∧ (r = Served (Ok PollInactive) ∨ r = Served (Ok AlreadyVoted)
        ∨ r = BadRequest "Invalid poll ID"
        ∨ r = BadRequest "No option selected"
        ∨ r = Served (Ok InvalidOption)
        ∨ r = NotFound)).
Proof.
  unfold vote_route.
  destruct (negb (is_valid_poll_id poll_id)).
  { intros [= <- <-]. right. split; [done|]. auto. }
  destruct (get_poll st poll_id) as [p|] eqn:Hp.
  2: { intros [= <- <-]. right. split; [done|]. auto 7. }
  destruct option_id as [option_id|].
  2: { intros [= <- <-]. right. split; [done|]. auto 7. }
  destruct (decide (option_id = 0)).
  { intros [= <- <-]. right. split; [done|]. auto 7. }
  intros [[-> ->]|(r' & -> & Hcase)]%cast_vote_cases.
  { right. split; [done|]. auto 7. }
  destruct Hcase.
  - right. split; [done|]. auto.
  - right. split; [done|]. auto 7.
  - right. split; [done|]. auto.
  - left. eauto.
  - left. eauto.
Qed.

(** X17. A closed poll takes no votes.  When the route [close] answers
    with success, the poll's row is the old one with [is_closed] set and
    no other row of any table has changed.  From then on the service
    refuses every vote on the poll, whatever the option, the session and
    the time, with "Poll is no longer active", and the voting route never
    changes the store: it answers 400 to an identifier that is not valid
    and to a request without an option or with the option 0, and to every
    other request "Poll is no longer active" with status 403. *)
Theorem closed_poll_takes_no_votes (st st' : DB)
    (creator_tokens : gmap string str) (owner : bool) (poll_id : str)
    (message : option str) :
  close_poll_route sha256_hexdigest st creator_tokens owner poll_id
  = (JsonSuccess message, st') →
  (∃ p, polls st !! poll_id = Some p
        ∧ polls st' !! poll_id = Some (set_is_closed p true))
  ∧ (∀ q, q ≠ poll_id → polls st' !! q = polls st !! q)
  ∧ poll_options st' = poll_options st
  ∧ votes st' = votes st
  ∧ (∀ option_id session_id now,
       vote sha256_hexdigest st' poll_id option_id session_id now
       = Some (Ok PollInactive, st'))
  ∧ ∀ option_id session_id now,
      let answer :=
        vote_route sha256_hexdigest st' poll_id option_id session_id now in
      answer.2 = st'
      ∧ (is_valid_poll_id poll_id = false →
           answer = (BadRequest "Invalid poll ID", st')
           ∧ response_status answer.1 = Some 400)
      ∧ (is_valid_poll_id poll_id = true →
           option_id = None ∨ option_id = Some 0 →
           answer = (BadRequest "No option selected", st')
           ∧ response_status answer.1 = Some 400)
      ∧ (is_valid_poll_id poll_id = true →
           ∀ k, option_id = Some k → k ≠ 0 →
           answer = (Served (Ok PollInactive), st')
           ∧ response_status answer.1 = Some 403).
Proof.
  unfold close_poll_route.
  destruct (polls st !! poll_id) as [p|] eqn:Hp; [|done].
  destruct (unauthorized _ _ _ _ _); [done|]. intros [= _ <-].
  assert (Hp' : polls (close_poll st poll_id) !! poll_id
                = Some (set_is_closed p true)).
  { by rewrite close_poll_lookup, decide_True, Hp. }
  assert (Hvote : ∀ option_id session_id now,
            vote sha256_hexdigest (close_poll st poll_id) poll_id option_id
              session_id now
            = Some (Ok PollInactive, close_poll st poll_id)).
  { intros option_id session_id now.
    by rewrite (vote_outcome _ _ (set_is_closed p true)). }
  split; [by exists p|]. split; [|split; [done|split; [done|split; [done|]]]].
  { intros q Hq. by rewrite close_poll_lookup, decide_False. }
  intros option_id session_id now.
  set (answer := vote_route _ _ _ _ _ _).
  assert (Hinvalid : is_valid_poll_id poll_id = false →
            answer = (BadRequest "Invalid poll ID", close_poll st poll_id)).
  { intros Hvalid. unfold answer, vote_route. by rewrite Hvalid. }
  assert (Hmissing : is_valid_poll_id poll_id = true →
            option_id = None ∨ option_id = Some 0 →
            answer = (BadRequest "No option selected", close_poll st poll_id)).
  { intros Hvalid Hk.
    by apply (vote_route_no_option _ _ (set_is_closed p true)). }
  assert (Hrefused : is_valid_poll_id poll_id = true →
            ∀ k, option_id = Some k → k ≠ 0 →
            answer = (Served (Ok PollInactive), close_poll st poll_id)).
  { intros Hvalid k -> Hk.
    by apply (vote_route_served _ _ (set_is_closed p true)). }
  split.
  { destruct (is_valid_poll_id poll_id) eqn:Hvalid.
    - destruct option_id as [k|].
      + destruct (decide (k = 0)) as [->|Hk].
        * rewrite Hmissing; auto.
        * by rewrite (Hrefused eq_refl k).
      + rewrite Hmissing; auto.
    - by rewrite Hinvalid. }
  split; [|split].
  - intros Hvalid. by rewrite Hinvalid.
  - intros Hvalid Hk. by rewrite Hmissing.
  - intros Hvalid k Hopt Hk. by rewrite (Hrefused Hvalid k).
Qed.

(** X18. A reopened poll is open.  When the route [reopen] answers with
    success, the poll is active at that moment even if it had expired:
    the expiry of an expired poll is cleared, so that the poll never
    expires again, while the expiry of a poll that had not expired is
    kept.  The counters, the options and the votes are as before. *)
Theorem reopened_poll_is_active (st st' : DB)
    (creator_tokens : gmap string str) (owner : bool) (poll_id : str)
    (now : Z) (message : option str) :
  reopen_poll_route sha256_hexdigest st creator_tokens owner poll_id now
  = (JsonSuccess message, st') →
  ∃ p p',
    polls st !! poll_id = Some p
    ∧ polls st' !! poll_id = Some p'
    ∧ is_active p' now = true
    ∧ expires_at p' = (if is_expired p now then None else expires_at p)
    ∧ (is_expired p now = true → ∀ later, is_active p' later = true)
    ∧ total_votes p' = total_votes p
    ∧ (∀ q, q ≠ poll_id → polls st' !! q = polls st !! q)
    ∧ poll_options st' = poll_options st
    ∧ votes st' = votes st.
Proof.
  unfold reopen_poll_route.
  destruct (polls st !! poll_id) as [p|] eqn:Hp; [|done].
  destruct (unauthorized _ _ _ _ _); [done|]. intros [= _ <-].
  exists p. destruct (is_expired p now) eqn:Hexp.
  - exists (set_is_closed (set_expires_at p None) false).
    split; [done|]. split.
    { rewrite reopen_poll_lookup, decide_True by done. simpl.
      by rewrite lookup_insert_eq. }
    repeat split; try done.
    intros q Hq. rewrite reopen_poll_lookup, decide_False by done. simpl.
    by rewrite lookup_insert_ne.
  - exists (set_is_closed p false).
    split; [done|]. split.
    { by rewrite reopen_poll_lookup, decide_True, Hp. }
    split.
    { unfold is_active. simpl. unfold is_expired in *. simpl. by rewrite Hexp. }
    repeat split; try done.
    intros q Hq. by rewrite reopen_poll_lookup, decide_False.
Qed.

(** X19. The answer of the voting route, request by request.  An
    identifier that is not valid is answered 400 "Invalid poll ID"; a valid
    identifier of no poll 404; a request without an option, or with the
    option 0, 400 "No option selected".  Any other option goes to the
    service: on an inactive poll the answer is "Poll is no longer active";
    on an active one "Invalid option" for an option that is not one of the
    poll's, "You have already voted" for a session with a vote on a poll
    that forbids changes, the changed vote on a poll that allows them, and
    the recorded vote for a session without one.  The status is 200
    exactly for a changed or recorded vote, 403 exactly for the inactive
    poll and the session that has voted, 400 exactly for the invalid
    identifier, the missing option and the foreign option, 404 exactly for
    the unknown poll; and every answer other than 200 leaves the store
    unchanged. *)
Theorem vote_route_status (st : DB) (poll_id : str) (option_id : option Z)
    (session_id : str) (now : Z) :
  let answer :=
    vote_route sha256_hexdigest st poll_id option_id session_id now in
  (is_valid_poll_id poll_id = false →
     answer = (BadRequest "Invalid poll ID", st))
  ∧ (is_valid_poll_id poll_id = true → polls st !! poll_id = None →
     answer = (NotFound, st))
  ∧ (∀ p, is_valid_poll_id poll_id = true → polls st !! poll_id = Some p →
       (option_id = None ∨ option_id = Some 0 →
          answer = (BadRequest "No option selected", st))
       ∧ ∀ k, option_id = Some k → k ≠ 0 →
           (is_active p now = false →
              answer = (Served (Ok PollInactive), st))
           ∧ (is_active p now = true → find_option st k poll_id = None →
              answer = (Served (Ok InvalidOption), st))
           ∧ (is_active p now = true → is_Some (find_option st k poll_id) →
              (∀ i v,
                 find_vote st poll_id (voter_hash session_id poll_id)
                 = Some (i, v) →
                 (allow_vote_change p = false →
                    answer = (Served (Ok AlreadyVoted), st))
                 ∧ (allow_vote_change p = true →
                    answer
                    = (Served (Ok (VoteChanged
                                     (vote_data (changed st i v k) poll_id k))),
                       changed st i v k)))
              ∧ (find_vote st poll_id (voter_hash session_id poll_id) = None →
                 answer
                 = (Served (Ok (VoteRecorded
                                  (vote_data
                                     (recorded st poll_id
                                        (voter_hash session_id poll_id) k now)
                                     poll_id k))),
                    recorded st poll_id (voter_hash session_id poll_id) k
                      now))))
  ∧ (response_status answer.1 = Some 200 ↔
       ∃ d, answer.1 = Served (Ok (VoteChanged d))
            ∨ answer.1 = Served (Ok (VoteRecorded d)))
  ∧ (response_status answer.1 = Some 403 ↔
       answer.1 = Served (Ok PollInactive)
       ∨ answer.1 = Served (Ok AlreadyVoted))
  ∧ (response_status answer.1 = Some 400 ↔
       answer.1 = BadRequest "Invalid poll ID"
       ∨ answer.1 = BadRequest "No option selected"
       ∨ answer.1 = Served (Ok InvalidOption))
  ∧ (response_status answer.1 = Some 404 ↔ answer.1 = NotFound)
  ∧ (response_status answer.1 ≠ Some 200 → answer.2 = st).
Proof.
  intros answer. split; [|split; [|split]].
  - intros Hvalid. unfold answer, vote_route. by rewrite Hvalid.
  - intros Hvalid Hp. unfold answer, vote_route, get_poll.
    by rewrite Hvalid, Hp.
  - intros p Hvalid Hp. split.
    { intros Hk. by apply (vote_route_no_option _ _ p). }
    intros k -> Hk.
    pose proof (vote_outcome st poll_id p k session_id now Hp) as Hv.
    split; [|split].
    + intros Hact. rewrite Hact in Hv.
      by apply (vote_route_served _ _ p).
    + intros Hact Ho. rewrite Hact, Ho in Hv.
      by apply (vote_route_served _ _ p).
    + intros Hact [o Ho]. rewrite Hact, Ho in Hv. split.
      * intros i v Hfound. rewrite Hfound in Hv.
        split; intros Hallow; rewrite Hallow in Hv;
          by apply (vote_route_served _ _ p).
      * intros Hnone. rewrite Hnone in Hv.
        by apply (vote_route_served _ _ p).
  - destruct answer as [r st'] eqn:Hanswer. simpl.
    apply vote_route_answers in Hanswer
      as [[d [-> | ->]]|[-> [-> |[-> |[-> |[-> |[-> | ->]]]]]]].
    all: split_and!; try split; try done; eauto.
    all: intros H; decompose [or ex] H; clear H;
      match goal with H : _ = _ |- _ => by vm_compute in H end.
Qed.

(** X20. [time_remaining] agrees with [is_expired].  At one and the same
    moment a poll has no time remaining exactly when it never expires or
    has expired, and a time remaining is never negative and leads from
    that moment to the expiry. *)
Theorem time_remaining_agrees_with_expiry (p : Poll) (now : Z) :
  (time_remaining p now = None ↔
     expires_at p = None ∨ is_expired p now = true)
  ∧ ∀ remaining, time_remaining p now = Some remaining →
      0 ≤ remaining ∧ expires_at p = Some (now + remaining)
      ∧ is_expired p now = false.
Proof.
  unfold time_remaining, is_expired.
  destruct (expires_at p) as [expires|]; [|by split; [split; auto|]].
  split.
  - split.
    + case_bool_decide; [|done]. intros _. right. apply bool_decide_eq_true. lia.
    + intros [|H%bool_decide_eq_true]; [done|].
      rewrite bool_decide_eq_true_2; [done|lia].
  - intros remaining. case_bool_decide; [done|]. intros [= <-].
    split; [lia|]. split; [f_equal; lia|]. apply bool_decide_eq_false. lia.
Qed.

End Closing.

(** * Consistency of the store under every operation *)

Section Consistency.

Context (sha256_hexdigest : bytes → str).
Context (bleach_clean strip lower : str → str).

Lemma sum_weight_insert_fresh (poll : str) (m : gmap Z PollOption) (k : Z)
    (o : PollOption) :
  m !! k = None →
  foldr Z.add 0 (weight poll <$> map_to_list (<[k := o]> m))
  = weight poll (k, o) + foldr Z.add 0 (weight poll <$> map_to_list m).
Proof.
  intros Hk.
  rewrite (foldr_add_perm _ (weight poll <$> (k, o) :: map_to_list m)); [done|].
  by apply fmap_Permutation, map_to_list_insert.
Qed.

Lemma sum_weight_delete (poll : str) (m : gmap Z PollOption) (k : Z)
    (o : PollOption) :
  m !! k = Some o →
  foldr Z.add 0 (weight poll <$> map_to_list (delete k m))
  = foldr Z.add 0 (weight poll <$> map_to_list m) - weight poll (k, o).
Proof.
  intros Hk.
  rewrite (foldr_add_perm (weight poll <$> map_to_list m)
             (weight poll <$> (k, o) :: map_to_list (delete k m))).
  2:{ apply fmap_Permutation. symmetry. by apply map_to_list_delete. }
  rewrite fmap_cons. cbn [foldr]. lia.
Qed.

Lemma sum_weight_filter (poll : str) (P : Z * PollOption → Prop)
    `{!∀ a, Decision (P a)} (m : gmap Z PollOption) :
  (∀ k o, m !! k = Some o → ¬ P (k, o) → weight poll (k, o) = 0) →
  foldr Z.add 0 (weight poll <$> map_to_list (filter P m))
  = foldr Z.add 0 (weight poll <$> map_to_list m).
Proof.
  induction m as [|k o m Hk IH] using map_ind; intros Hz.
  { by rewrite map_filter_empty. }
  rewrite (sum_weight_insert_fresh _ _ _ _ Hk).
  assert (IH' : foldr Z.add 0 (weight poll <$> map_to_list (filter P m))
                = foldr Z.add 0 (weight poll <$> map_to_list m)).
  { apply IH. intros j oj Hj. apply Hz. rewrite lookup_insert_ne; [done|].
    intros ->. congruence. }
  assert (Hko : <[k := o]> m !! k = Some o) by by rewrite lookup_insert_eq.
  destruct (decide (P (k, o))) as [HP|HP].
  - rewrite map_filter_insert_True by done.
    rewrite sum_weight_insert_fresh, IH'; [done|].
    rewrite map_lookup_filter_None. by left.
  - rewrite map_filter_insert_not' by (done || by intros ? ?; congruence).
    rewrite IH', (Hz k o Hko HP). lia.
Qed.

Lemma sum_weight_nonneg (poll : str) (l : list (Z * PollOption)) :
  Forall (λ a, 0 ≤ weight poll a) l →
  0 ≤ foldr Z.add 0 (weight poll <$> l).
Proof.
  induction 1 as [|a l Ha _ IH]; [done|]. rewrite fmap_cons. cbn [foldr]. lia.
Qed.

Lemma hits_filter_keep (k : Z) (P : Vote → Prop) `{!∀ v, Decision (P v)}
    (l : list Vote) :
  (∀ v, v ∈ l → vote_option_id v = k → P v) →
  hits k (filter P l) = hits k l.
Proof.
  induction l as [|v l IH]; intros HP; [done|].
  assert (IH' : hits k (filter P l) = hits k l).
  { apply IH. intros w Hw. apply HP. by right. }
  rewrite filter_cons. case_decide as Hv.
  - by rewrite !hits_cons, IH'.
  - rewrite hits_cons, IH'. unfold hit. rewrite decide_False; [done|].
    intros Hvk. apply Hv, HP; [by left|done].
Qed.

Lemma hits_filter_other (k j : Z) (l : list Vote) :
  k ≠ j → hits k (filter (λ v, vote_option_id v ≠ j) l) = hits k l.
Proof. intros Hkj. apply hits_filter_keep. by intros v _ ->. Qed.

Lemma length_options_of (st : DB) (poll : str) :
  length (options_of st poll)
  = length (filter (λ a : Z * PollOption, opt_poll_id a.2 = poll)
              (map_to_list (poll_options st))).
Proof. unfold options_of. apply Permutation_length, merge_sort_Permutation. Qed.

(** A change of the rows of [polls] that keeps the totals keeps the
    tallies. *)
Lemma tallied_same_rows (st st' : DB) (poll : str) :
  poll_options st' = poll_options st → votes st' = votes st →
  (∀ p, polls st !! poll = Some p →
        ∃ p', polls st' !! poll = Some p' ∧ total_votes p' = total_votes p) →
  tallied st poll → tallied st' poll.
Proof.
  intros Ho Hv Hp [Htot Hcnt Hopt Hpoll]. split.
  - destruct Htot as (p & Hpp & Hsum). destruct (Hp p Hpp) as (p' & Hp' & Ht).
    exists p'. split; [done|]. rewrite Ht, Hsum.
    by apply sum_option_votes_ext.
  - intros k o. rewrite Ho. unfold rows_for. rewrite Hv. apply Hcnt.
  - intros v. rewrite Hv, Ho. apply Hopt.
  - intros v o. rewrite Hv, Ho. apply Hpoll.
Qed.

Lemma foreign_keys_same_rows (st st' : DB) :
  poll_options st' = poll_options st → votes st' = votes st →
  (∀ q, is_Some (polls st !! q) → is_Some (polls st' !! q)) →
  foreign_keys st → foreign_keys st'.
Proof.
  intros Ho Hv Hp [H1 H2 H3]. split.
  - intros k o. rewrite Ho. intros Hk. by eapply Hp, H1.
  - intros v. rewrite Hv. intros Hin. by apply Hp, H2.
  - intros v. rewrite Hv, Ho. apply H3.
Qed.

(** A change of the rows of [polls] that keeps the keys and the totals
    keeps the store consistent. *)
Lemma consistent_same_rows (st st' : DB) :
  poll_options st' = poll_options st → votes st' = votes st →
  (∀ q, match polls st !! q, polls st' !! q with
        | Some p, Some p' => total_votes p' = total_votes p
        | None, None => True
        | _, _ => False
        end) →
  consistent st → consistent st'.
Proof.
  intros Ho Hv Hp [Hk Hu Ht]. split.
  - apply (foreign_keys_same_rows st); [done|done| |done].
    intros q [p Hq]. specialize (Hp q). rewrite Hq in Hp.
    by destruct (polls st' !! q).
  - unfold votes_unique. by rewrite Hv.
  - intros poll [p' Hq]. apply (tallied_same_rows st); [done|done| |].
    + intros p Hpp. specialize (Hp poll). rewrite Hpp, Hq in Hp. eauto.
    + apply Ht. specialize (Hp poll). rewrite Hq in Hp.
      by destruct (polls st !! poll).
Qed.

Local Abbreviation voter_hash session_id poll :=
  (hash_voter_token sha256_hexdigest
     (generate_voter_token sha256_hexdigest session_id poll)).

Lemma vote_case_polls (st st' : DB) (q : str) (option_id : Z)
    (session_id : str) (now : Z) (r : result VoteReturn) (poll : str) :
  vote_case sha256_hexdigest st q option_id session_id now r st' →
  is_Some (polls st' !! poll) ↔ is_Some (polls st !! poll).
Proof.
  intros [| | | |p o Hp Ho Hv]; try done.
  - by rewrite changed_polls.
  - rewrite recorded_polls. case_decide; [|done]. by rewrite fmap_is_Some.
Qed.

Lemma vote_case_foreign_keys (st st' : DB) (q : str) (option_id : Z)
    (session_id : str) (now : Z) (r : result VoteReturn) :
  vote_case sha256_hexdigest st q option_id session_id now r st' →
  foreign_keys st → foreign_keys st'.
Proof.
  intros Hcase [H1 H2 H3].
  destruct Hcase as [| | |p o i v Hp [Ho Hoq]%find_option_Some Hv
                     |p o Hp [Ho Hoq]%find_option_Some Hv];
    try done.
  - apply find_vote_Some in Hv as [Hi Hkey]. split.
    + intros k ok. rewrite changed_lookup, changed_polls.
      destruct (poll_options st !! k) as [ok'|] eqn:Hk; [|done].
      simpl. intros [= <-]. specialize (H1 k ok' Hk).
      by repeat case_decide.
    + intros w. rewrite changed_votes, changed_polls.
      intros [j [(_ & <- & _)|[_ Hw]]%list_lookup_insert_Some]%list_elem_of_lookup.
      * simpl. apply H2. by eapply list_elem_of_lookup_2.
      * apply H2. by eapply list_elem_of_lookup_2.
    + intros w. rewrite changed_votes, changed_lookup, fmap_is_Some.
      intros [j [(_ & <- & _)|[_ Hw]]%list_lookup_insert_Some]%list_elem_of_lookup.
      * simpl. by rewrite Ho.
      * apply H3. by eapply list_elem_of_lookup_2.
  - split.
    + intros k ok. rewrite recorded_lookup, recorded_polls.
      destruct (poll_options st !! k) as [ok'|] eqn:Hk; [|done].
      intros [= <-]. specialize (H1 k ok' Hk).
      assert (Hsame : opt_poll_id
                (if decide (option_id = k)
                 then set_vote_count ok' (vote_count ok' + 1) else ok')
              = opt_poll_id ok') by (by case_decide).
      rewrite Hsame. clear Hsame.
      destruct (decide (q = opt_poll_id ok')); [by rewrite fmap_is_Some|done].
    + intros w. rewrite recorded_votes, recorded_polls.
      intros [Hw| ->%list_elem_of_singleton]%elem_of_app.
      * case_decide; [rewrite fmap_is_Some|]; by apply H2.
      * simpl. rewrite decide_True by done. by rewrite Hp.
    + intros w. rewrite recorded_votes, recorded_lookup, fmap_is_Some.
      intros [Hw| ->%list_elem_of_singleton]%elem_of_app.
      * by apply H3.
      * simpl. by rewrite Ho.
Qed.

Lemma vote_case_consistent (st st' : DB) (q : str) (option_id : Z)
    (session_id : str) (now : Z) (r : result VoteReturn) :
  vote_case sha256_hexdigest st q option_id session_id now r st' →
  consistent st → consistent st'.
Proof.
  intros Hcase [Hk Hu Ht]. split.
  - by eapply vote_case_foreign_keys.
  - by eapply vote_case_unique.
  - intros poll Hpoll. eapply vote_case_tallied; [done|].
    apply Ht. by apply (vote_case_polls _ _ _ _ _ _ _ poll Hcase).
Qed.

Lemma step_consistent (st : DB) (rq : Request) :
  consistent st → consistent (step sha256_hexdigest st rq).
Proof.
  intros Hc. unfold step.
  destruct (cast_vote sha256_hexdigest st (req_poll rq) (req_option rq)
              (req_session rq) (req_now rq)) as [r st'] eqn:Hcast.
  apply cast_vote_cases in Hcast as [[_ ->]|(r' & _ & Hcase)]; [done|].
  by eapply vote_case_consistent.
Qed.

(** *** Changes of a poll's row *)

Lemma alter_poll_consistent (st : DB) (poll : str) (f : Poll → Poll) :
  (∀ p, total_votes (f p) = total_votes p) →
  consistent st → consistent (with_polls st (alter f poll (polls st))).
Proof.
  intros Hf. apply consistent_same_rows; [done|done|].
  intros q. simpl. rewrite lookup_alter.
  destruct (decide (poll = q)) as [->|].
  - destruct (polls st !! q); simpl; [apply Hf|done].
  - by destruct (polls st !! q).
Qed.

Lemma close_poll_consistent (st : DB) (poll : str) :
  consistent st → consistent (close_poll st poll).
Proof. by apply alter_poll_consistent. Qed.

Lemma reopen_poll_consistent (st : DB) (poll : str) :
  consistent st → consistent (reopen_poll st poll).
Proof. by apply alter_poll_consistent. Qed.

Lemma edit_poll_consistent (st : DB) (poll : str) (now : Z)
    (form_data : FormData) :
  consistent st →
  consistent (edit_poll bleach_clean strip st poll now form_data).
Proof. by apply alter_poll_consistent. Qed.

Lemma update_poll_consistent (st : DB) (poll : str) (p p' : Poll) :
  polls st !! poll = Some p → total_votes p' = total_votes p →
  consistent st → consistent (with_polls st (<[poll := p']> (polls st))).
Proof.
  intros Hp Ht. apply consistent_same_rows; [done|done|].
  intros q. simpl. destruct (decide (poll = q)) as [<-|].
  - by rewrite lookup_insert_eq, Hp.
  - rewrite lookup_insert_ne by done. by destruct (polls st !! q).
Qed.

Lemma close_poll_route_consistent (st : DB) (creator_tokens : gmap string str)
    (owner : bool) (poll_id : str) :
  consistent st →
  consistent (close_poll_route sha256_hexdigest st creator_tokens owner
                poll_id).2.
Proof.
  intros Hc. unfold close_poll_route.
  destruct (polls st !! poll_id) as [p|]; [|done].
  destruct (unauthorized _ _ _ _ _); [done|]. by apply close_poll_consistent.
Qed.

Lemma reopen_poll_route_consistent (st : DB)
    (creator_tokens : gmap string str) (owner : bool) (poll_id : str)
    (now : Z) :
  consistent st →
  consistent (reopen_poll_route sha256_hexdigest st creator_tokens owner
                poll_id now).2.
Proof.
  intros Hc. unfold reopen_poll_route.
  destruct (polls st !! poll_id) as [p|] eqn:Hp; [|done].
  destruct (unauthorized _ _ _ _ _); [done|]. simpl.
  apply reopen_poll_consistent. destruct (is_expired p now); [|done].
  by apply (update_poll_consistent st poll_id p).
Qed.

(** *** New rows *)

Lemma no_vote_for_missing_option (st : DB) (k : Z) :
  foreign_keys st → poll_options st !! k = None →
  ∀ v, v ∈ votes st → vote_option_id v ≠ k.
Proof.
  intros [_ _ H3] Hk v Hv Heq. destruct (H3 v Hv) as [o Ho]. congruence.
Qed.

Lemma insert_option_consistent (st st' : DB) (k : Z) (o : PollOption) :
  insert_option st k o = Ok st' →
  vote_count o = 0 → is_Some (polls st !! opt_poll_id o) →
  consistent st → consistent st'.
Proof.
  unfold insert_option. case_decide as Hk; [done|]. intros [= <-] H0 Hpoll.
  apply eq_None_not_Some in Hk. intros [Hkeys Hu Ht].
  pose proof (no_vote_for_missing_option st k Hkeys Hk) as Hno.
  destruct Hkeys as [H1 H2 H3]. split.
  - split; simpl.
    + intros j oj [[-> ->]|[_ Hj]]%lookup_insert_Some; [done|by eapply H1].
    + done.
    + intros v Hv. rewrite lookup_insert_ne; [by apply H3|].
      intros Heq. by apply (Hno v Hv).
  - done.
  - intros q Hq. destruct (Ht q Hq) as [Htot Hcnt Hopt Hpl]. split; simpl.
    + destruct Htot as (p & Hp & Hsum). exists p. split; [done|].
      rewrite Hsum, !sum_option_votes_weight. simpl.
      rewrite sum_weight_insert_fresh by done.
      unfold weight at 2. simpl. rewrite H0. by case_decide.
    + intros j oj [[-> ->]|[_ Hj]]%lookup_insert_Some Hown.
      * rewrite H0. unfold rows_for. simpl. by rewrite hits_zero.
      * by apply Hcnt.
    + intros v Hv Hvq. destruct (Hopt v Hv Hvq) as (ov & Hov & Hown).
      exists ov. split; [|done]. rewrite lookup_insert_ne; [done|].
      intros Heq. by apply (Hno v Hv).
    + intros v ov Hv. rewrite lookup_insert_ne; [by apply Hpl|].
      intros Heq. by apply (Hno v Hv).
Qed.

Lemma insert_poll_consistent (st : DB) (poll : str) (p : Poll) :
  polls st !! poll = None → total_votes p = 0 →
  consistent st → consistent (with_polls st (<[poll := p]> (polls st))).
Proof.
  intros Hp H0 [[H1 H2 H3] Hu Ht]. split.
  - split; simpl.
    + intros k o Hk. rewrite lookup_insert_is_Some'. right. by eapply H1.
    + intros v Hv. rewrite lookup_insert_is_Some'. right. by apply H2.
    + done.
  - done.
  - intros q. simpl. destruct (decide (poll = q)) as [<-|Hne].
    + intros _. split; simpl.
      * exists p. rewrite lookup_insert_eq. split; [done|].
        rewrite H0, sum_option_votes_weight. simpl. symmetry.
        apply sum_weight_zero, Forall_forall.
        intros [k o] Hko%elem_of_map_to_list. simpl. intros Hown.
        destruct (H1 k o Hko) as [p' Hp']. congruence.
      * intros k o Hk Hown. destruct (H1 k o Hk) as [p' Hp']. congruence.
      * intros v Hv Hvp. destruct (H2 v Hv) as [p' Hp']. congruence.
      * intros v o Hv Ho Hown.
        destruct (H1 _ o Ho) as [p' Hp']. congruence.
    + rewrite lookup_insert_ne by done. intros Hq.
      apply (tallied_same_rows st); [done|done| |by apply Ht].
      intros p' Hp'. exists p'. simpl. by rewrite lookup_insert_ne.
Qed.

(** *** Deleted rows *)

Lemma votes_unique_filter (st : DB) (P : Vote → Prop) `{!∀ v, Decision (P v)} :
  votes_unique st → NoDup (vote_key <$> filter P (votes st)).
Proof.
  unfold votes_unique. intros Hu.
  eapply sublist_NoDup; [exact Hu|]. apply fmap_sublist, sublist_filter.
Qed.

Lemma tallied_counts_nonneg (st : DB) (poll : str) :
  tallied st poll →
  Forall (λ a, 0 ≤ weight poll a) (map_to_list (poll_options st)).
Proof.
  intros [_ Hcnt _ _]. apply Forall_forall.
  intros [k o] Hko%elem_of_map_to_list. unfold weight. simpl.
  case_decide as Hown; [|done]. rewrite (Hcnt k o Hko Hown). lia.
Qed.

(** The store that [delete_poll_option] leaves when it deletes. *)
Lemma option_deleted_consistent (st : DB) (poll_id : str) (poll : Poll)
    (option_id : Z) (o : PollOption) :
  polls st !! poll_id = Some poll →
  poll_options st !! option_id = Some o →
  opt_poll_id o = poll_id →
  consistent st →
  consistent
    (mkDB (<[poll_id := set_total_votes poll
                          (Z.max 0 (total_votes poll - vote_count o))]>
             (polls st))
          (delete option_id (poll_options st))
          (filter (λ v, vote_option_id v ≠ option_id) (votes st))).
Proof.
  intros Hp Ho Hown [[H1 H2 H3] Hu Ht]. split.
  - split; simpl.
    + intros k ok [_ Hk]%lookup_delete_Some.
      rewrite lookup_insert_is_Some'. right. by eapply H1.
    + intros v [_ Hv]%list_elem_of_filter.
      rewrite lookup_insert_is_Some'. right. by apply H2.
    + intros v [Hne Hv]%list_elem_of_filter.
      rewrite lookup_delete_ne by done. by apply H3.
  - by apply votes_unique_filter.
  - intros q. simpl. intros Hq.
    assert (Hq' : is_Some (polls st !! q)).
    { apply lookup_insert_is_Some' in Hq as [<-|Hq]; [by rewrite Hp|done]. }
    pose proof (Ht q Hq') as Htq.
    pose proof (tallied_counts_nonneg st q Htq) as Hnn.
    destruct Htq as [Htot Hcnt Hopt Hpl]. split; simpl.
    + destruct Htot as (p & Hpq & Hsum).
      rewrite sum_option_votes_weight in Hsum.
      rewrite sum_option_votes_weight. simpl.
      rewrite (sum_weight_delete q _ _ _ Ho).
      assert (Hrest : 0 ≤ foldr Z.add 0
                (weight q <$> map_to_list (delete option_id (poll_options st)))).
      { apply sum_weight_nonneg, Forall_forall.
        intros [k ok] [_ Hk]%elem_of_map_to_list%lookup_delete_Some.
        rewrite Forall_forall in Hnn. apply Hnn. by apply elem_of_map_to_list. }
      rewrite (sum_weight_delete q _ _ _ Ho) in Hrest.
      destruct (decide (poll_id = q)) as [<-|Hne].
      * rewrite lookup_insert_eq. eexists. split; [done|]. simpl.
        assert (p = poll) as -> by congruence.
        unfold weight in *. simpl in *. rewrite decide_True in * by done. lia.
      * rewrite lookup_insert_ne by done. exists p. split; [done|].
        unfold weight at 2. simpl. rewrite decide_False by congruence. lia.
    + intros k ok [Hne Hk]%lookup_delete_Some Hok.
      unfold rows_for. simpl. rewrite hits_filter_other by done.
      by apply Hcnt.
    + intros v [Hne Hv]%list_elem_of_filter Hvq.
      destruct (Hopt v Hv Hvq) as (ov & Hov & Hovq).
      exists ov. by rewrite lookup_delete_ne.
    + intros v ov [Hne Hv]%list_elem_of_filter.
      rewrite lookup_delete_ne by done. by apply Hpl.
Qed.

Lemma delete_poll_option_consistent (st : DB) (owner : bool) (poll_id : str)
    (option_id : Z) :
  consistent st →
  consistent (delete_poll_option st owner poll_id option_id).2.
Proof.
  intros Hc. unfold delete_poll_option.
  destruct (polls st !! poll_id) as [poll|] eqn:Hp; [|done].
  destruct (poll_options st !! option_id) as [o|] eqn:Ho; [|done].
  destruct (negb owner); [done|]. simpl.
  case_bool_decide as Hown; [done|]. simpl.
  destruct (length (options_of st poll_id) <=? 2)%nat; [done|]. simpl.
  by apply option_deleted_consistent.
Qed.

Lemma delete_polls_spares (st st' : DB) (doomed : list str) :
  delete_polls st doomed = Ok st' →
  ∀ v o, v ∈ votes st → poll_options st !! vote_option_id v = Some o →
         vote_poll_id v ∉ doomed → opt_poll_id o ∉ doomed.
Proof.
  unfold delete_polls.
  destruct (existsb _ _) eqn:Hex; [done|]. intros _ v o Hv Ho Hvd Hod.
  apply not_true_iff_false in Hex. apply Hex.
  apply existsb_exists. exists v. split; [by apply list_elem_of_In|].
  apply andb_true_iff. split; [by apply bool_decide_eq_true|].
  unfold points_into. rewrite Ho. by apply bool_decide_eq_true.
Qed.

Lemma delete_polls_store (st st' : DB) (doomed : list str) :
  delete_polls st doomed = Ok st' →
  st' = mkDB (filter (λ a : str * Poll, a.1 ∉ doomed) (polls st))
             (filter (λ a : Z * PollOption, opt_poll_id a.2 ∉ doomed)
                (poll_options st))
             (filter (λ v, vote_poll_id v ∉ doomed) (votes st)).
Proof. unfold delete_polls. destruct (existsb _ _); [done|]. by intros [= <-]. Qed.

Lemma delete_polls_consistent (st st' : DB) (doomed : list str) :
  delete_polls st doomed = Ok st' → consistent st → consistent st'.
Proof.
  intros Hdel [[H1 H2 H3] Hu Ht].
  pose proof (delete_polls_spares _ _ _ Hdel) as Hspare.
  rewrite (delete_polls_store _ _ _ Hdel). split.
  - split; simpl.
    + intros k o [Hk Hkd]%map_lookup_filter_Some. simpl in Hkd.
      destruct (H1 k o Hk) as [p Hp]. exists p.
      by apply map_lookup_filter_Some.
    + intros v [Hvd Hv]%list_elem_of_filter.
      destruct (H2 v Hv) as [p Hp]. exists p.
      by apply map_lookup_filter_Some.
    + intros v [Hvd Hv]%list_elem_of_filter.
      destruct (H3 v Hv) as [o Ho]. exists o.
      apply map_lookup_filter_Some. split; [done|]. simpl.
      by apply (Hspare v o).
  - by apply votes_unique_filter.
  - intros q. simpl. intros [p [Hp Hqd]%map_lookup_filter_Some].
    simpl in Hqd.
    destruct (Ht q (mk_is_Some _ _ Hp)) as [Htot Hcnt Hopt Hpl]. split; simpl.
    + destruct Htot as (p' & Hp' & Hsum). exists p'.
      split; [by apply map_lookup_filter_Some; split; [|done]; congruence|].
      rewrite Hsum, !sum_option_votes_weight. simpl. symmetry.
      apply sum_weight_filter. intros k o Hk Hnot. simpl in Hnot.
      unfold weight. simpl. case_decide as Hown; [|done].
      destruct Hnot. by rewrite Hown.
    + intros k o [Hk Hkd]%map_lookup_filter_Some Hown.
      unfold rows_for. simpl. rewrite hits_filter_keep; [by apply Hcnt|].
      intros v Hv Hvk. rewrite (Hpl v o Hv); [done| |done]. by rewrite Hvk.
    + intros v [Hvd Hv]%list_elem_of_filter Hvq.
      destruct (Hopt v Hv Hvq) as (o & Ho & Hown). exists o.
      split; [|done]. apply map_lookup_filter_Some. split; [done|].
      simpl. by rewrite Hown.
    + intros v o [Hvd Hv]%list_elem_of_filter [Ho _]%map_lookup_filter_Some.
      by apply Hpl.
Qed.

(** On a consistent store the deletion of polls never fails. *)
Lemma delete_polls_succeeds (st : DB) (doomed : list str) :
  consistent st → ∃ st', delete_polls st doomed = Ok st'.
Proof.
  intros [[H1 H2 H3] Hu Ht]. unfold delete_polls.
  destruct (existsb _ _) eqn:Hex; [|by eexists].
  apply existsb_exists in Hex as (v & Hv%list_elem_of_In & Hb).
  apply andb_true_iff in Hb as [Hvd%bool_decide_eq_true Hpt].
  unfold points_into in Hpt.
  destruct (poll_options st !! vote_option_id v) as [o|] eqn:Ho; [|done].
  apply bool_decide_eq_true in Hpt.
  destruct (Ht (opt_poll_id o) (H1 _ o Ho)) as [_ _ _ Hpl].
  rewrite (Hpl v o Hv Ho eq_refl) in Hvd. done.
Qed.

(** *** Adding an option and creating a poll *)

Lemma insert_option_store (st st' : DB) (k : Z) (o : PollOption) :
  insert_option st k o = Ok st' →
  poll_options st !! k = None
  ∧ st' = with_poll_options st (<[k := o]> (poll_options st)).
Proof.
  unfold insert_option. case_decide as Hk; [done|]. intros [= <-].
  by apply eq_None_not_Some in Hk.
Qed.

(** The outcomes of [add_option]: a refusal that leaves the store, an
    exception that leaves the store, or the new row. *)
Lemma add_option_cases (st st' : DB) (new_id : Z) (poll text : str)
    (r : result AddReturn) :
  add_option bleach_clean strip lower st new_id poll text = (r, st') →
  (st' = st ∧ ((∃ message, r = Ok (AddRefused message)) ∨ ∃ e, r = Raise e))
  ∨ ∃ new_option,
      r = Ok (Added new_id new_option)
      ∧ insert_option st new_id new_option = Ok st'
      ∧ opt_poll_id new_option = poll
      ∧ vote_count new_option = 0
      ∧ option_text new_option = sanitize_text bleach_clean strip (Some text).
Proof.
  unfold add_option.
  destruct (_ || _); [intros [= <- <-]; left; eauto|].
  destruct (_ <=? _)%nat; [intros [= <- <-]; left; eauto|].
  destruct (existsb _ _); [intros [= <- <-]; left; eauto|].
  destruct (insert_option _ _ _) as [st1|e] eqn:Hins; intros [= <- <-].
  - right. eexists. by repeat split.
  - left. eauto.
Qed.

Lemma add_option_consistent (st : DB) (new_id : Z) (poll text : str) :
  is_Some (polls st !! poll) → consistent st →
  consistent (add_option bleach_clean strip lower st new_id poll text).2.
Proof.
  intros Hp Hc.
  destruct (add_option _ _ _ st new_id poll text) as [r st'] eqn:Hadd.
  apply add_option_cases in Hadd
    as [[-> _]|(o & _ & Hins & Hpoll & H0 & _)]; [done|].
  simpl. apply (insert_option_consistent st st' new_id o); try done.
  by rewrite Hpoll.
Qed.

Lemma add_poll_option_consistent (st : DB) (new_id : Z) (owner : bool)
    (poll_id text : str) :
  consistent st →
  consistent (add_poll_option bleach_clean strip lower st new_id owner
                poll_id text).2.
Proof.
  intros Hc. unfold add_poll_option.
  destruct (polls st !! poll_id) as [p|] eqn:Hp; [|done].
  destruct (negb owner); [done|]. case_bool_decide; [done|].
  pose proof (add_option_consistent st new_id poll_id
                (sanitize_text bleach_clean strip (Some text))
                (mk_is_Some _ _ Hp) Hc) as Hadd.
  destruct (add_option _ _ _ _ _ _ _) as [[[m|id o]|e] st']; done.
Qed.

Lemma insert_options_consistent (new_id : nat → Z) (rows : list PollOption) :
  ∀ (st st' : DB) (k : nat),
    insert_options st new_id k rows = Ok st' →
    Forall (λ o, vote_count o = 0 ∧ is_Some (polls st !! opt_poll_id o)) rows →
    consistent st → consistent st' ∧ polls st' = polls st.
Proof.
  induction rows as [|o rows IH]; intros st st' k; simpl.
  { by intros [= <-]. }
  destruct (insert_option st (new_id k) o) as [st1|e] eqn:Hins; [|done].
  intros Hrest [[H0 Hp] Hall]%Forall_cons Hc.
  pose proof (insert_option_store _ _ _ _ Hins) as [_ Hst1].
  assert (Hpolls : polls st1 = polls st) by by rewrite Hst1.
  destruct (IH st1 st' (S k) Hrest) as [Hc' Hp'].
  - by rewrite Hpolls.
  - by apply (insert_option_consistent st st1 (new_id k) o).
  - split; [done|congruence].
Qed.

Lemma new_options_rows (poll_id : str) (options : list str) :
  Forall (λ o, vote_count o = 0 ∧ opt_poll_id o = poll_id)
    (new_options bleach_clean strip poll_id options).
Proof.
  unfold new_options. apply Forall_forall. intros o.
  rewrite list_elem_of_omap. intros ([i t] & _ & Ho). simpl in Ho.
  destruct (_ && _); [|done]. by injection Ho as <-.
Qed.

(** The outcomes of [create_poll]: an exception that leaves the store, or
    a new poll row and its option rows. *)
Lemma create_poll_cases (st st' : DB) (tok_id tok_creator : bytes) (now : Z)
    (new_id : nat → Z) (form_data : FormData) (r : result (str * str)) :
  create_poll sha256_hexdigest bleach_clean strip st tok_id tok_creator now
    new_id form_data = (r, st') →
  (st' = st ∧ ∃ e, r = Raise e)
  ∨ ∃ poll_id creator_token,
      r = Ok (poll_id, creator_token)
      ∧ generate_poll_id 16 tok_id = Ok poll_id
      ∧ generate_creator_token tok_creator = Ok creator_token
      ∧ polls st !! poll_id = None
      ∧ insert_options
          (with_polls st
             (<[poll_id :=
                  mkPoll (sanitize_text bleach_clean strip
                            (form_question form_data))
                    None (expiry_of (form_expiration form_data) now)
                    (form_allow_vote_change form_data) false false
                    (hash_creator_token sha256_hexdigest creator_token) 0]>
                (polls st)))
          new_id 0
          (new_options bleach_clean strip poll_id (form_options form_data))
        = Ok st'.
Proof.
  unfold create_poll.
  destruct (generate_poll_id 16 tok_id) as [poll_id|e];
    [|intros [= <- <-]; left; eauto].
  destruct (generate_creator_token tok_creator) as [creator_token|e];
    [|intros [= <- <-]; left; eauto].
  case_decide as Hp; [intros [= <- <-]; left; eauto|].
  apply eq_None_not_Some in Hp.
  destruct (insert_options _ _ _ _) as [st1|e] eqn:Hins; intros [= <- <-].
  - right. exists poll_id, creator_token. by repeat split.
  - left. eauto.
Qed.

Lemma create_poll_consistent (st : DB) (tok_id tok_creator : bytes) (now : Z)
    (new_id : nat → Z) (form_data : FormData) :
  consistent st →
  consistent
    (create_poll sha256_hexdigest bleach_clean strip st tok_id tok_creator
       now new_id form_data).2.
Proof.
  intros Hc.
  destruct (create_poll _ _ _ st tok_id tok_creator now new_id form_data)
    as [r st'] eqn:Hcreate.
  apply create_poll_cases in Hcreate
    as [[-> _]|(poll_id & token & _ & _ & _ & Hp & Hins)]; [done|].
  simpl. eapply insert_options_consistent; [exact Hins| |].
  - eapply Forall_impl; [apply new_options_rows|].
    intros o [H0 ->]. split; [done|]. simpl. by rewrite lookup_insert_eq.
  - by apply insert_poll_consistent.
Qed.

(** *** Every request *)

Lemma vote_route_consistent (st : DB) (poll_id : str) (option_id : option Z)
    (session_id : str) (now : Z) :
  consistent st →
  consistent (vote_route sha256_hexdigest st poll_id option_id session_id
                now).2.
Proof.
  intros Hc. unfold vote_route.
  destruct (negb _); [done|]. destruct (get_poll st poll_id); [|done].
  destruct option_id as [option_id|]; [|done].
  destruct (decide (option_id = 0)); [done|].
  by apply (step_consistent st (mkRequest poll_id option_id session_id now)).
Qed.

Lemma delete_poll_route_consistent (st : DB)
    (creator_tokens : gmap string str) (owner ajax authenticated : bool)
    (poll_id : str) :
  consistent st →
  consistent (delete_poll_route sha256_hexdigest st creator_tokens owner ajax
                authenticated poll_id).2.
Proof.
  intros Hc. unfold delete_poll_route.
  destruct (polls st !! poll_id); [|done].
  destruct (unauthorized _ _ _ _ _); [done|].
  destruct (delete_poll st poll_id) as [st'|e] eqn:Hdel; [|done].
  simpl. by eapply delete_polls_consistent.
Qed.

Lemma cleanup_expired_polls_consistent (st : DB) (now : Z) :
  consistent st → consistent (cleanup_expired_polls st now).2.
Proof.
  intros Hc. unfold cleanup_expired_polls.
  destruct (delete_polls _ _) as [st'|e] eqn:Hdel; [|done].
  simpl. by eapply delete_polls_consistent.
Qed.

Lemma perform_consistent (st : DB) (request : Z * Operation) :
  consistent st →
  consistent (perform sha256_hexdigest bleach_clean strip lower st request).
Proof.
  intros Hc. destruct request as [now []]; simpl.
  - by apply create_poll_consistent.
  - by apply vote_route_consistent.
  - by apply close_poll_route_consistent.
  - by apply reopen_poll_route_consistent.
  - by apply edit_poll_consistent.
  - by apply add_poll_option_consistent.
  - by apply delete_poll_option_consistent.
  - by apply delete_poll_route_consistent.
  - by apply cleanup_expired_polls_consistent.
Qed.

Lemma history_consistent (st : DB) (requests : list (Z * Operation)) :
  consistent st →
  consistent (history sha256_hexdigest bleach_clean strip lower st requests).
Proof.
  revert st. induction requests as [|rq requests IH]; intros st Hc; [done|].
  simpl. by apply IH, perform_consistent.
Qed.

Lemma empty_db_consistent : consistent empty_db.
Proof.
  split.
  - split; simpl; intros *; (by rewrite lookup_empty) || by intros ?%elem_of_nil.
  - apply NoDup_nil_2.
  - intros poll. simpl. rewrite lookup_empty. by intros [? ?].
Qed.

(** *** The total of a poll and its rows *)

Lemma sum_pointwise {A} (f g : A → Z) (l : list A) :
  foldr Z.add 0 ((λ a, f a + g a) <$> l)
  = foldr Z.add 0 (f <$> l) + foldr Z.add 0 (g <$> l).
Proof. induction l as [|a l IH]; [done|]. rewrite !fmap_cons. cbn [foldr]. lia. Qed.

Lemma list_filter_iff_elem {A} (P Q : A → Prop) `{!∀ x, Decision (P x)}
    `{!∀ x, Decision (Q x)} (l : list A) :
  (∀ x, x ∈ l → P x ↔ Q x) → filter P l = filter Q l.
Proof.
  induction l as [|x l IH]; intros HPQ; [done|].
  rewrite !filter_cons, IH by (intros y Hy; apply HPQ; by right).
  assert (Hx : P x ↔ Q x) by (apply HPQ; by left).
  repeat case_decide; tauto.
Qed.

Lemma sum_share (poll : str) (v : Vote) (m : gmap Z PollOption) :
  foldr Z.add 0 (share poll v <$> map_to_list m)
  = match m !! vote_option_id v with
    | Some o => if decide (opt_poll_id o = poll) then 1 else 0
    | None => 0
    end.
Proof.
  induction m as [|k o m Hk IH] using map_ind.
  { by rewrite map_to_list_empty, lookup_empty. }
  rewrite (foldr_add_perm _ (share poll v <$> (k, o) :: map_to_list m)).
  2:{ by apply fmap_Permutation, map_to_list_insert. }
  rewrite fmap_cons. cbn [foldr]. rewrite IH. unfold share, hit. simpl.
  destruct (decide (vote_option_id v = k)) as [->|Hne].
  - rewrite lookup_insert_eq, Hk. case_decide; lia.
  - rewrite lookup_insert_ne by done.
    destruct (m !! vote_option_id v); repeat case_decide; lia.
Qed.

Lemma sum_hits (poll : str) (m : gmap Z PollOption) (l : list Vote) :
  foldr Z.add 0
    ((λ a : Z * PollOption,
        if decide (opt_poll_id a.2 = poll) then Z.of_nat (hits a.1 l) else 0)
       <$> map_to_list m)
  = Z.of_nat
      (length
         (filter (λ v, match m !! vote_option_id v with
                       | Some o => bool_decide (opt_poll_id o = poll)
                       | None => false
                       end = true) l)).
Proof.
  induction l as [|v l IH].
  { simpl. induction (map_to_list m) as [|a L IHL]; [done|].
    rewrite fmap_cons. cbn [foldr]. rewrite IHL. unfold hits. simpl.
    by case_decide. }
  erewrite list_fmap_ext.
  2:{ intros i a _. instantiate (1 := λ a,
        share poll v a
        + (if decide (opt_poll_id a.2 = poll) then Z.of_nat (hits a.1 l) else 0)).
      simpl. unfold share. rewrite hits_cons. case_decide; lia. }
  rewrite sum_pointwise, IH, sum_share, filter_cons.
  destruct (m !! vote_option_id v) as [o|]; [|by rewrite decide_False].
  case_decide as Hown.
  - rewrite decide_True by by apply bool_decide_eq_true.
    simpl. lia.
  - rewrite decide_False; [lia|]. by rewrite bool_decide_eq_false_2.
Qed.

Lemma tallied_total_rows (st : DB) (poll : str) (p : Poll) :
  tallied st poll → polls st !! poll = Some p →
  total_votes p = Z.of_nat (poll_rows st poll).
Proof.
  intros [Htot Hcnt Hopt Hpl] Hp.
  destruct Htot as (p' & Hp' & Hsum). assert (p' = p) as -> by congruence.
  rewrite Hsum, sum_option_votes_weight.
  erewrite list_fmap_ext.
  2:{ intros i [k o] Hko%list_elem_of_lookup_2%elem_of_map_to_list.
      instantiate (1 := λ a,
        if decide (opt_poll_id a.2 = poll)
        then Z.of_nat (hits a.1 (votes st)) else 0).
      unfold weight. simpl. case_decide as Hown; [|done].
      by rewrite (Hcnt k o Hko Hown). }
  rewrite sum_hits. unfold poll_rows. do 2 f_equal.
  apply list_filter_iff_elem. intros v Hv.
  destruct (poll_options st !! vote_option_id v) as [o|] eqn:Ho.
  - rewrite bool_decide_eq_true. split.
    + intros Hown. by apply (Hpl v o).
    + intros Hvp. destruct (Hopt v Hv Hvp) as (o' & Ho' & Hown). congruence.
  - split; [done|]. intros Hvp.
    destruct (Hopt v Hv Hvp) as (o' & Ho' & _). congruence.
Qed.

(** *** The operations one by one *)

Lemma is_poll_creator_spec (creator_tokens : gmap string str)
    (poll_id : str) (poll : Poll) :
  is_poll_creator sha256_hexdigest creator_tokens poll_id poll = true ↔
  ∃ token, creator_tokens !! poll_id = Some token ∧ token ≠ ""
           ∧ hash_creator_token sha256_hexdigest token
             = creator_token_hash poll.
Proof.
  unfold is_poll_creator. split.
  - destruct (creator_tokens !! poll_id) as [[|c t]|]; [done| |done].
    intros Heq%bool_decide_eq_true. by exists (String c t).
  - intros (token & -> & Hne & Hhash). destruct token as [|c t]; [done|].
    by apply bool_decide_eq_true.
Qed.

(** X21. Managing a poll needs the creator token or the owner's account.
    A session that is not the owner's, and that stores under the poll's
    identifier no token, the empty token, or a token whose hash is not the
    poll's [creator_token_hash], is answered 403 "Unauthorized" by the
    routes [close], [reopen] and [delete], and the store stays as it is.
    A session that stores a token that is not empty and whose hash is the
    poll's [creator_token_hash], and the owner whatever the session
    stores, are let through: the poll is closed, reopened, deleted. *)
Theorem management_needs_creator_rights (st : DB)
    (creator_tokens : gmap string str) (poll_id : str) (p : Poll)
    (now : Z) (ajax authenticated : bool) :
  polls st !! poll_id = Some p →
  ((∀ token, creator_tokens !! poll_id = Some token → token ≠ "" →
      hash_creator_token sha256_hexdigest token ≠ creator_token_hash p) →
   close_poll_route sha256_hexdigest st creator_tokens false poll_id
   = (JsonError "Unauthorized" 403, st)
   ∧ reopen_poll_route sha256_hexdigest st creator_tokens false poll_id now
     = (JsonError "Unauthorized" 403, st)
   ∧ delete_poll_route sha256_hexdigest st creator_tokens false ajax
       authenticated poll_id
     = (Ok (JsonError "Unauthorized" 403), st))
  ∧ ∀ owner,
      owner = true
      ∨ (∃ token, creator_tokens !! poll_id = Some token ∧ token ≠ ""
                  ∧ hash_creator_token sha256_hexdigest token
                    = creator_token_hash p) →
      close_poll_route sha256_hexdigest st creator_tokens owner poll_id
      = (JsonSuccess (Some "Poll closed"), close_poll st poll_id)
      ∧ (reopen_poll_route sha256_hexdigest st creator_tokens owner poll_id
           now).1
        = JsonSuccess (Some "Poll reopened")
      ∧ (delete_poll_route sha256_hexdigest st creator_tokens owner ajax
           authenticated poll_id).1
        ≠ Ok (JsonError "Unauthorized" 403).
Proof.
  intros Hp. split.
  - intros Htok.
    assert (Hun : unauthorized sha256_hexdigest creator_tokens false poll_id p
                  = true).
    { unfold unauthorized.
      destruct (is_poll_creator _ _ _ _) eqn:Hc; [|done].
      apply is_poll_creator_spec in Hc as (token & Hstored & Hne & Hhash).
      by destruct (Htok token Hstored Hne). }
    unfold close_poll_route, reopen_poll_route, delete_poll_route.
    by rewrite Hp, Hun.
  - intros owner Hrights.
    assert (Hun : unauthorized sha256_hexdigest creator_tokens owner poll_id p
                  = false).
    { unfold unauthorized. destruct Hrights as [-> | Hheld].
      - apply andb_false_r.
      - apply is_poll_creator_spec in Hheld. by rewrite Hheld. }
    unfold close_poll_route, reopen_poll_route, delete_poll_route.
    rewrite Hp, Hun. split; [done|]. split; [done|].
    destruct (delete_poll st poll_id); [|done].
    by destruct ajax, authenticated.
Qed.

Lemma length_filter_delete (poll : str) (m : gmap Z PollOption) (k : Z)
    (o : PollOption) :
  m !! k = Some o → opt_poll_id o = poll →
  length (filter (λ a : Z * PollOption, opt_poll_id a.2 = poll)
            (map_to_list m))
  = S (length (filter (λ a : Z * PollOption, opt_poll_id a.2 = poll)
                 (map_to_list (delete k m)))).
Proof.
  intros Hk Hown.
  rewrite <- (map_to_list_delete m k o Hk), filter_cons.
  by rewrite decide_True.
Qed.

Lemma length_filter_insert (poll : str) (m : gmap Z PollOption) (k : Z)
    (o : PollOption) :
  m !! k = None → opt_poll_id o = poll →
  length (filter (λ a : Z * PollOption, opt_poll_id a.2 = poll)
            (map_to_list (<[k := o]> m)))
  = S (length (filter (λ a : Z * PollOption, opt_poll_id a.2 = poll)
                 (map_to_list m))).
Proof.
  intros Hk Hown.
  rewrite (map_to_list_insert m k o Hk), filter_cons.
  by rewrite decide_True.
Qed.

(** X22. Deleting an option.  When the route [delete_poll_option] answers
    with success on a consistent store, the caller is the owner, the
    option was one of at least three of the poll, and afterwards the poll
    has one option fewer, hence at least two; the option's row and the
    votes for it are gone and no other option or vote has changed; the
    poll's total is smaller by exactly the option's count; and the store
    is consistent again. *)
Theorem option_deletion_keeps_the_tally (st st' : DB) (owner : bool)
    (poll_id : str) (option_id : Z) (message : option str) :
  consistent st →
  delete_poll_option st owner poll_id option_id = (JsonSuccess message, st') →
  ∃ poll o,
    owner = true
    ∧ polls st !! poll_id = Some poll
    ∧ poll_options st !! option_id = Some o
    ∧ opt_poll_id o = poll_id
    ∧ (3 ≤ length (options_of st poll_id))%nat
    ∧ length (options_of st poll_id) = S (length (options_of st' poll_id))
    ∧ poll_options st' = delete option_id (poll_options st)
    ∧ votes st' = filter (λ v, vote_option_id v ≠ option_id) (votes st)
    ∧ polls st' !! poll_id
      = Some (set_total_votes poll (total_votes poll - vote_count o))
    ∧ (∀ q, q ≠ poll_id → polls st' !! q = polls st !! q)
    ∧ consistent st'.
Proof.
  intros Hc Hdel.
  pose proof (delete_poll_option_consistent st owner poll_id option_id Hc)
    as Hc'.
  rewrite Hdel in Hc'. simpl in Hc'. revert Hdel. unfold delete_poll_option.
  destruct (polls st !! poll_id) as [poll|] eqn:Hp; [|done].
  destruct (poll_options st !! option_id) as [o|] eqn:Ho; [|done].
  destruct owner; [|done]. simpl.
  case_bool_decide as Hown; [done|].
  assert (Hown' : opt_poll_id o = poll_id)
    by by destruct (decide (opt_poll_id o = poll_id)).
  destruct (length (options_of st poll_id) <=? 2)%nat eqn:Hlen; [done|].
  apply Nat.leb_gt in Hlen. intros [= _ <-].
  exists poll, o. simpl.
  split; [done|]. split; [done|]. split; [done|]. split; [done|].
  split; [lia|]. split.
  { rewrite !length_options_of. simpl. by apply (length_filter_delete _ _ _ o). }
  split; [done|]. split; [done|]. split.
  { rewrite lookup_insert_eq. do 2 f_equal.
    destruct Hc as [_ _ Ht].
    pose proof (Ht poll_id (mk_is_Some _ _ Hp)) as Htp.
    pose proof (tallied_counts_nonneg st poll_id Htp) as Hnn.
    destruct Htp as [(p' & Hp' & Hsum) _ _ _].
    assert (p' = poll) as -> by congruence.
    rewrite sum_option_votes_weight in Hsum.
    assert (Hrest : 0 ≤ foldr Z.add 0
              (weight poll_id
                 <$> map_to_list (delete option_id (poll_options st)))).
    { apply sum_weight_nonneg, Forall_forall.
      intros [k ok] [_ Hk]%elem_of_map_to_list%lookup_delete_Some.
      rewrite Forall_forall in Hnn. apply Hnn. by apply elem_of_map_to_list. }
    rewrite (sum_weight_delete poll_id _ _ _ Ho) in Hrest.
    unfold weight in Hrest at 2. simpl in Hrest.
    rewrite decide_True in Hrest by done. lia. }
  split; [|done]. intros q Hq. by rewrite lookup_insert_ne.
Qed.

Lemma max_display_order_ge (first : Z * PollOption)
    (rest : list (Z * PollOption)) (a : Z * PollOption) :
  a ∈ first :: rest →
  display_order a.2 ≤ max_display_order first rest.
Proof.
  unfold max_display_order.
  assert (Hmono : ∀ (l : list (Z * PollOption)) m,
            m ≤ foldl (λ m a, Z.max m (display_order a.2)) m l).
  { induction l as [|b l IH]; intros m; simpl; [lia|].
    etrans; [|apply IH]. lia. }
  assert (Hin : ∀ (l : list (Z * PollOption)) m, a ∈ l →
            display_order a.2
            ≤ foldl (λ m a, Z.max m (display_order a.2)) m l).
  { induction l as [|b l IH]; intros m Hel; [by apply elem_of_nil in Hel|].
    simpl. apply elem_of_cons in Hel as [->|Hel]; [|by apply IH].
    etrans; [|apply Hmono]. lia. }
  intros [->|Hel]%elem_of_cons; [apply Hmono|by apply Hin].
Qed.

(** X23. Adding an option.  When [add_option] returns a new option, its
    row is the only change of the store: it has the key the database
    assigned, no votes, the sanitized text, which is not empty, has at
    most 200 characters and differs, letter case apart, from the text of
    every option the poll had, and a display order after all of them.
    The poll had fewer than ten options and has one more now.  On a
    consistent store with the poll in it, the store is consistent again. *)
Theorem added_option_is_new_last_and_unvoted (st st' : DB) (new_id : Z)
    (poll text : str) (id : Z) (new_option : PollOption) :
  add_option bleach_clean strip lower st new_id poll text
  = (Ok (Added id new_option), st') →
  id = new_id
  ∧ poll_options st !! id = None
  ∧ poll_options st' = <[id := new_option]> (poll_options st)
  ∧ polls st' = polls st
  ∧ votes st' = votes st
  ∧ opt_poll_id new_option = poll
  ∧ vote_count new_option = 0
  ∧ option_text new_option = sanitize_text bleach_clean strip (Some text)
  ∧ option_text new_option ≠ ""
  ∧ (len (option_text new_option) ≤ 200)%nat
  ∧ (∀ k o, (k, o) ∈ options_of st poll →
       display_order o < display_order new_option
       ∧ lower (option_text o) ≠ lower (option_text new_option))
  ∧ (length (options_of st poll) < 10)%nat
  ∧ length (options_of st' poll) = S (length (options_of st poll))
  ∧ (is_Some (polls st !! poll) → consistent st → consistent st').
Proof.
  intros Hadd.
  pose proof (add_option_consistent st new_id poll text) as Hcons.
  rewrite Hadd in Hcons. simpl in Hcons. revert Hadd. unfold add_option.
  destruct (bool_decide _ || _) eqn:Htext; [done|].
  apply orb_false_iff in Htext as [Hne%bool_decide_eq_false Hlen%Nat.ltb_ge].
  destruct (10 <=? _)%nat eqn:Hten; [done|]. apply Nat.leb_gt in Hten.
  destruct (existsb _ _) eqn:Hdup; [done|].
  destruct (insert_option _ _ _) as [st1|e] eqn:Hins; [|done].
  intros [= <- <- <-].
  apply insert_option_store in Hins as [Hfresh ->]. simpl.
  repeat (split; [done|]). split.
  { intros k o Hko. split.
    - destruct (options_of st poll) as [|first rest] eqn:Hopts;
        [by apply elem_of_nil in Hko|].
      pose proof (max_display_order_ge first rest (k, o) Hko). simpl in *. lia.
    - intros Heq. apply not_true_iff_false in Hdup. apply Hdup.
      apply existsb_exists. exists (k, o).
      split; [by apply list_elem_of_In|]. by apply bool_decide_eq_true. }
  split; [done|]. split; [|done].
  rewrite !length_options_of. simpl. by apply length_filter_insert.
Qed.

Lemma length_filter_none {A} (P : A → Prop) `{!∀ x, Decision (P x)}
    (l : list A) :
  (∀ x, x ∈ l → ¬ P x) → length (filter P l) = 0%nat.
Proof.
  induction l as [|x l IH]; intros Hno; [done|].
  rewrite filter_cons, decide_False by (apply Hno; by left).
  apply IH. intros y Hy. apply Hno. by right.
Qed.

Lemma size_filter_split {A} (P : string * A → Prop)
    `{!∀ a, Decision (P a)} (m : gmap string A) :
  (size (filter (λ a, ¬ P a) m) + length (filter P (map_to_list m)))%nat
  = size m.
Proof.
  induction m as [|k x m Hk IH] using map_ind.
  { by rewrite map_filter_empty, map_to_list_empty, map_size_empty. }
  rewrite (map_to_list_insert m k x Hk), filter_cons.
  rewrite map_size_insert_None by done.
  destruct (decide (P (k, x))) as [HP|HP].
  - rewrite map_filter_insert_not'; [simpl; lia|by intros Hn; apply Hn|].
    intros y Hy. congruence.
  - rewrite map_filter_insert_True by done.
    rewrite map_size_insert_None; [lia|].
    rewrite map_lookup_filter_None. by left.
Qed.

Lemma insert_options_store (new_id : nat → Z) (rows : list PollOption) :
  ∀ (st st' : DB) (k : nat),
    insert_options st new_id k rows = Ok st' →
    polls st' = polls st
    ∧ votes st' = votes st
    ∧ (∀ j o, poll_options st !! j = Some o → poll_options st' !! j = Some o)
    ∧ (∀ j o, poll_options st' !! j = Some o →
              poll_options st !! j = Some o ∨ o ∈ rows).
Proof.
  induction rows as [|o rows IH]; intros st st' k; simpl.
  { intros [= <-]. repeat split; auto. }
  destruct (insert_option st (new_id k) o) as [st1|e] eqn:Hins; [|done].
  intros Hrest. apply insert_option_store in Hins as [Hfresh ->].
  destruct (IH _ _ _ Hrest) as (Hp & Hv & Hkeep & Hnew).
  split; [done|]. split; [done|]. split.
  - intros j oj Hj. apply Hkeep. simpl. rewrite lookup_insert_ne; [done|].
    intros <-. congruence.
  - intros j oj Hj. destruct (Hnew j oj Hj) as [Hold|Hin].
    + simpl in Hold. apply lookup_insert_Some in Hold as [[_ <-]|[_ Hold]].
      * right. by left.
      * by left.
    + right. by right.
Qed.

Lemma expiry_of_later (expiration : option str) (now expires : Z) :
  expiry_of expiration now = Some expires → now < expires.
Proof.
  unfold expiry_of, HOUR, DAY. repeat case_decide; intros [= <-]; lia.
Qed.

(** X24. Creating a poll.  When the route [create] succeeds, the new
    poll's identifier has sixteen characters and passes the format check,
    no poll had it before, and the session that created the poll is
    recognised as its creator.  The poll starts open, with a total of
    zero and no vote row, and is active at the moment of creation; its
    expiry, if any, lies in the future.  The other polls and all votes
    are untouched, and a consistent store stays consistent. *)
Theorem created_poll_is_valid_owned_and_open (st st' : DB)
    (creator_tokens creator_tokens' : gmap string str)
    (tok_id tok_creator : bytes) (now : Z) (new_id : nat → Z)
    (form_data : FormData) (poll_id : str) :
  length tok_id = 16%nat → tok_creator ≠ [] →
  create_poll_route sha256_hexdigest bleach_clean strip st creator_tokens
    tok_id tok_creator now new_id form_data
  = (Ok poll_id, creator_tokens', st') →
  ∃ p,
    polls st !! poll_id = None
    ∧ polls st' !! poll_id = Some p
    ∧ String.length poll_id = 16%nat
    ∧ is_valid_poll_id poll_id = true
    ∧ is_poll_creator sha256_hexdigest creator_tokens' poll_id p = true
    ∧ is_closed p = false
    ∧ total_votes p = 0
    ∧ question p = sanitize_text bleach_clean strip (form_question form_data)
    ∧ allow_vote_change p = form_allow_vote_change form_data
    ∧ expires_at p = expiry_of (form_expiration form_data) now
    ∧ is_active p now = true
    ∧ (∀ q, q ≠ poll_id → polls st' !! q = polls st !! q)
    ∧ (∀ q, q ≠ poll_id → creator_tokens' !! q = creator_tokens !! q)
    ∧ votes st' = votes st
    ∧ (consistent st → consistent st' ∧ poll_rows st' poll_id = 0%nat).
Proof.
  intros Hlen Htok. unfold create_poll_route.
  pose proof (create_poll_consistent st tok_id tok_creator now new_id
                form_data) as Hcons.
  destruct (create_poll _ _ _ st tok_id tok_creator now new_id form_data)
    as [[[pid token]|e] st1] eqn:Hcreate; [|done].
  intros [= -> <- ->]. simpl in Hcons.
  apply create_poll_cases in Hcreate
    as [[_ [e He]]|(pid & tk & [= <- <-] & Hid & Htk & Hp & Hins)]; [done|].
  apply insert_options_store in Hins as (Hpolls & Hvotes & _ & _).
  simpl in Hpolls, Hvotes.
  destruct (generate_poll_id_well_formed 16 tok_id Hlen ltac:(lia))
    as (pid & Hid' & Hlen' & Hwf).
  rewrite length_list_ascii_of_string in Hlen'.
  assert (Hvalid : is_valid_poll_id pid = true).
  { apply is_valid_poll_id_spec. by left. }
  assert (pid = poll_id) as -> by congruence.
  destruct (token_urlsafe_digits tok_creator) as (digits & Ht & _ & _ & Hd).
  unfold generate_creator_token in Htk.
  assert (token = string_of_list_ascii digits) as Htoken by congruence.
  assert (Hne : ∃ c t, token = String c t).
  { specialize (Hd Htok). rewrite Htoken. destruct digits; [done|]. simpl. eauto. }
  destruct Hne as (c & t & Hct).
  eexists. split; [done|]. split.
  { rewrite Hpolls. apply lookup_insert_eq. }
  split; [done|]. split; [done|]. split.
  { unfold is_poll_creator. rewrite lookup_insert_eq, Hct. simpl.
    by apply bool_decide_eq_true. }
  repeat (split; [done|]). split.
  { unfold is_active, is_expired. simpl.
    destruct (expiry_of _ _) as [expires|] eqn:Hexp; [|done].
    apply expiry_of_later in Hexp. rewrite bool_decide_eq_false_2; [done|lia]. }
  split. { intros q Hq. rewrite Hpolls. by apply lookup_insert_ne. }
  split. { intros q Hq. by apply lookup_insert_ne. }
  split; [done|].
  intros Hc. split; [by apply Hcons|].
  destruct Hc as [[_ H2 _] _ _]. unfold poll_rows. rewrite Hvotes.
  apply length_filter_none.
  intros v Hv Hvp. destruct (H2 v Hv) as [p' Hp']. congruence.
Qed.

Lemma delete_polls_lookups (st st' : DB) (doomed : list str) :
  delete_polls st doomed = Ok st' →
  (∀ q p, polls st' !! q = Some p ↔ polls st !! q = Some p ∧ q ∉ doomed)
  ∧ (∀ k o, poll_options st' !! k = Some o ↔
            poll_options st !! k = Some o ∧ opt_poll_id o ∉ doomed)
  ∧ votes st' = filter (λ v, vote_poll_id v ∉ doomed) (votes st).
Proof.
  intros ->%delete_polls_store. simpl. split; [|split; [|done]].
  - intros q p. by rewrite map_lookup_filter_Some.
  - intros k o. by rewrite map_lookup_filter_Some.
Qed.

(** X25. Deleting a poll.  On a consistent store [delete_poll] does not
    fail; it removes the poll's row, its options and its votes and
    nothing else, the store stays consistent, and from then on the voting
    route answers 404 for the poll. *)
Theorem deleted_poll_leaves_no_rows (st : DB) (poll_id : str) :
  consistent st →
  ∃ st',
    delete_poll st poll_id = Ok st'
    ∧ polls st' = delete poll_id (polls st)
    ∧ (∀ k o, poll_options st' !! k = Some o ↔
              poll_options st !! k = Some o ∧ opt_poll_id o ≠ poll_id)
    ∧ votes st' = filter (λ v, vote_poll_id v ≠ poll_id) (votes st)
    ∧ consistent st'
    ∧ ∀ option_id session_id now,
        cast_vote sha256_hexdigest st' poll_id option_id session_id now
        = (NotFound, st').
Proof.
  intros Hc. destruct (delete_polls_succeeds st [poll_id] Hc) as [st' Hdel].
  exists st'. split; [done|].
  destruct (delete_polls_lookups _ _ _ Hdel) as (Hpolls & Hopts & Hvotes).
  assert (Hnot : ∀ q : str, q ∉ [poll_id] ↔ q ≠ poll_id).
  { intros q. by rewrite list_elem_of_singleton. }
  assert (Hp : polls st' = delete poll_id (polls st)).
  { apply map_eq. intros q. apply option_eq. intros p.
    rewrite Hpolls, lookup_delete_Some, Hnot.
    split; intros [? ?]; by split. }
  split; [done|]. split.
  { intros k o. by rewrite Hopts, Hnot. }
  split.
  { rewrite Hvotes. apply list_filter_iff. intros v. apply Hnot. }
  split; [by eapply delete_polls_consistent|].
  intros option_id session_id now. unfold cast_vote, get_poll.
  by rewrite Hp, lookup_delete_eq.
Qed.

Lemma expired_polls_elem (st : DB) (now : Z) (q : str) :
  q ∈ (expired_polls st now).*1 ↔
  ∃ p, polls st !! q = Some p ∧ is_expired p now = true.
Proof.
  unfold expired_polls. rewrite list_elem_of_fmap. split.
  - intros ([q' p] & -> & [Hexp Hin%elem_of_map_to_list]%list_elem_of_filter).
    simpl in *. exists p. split; [done|]. unfold is_expired.
    destruct (expires_at p) as [e|]; [|done].
    apply bool_decide_eq_true in Hexp. apply bool_decide_eq_true. lia.
  - intros (p & Hp & Hexp). exists (q, p). split; [done|].
    apply list_elem_of_filter. split; [|by apply elem_of_map_to_list].
    simpl. unfold is_expired in Hexp. destruct (expires_at p) as [e|]; [|done].
    apply bool_decide_eq_true in Hexp. apply bool_decide_eq_true. lia.
Qed.

(** X26. The cleanup removes exactly the expired polls.  On a consistent
    store [cleanup_expired_polls] does not fail and returns the number of
    polls that it removes; the polls that remain are those that
    [is_expired] does not hold for, each with its row, its options and
    its votes as before, so that no poll that is still active is lost;
    and the store stays consistent. *)
Theorem cleanup_removes_exactly_the_expired (st : DB) (now : Z) :
  consistent st →
  ∃ count st',
    cleanup_expired_polls st now = (Ok count, st')
    ∧ (∀ q p, polls st' !! q = Some p ↔
              polls st !! q = Some p ∧ is_expired p now = false)
    ∧ (∀ q p, polls st !! q = Some p → is_active p now = true →
              polls st' !! q = Some p
              ∧ (∀ k o, opt_poll_id o = q →
                        poll_options st' !! k = Some o ↔
                        poll_options st !! k = Some o)
              ∧ poll_rows st' q = poll_rows st q)
    ∧ Z.of_nat (size (polls st)) = Z.of_nat (size (polls st')) + count
    ∧ consistent st'.
Proof.
  intros Hc. unfold cleanup_expired_polls.
  destruct (delete_polls_succeeds st ((expired_polls st now).*1) Hc)
    as [st' Hdel].
  rewrite Hdel. eexists _, st'. split; [done|].
  destruct (delete_polls_lookups _ _ _ Hdel) as (Hpolls & Hopts & Hvotes).
  assert (Hkeep : ∀ q p, polls st !! q = Some p →
            q ∉ (expired_polls st now).*1 ↔ is_expired p now = false).
  { intros q p Hp. rewrite expired_polls_elem. split.
    - intros Hno. destruct (is_expired p now) eqn:He; [|done].
      destruct Hno. eauto.
    - intros He (p' & Hp' & He'). congruence. }
  assert (Hrows : ∀ q p, polls st' !! q = Some p ↔
            polls st !! q = Some p ∧ is_expired p now = false).
  { intros q p. rewrite Hpolls. split; intros [Hp H]; (split; [done|]);
      by apply (Hkeep q p Hp). }
  split; [done|]. split; [|split; [|by eapply delete_polls_consistent]].
  - intros q p Hp [_ Hexp%negb_true_iff]%andb_true_iff.
    assert (Hq : q ∉ (expired_polls st now).*1) by by apply (Hkeep q p Hp).
    split; [by apply Hrows|]. split.
    + intros k o Hown. rewrite Hopts, Hown.
      split; [by intros [? _]|by intros ?; split].
    + unfold poll_rows. rewrite Hvotes, list_filter_filter. f_equal.
      apply list_filter_iff. intros v. split; [by intros [? _]|].
      intros Hv. split; [done|]. by rewrite Hv.
  - rewrite <- Nat2Z.inj_add. f_equal.
    rewrite <- (size_filter_split
                  (λ a : str * Poll,
                     match expires_at a.2 with
                     | Some expires => bool_decide (expires < now)
                     | None => false
                     end = true) (polls st)).
    fold (expired_polls st now). f_equal. f_equal.
    rewrite (delete_polls_store _ _ _ Hdel). simpl.
    apply map_filter_strong_ext. intros q p. simpl.
    split; intros [Hin Hp]; (split; [|done]).
    + apply (Hkeep q p Hp). unfold is_expired.
      destruct (expires_at p) as [e|]; [|done].
      apply not_true_iff_false, bool_decide_eq_false in Hin.
      apply bool_decide_eq_false. lia.
    + apply (Hkeep q p Hp) in Hin. unfold is_expired in Hin.
      destruct (expires_at p) as [e|]; [|done].
      apply bool_decide_eq_false in Hin. rewrite bool_decide_eq_false_2; [done|lia].
Qed.

(** X27. The statistics count a poll as active only strictly before its
    expiry.  [get_poll_stats] counts all polls, and as active those that
    are not closed and have no expiry or one that lies strictly after the
    present moment: these are the polls that [is_active] holds for, less
    those that expire at this very moment, which [is_active] still
    accepts votes for.  The count of active polls is hence at most the
    number of polls that are active, which is at most the total. *)
Theorem stats_count_active_polls (st : DB) (now : Z) :
  let stats := get_poll_stats st now in
  let active := filter (λ a : str * Poll, is_active a.2 now = true)
                  (map_to_list (polls st)) in
  total_polls stats = Z.of_nat (size (polls st))
  ∧ active_polls stats
    = Z.of_nat (length (filter (λ a : str * Poll, expires_at a.2 ≠ Some now)
                          active))
  ∧ 0 ≤ active_polls stats ≤ Z.of_nat (length active)
  ∧ Z.of_nat (length active) ≤ total_polls stats.
Proof.
  simpl. split; [by rewrite length_map_to_list|].
  assert (Heq : filter (λ a : str * Poll,
                   is_closed a.2 = false
                   ∧ match expires_at a.2 with
                     | None => true
                     | Some expires => bool_decide (expires > now)
                     end = true) (map_to_list (polls st))
                = filter (λ a : str * Poll, expires_at a.2 ≠ Some now)
                    (filter (λ a : str * Poll, is_active a.2 now = true)
                       (map_to_list (polls st)))).
  { rewrite list_filter_filter. apply list_filter_iff. intros [q p]. simpl.
    unfold is_active, is_expired.
    destruct (is_closed p); simpl; [split; intros [? ?]; done|].
    destruct (expires_at p) as [e|]; simpl; [|split; intros _; by split].
    rewrite negb_true_iff, bool_decide_eq_true, bool_decide_eq_false.
    split.
    - intros [_ He]. split; [|lia]. intros [= ->]. lia.
    - intros [He Hle]. split; [done|].
      destruct (decide (e = now)) as [->|]; [done|lia]. }
  rewrite Heq. split; [done|].
  pose proof (length_filter (λ a : str * Poll, expires_at a.2 ≠ Some now)
                (filter (λ a : str * Poll, is_active a.2 now = true)
                   (map_to_list (polls st)))) as H1.
  pose proof (length_filter (λ a : str * Poll, is_active a.2 now = true)
                (map_to_list (polls st))) as H2.
  lia.
Qed.

(** X28. Editing a poll.  [edit_poll] replaces the question by the
    sanitized text of the form and the vote-change setting by the form's,
    and leaves the closure, the total, the creator's hash, the encrypted
    question and every option and vote as they are.  The expiry is kept
    for the choice [current] and for every value that is none of the
    known choices, cleared for [never], and otherwise set to a moment
    after the present one, at which the poll has not expired. *)
Theorem edit_keeps_votes_and_closure (st : DB) (poll : str) (p : Poll)
    (now : Z) (form_data : FormData) :
  polls st !! poll = Some p →
  let st' := edit_poll bleach_clean strip st poll now form_data in
  ∃ p',
    polls st' !! poll = Some p'
    ∧ question p' = sanitize_text bleach_clean strip (form_question form_data)
    ∧ allow_vote_change p' = form_allow_vote_change form_data
    ∧ is_closed p' = is_closed p
    ∧ total_votes p' = total_votes p
    ∧ creator_token_hash p' = creator_token_hash p
    ∧ question_encrypted p' = question_encrypted p
    ∧ is_encrypted p' = is_encrypted p
    ∧ (form_expiration form_data = Some "never" → expires_at p' = None)
    ∧ (form_expiration form_data
         ∉ [Some "never"; Some "1h"; Some "24h"; Some "7d"; Some "30d"] →
       expires_at p' = expires_at p)
    ∧ (form_expiration form_data
         ∈ [Some "1h"; Some "24h"; Some "7d"; Some "30d"] →
       expires_at p' = expiry_of (form_expiration form_data) now
       ∧ is_expired p' now = false)
    ∧ (∀ q, q ≠ poll → polls st' !! q = polls st !! q)
    ∧ poll_options st' = poll_options st
    ∧ votes st' = votes st
    ∧ (consistent st → consistent st').
Proof.
  intros Hp. simpl. unfold edit_poll. simpl.
  rewrite lookup_alter_eq, Hp. simpl. eexists. split; [done|]. simpl.
  repeat (split; [done|]). split; [|split; [|split; [|split]]].
  - intros ->. done.
  - intros Hnot. rewrite !not_elem_of_cons in Hnot.
    destruct Hnot as (? & ? & ? & ? & ? & _). by repeat case_decide.
  - intros Hin. rewrite !elem_of_cons in Hin.
    destruct Hin as [-> | [-> | [-> | [-> | Hin]]]];
      [| | | |by apply elem_of_nil in Hin];
      (split; [done|]); unfold is_expired, HOUR, DAY; simpl;
      apply bool_decide_eq_false; lia.
  - intros q Hq. by rewrite lookup_alter_ne.
  - split; [done|]. split; [done|]. by apply edit_poll_consistent.
Qed.

(** X29. The store of the site is always consistent.  Starting without
    any row, after any sequence of requests (polls created, votes cast or
    changed, polls closed, reopened, edited or deleted, options added or
    deleted, expired polls cleaned up) no voter has two vote rows in one
    poll, and for every poll the total equals the sum of the counts of
    its options and the number of its vote rows, and the count of every
    option equals the number of vote rows that point at it. *)
Theorem site_tallies_agree_with_rows (requests : list (Z * Operation)) :
  let st := history sha256_hexdigest bleach_clean strip lower empty_db
              requests in
  votes_unique st
  ∧ ∀ poll p, polls st !! poll = Some p →
      total_votes p = sum_option_votes st poll
      ∧ total_votes p = Z.of_nat (poll_rows st poll)
      ∧ ∀ k o, poll_options st !! k = Some o → opt_poll_id o = poll →
               vote_count o = Z.of_nat (rows_for st k).
Proof.
  simpl.
  pose proof (history_consistent empty_db requests empty_db_consistent)
    as [_ Hu Ht].
  split; [done|]. intros poll p Hp.
  pose proof (Ht poll (mk_is_Some _ _ Hp)) as Htp.
  split; [|split].
  - destruct Htp as [(p' & Hp' & Hsum) _ _ _]. congruence.
  - by apply tallied_total_rows.
  - by destruct Htp.
Qed.

(** *** The options of a new poll *)

Lemma sorted_perm_eq {A} (f : A → Z) (l1 l2 : list A) :
  l1 ≡ₚ l2 →
  StronglySorted (λ a b, f a ≤ f b) l1 →
  StronglySorted (λ a b, f a < f b) l2 →
  l1 = l2.
Proof.
  revert l1. induction l2 as [|x l2 IH]; intros l1 Hperm H1 H2.
  { by apply Permutation_nil_r in Hperm. }
  destruct l1 as [|y l1]; [by apply Permutation_nil_cons in Hperm|].
  apply StronglySorted_inv in H1 as [H1 Hy].
  apply StronglySorted_inv in H2 as [H2 Hx].
  rewrite Forall_forall in Hx, Hy.
  assert (y = x) as ->.
  { assert (Hyin : y ∈ x :: l2) by (rewrite <- Hperm; by left).
    assert (Hxin : x ∈ y :: l1) by (rewrite Hperm; by left).
    apply elem_of_cons in Hyin as [->|Hyin]; [done|].
    apply elem_of_cons in Hxin as [->|Hxin]; [done|].
    specialize (Hx y Hyin). specialize (Hy x Hxin). lia. }
  f_equal. apply IH; [|done|done]. by apply Permutation_cons_inv in Hperm.
Qed.

Lemma insert_options_rows (poll : str) (new_id : nat → Z)
    (rows : list PollOption) :
  ∀ (st st' : DB) (k : nat),
    insert_options st new_id k rows = Ok st' →
    Forall (λ o, opt_poll_id o = poll) rows →
    (filter (λ a : Z * PollOption, opt_poll_id a.2 = poll)
       (map_to_list (poll_options st'))).*2
    ≡ₚ (filter (λ a : Z * PollOption, opt_poll_id a.2 = poll)
          (map_to_list (poll_options st))).*2 ++ rows.
Proof.
  induction rows as [|o rows IH]; intros st st' k; simpl.
  { intros [= <-] _. by rewrite app_nil_r. }
  destruct (insert_option st (new_id k) o) as [st1|e] eqn:Hins; [|done].
  intros Hrest [Hown Hall]%Forall_cons.
  apply insert_option_store in Hins as [Hfresh ->].
  rewrite (IH _ _ _ Hrest Hall). simpl.
  rewrite (map_to_list_insert _ _ _ Hfresh), filter_cons.
  rewrite decide_True by done. rewrite fmap_cons. simpl.
  by rewrite Permutation_middle.
Qed.

Lemma omap_length_le {A B} (f : A → option B) (l : list A) :
  (length (omap f l) ≤ length l)%nat.
Proof.
  induction l as [|x l IH]; [done|]. csimpl. destruct (f x); simpl; lia.
Qed.

Lemma new_rows_sorted (poll_id : str) (options : list str) (n : nat) :
  let rows :=
    omap (λ a : nat * str,
            if bool_decide (a.2 ≠ "") && bool_decide (strip a.2 ≠ "")
            then Some (mkPollOption poll_id
                         (sanitize_text bleach_clean strip (Some a.2)) 0
                         (Z.of_nat a.1))
            else None)
      (imap (λ i text, ((n + i)%nat, text)) options) in
  StronglySorted (λ a b, display_order a < display_order b) rows
  ∧ Forall (λ o, Z.of_nat n ≤ display_order o) rows.
Proof.
  revert n. induction options as [|text options IH]; intros n; simpl.
  { split; constructor. }
  destruct (IH (S n)) as [Hs Hf].
  rewrite (imap_ext _ (λ i text, ((S n + i)%nat, text))).
  2:{ intros i x _. simpl. f_equal. lia. }
  destruct (_ && _); simpl.
  - split.
    + constructor; [done|]. eapply Forall_impl; [exact Hf|].
      intros o Ho. simpl in *. lia.
    + constructor; [simpl; lia|]. eapply Forall_impl; [exact Hf|].
      intros o Ho. simpl in *. lia.
  - split; [done|]. eapply Forall_impl; [exact Hf|].
    intros o Ho. simpl in *. lia.
Qed.

(** X30. The options of a new poll.  When [create_poll] succeeds on a
    store whose foreign keys hold, the options of the new poll, in the
    order in which the poll lists them, are the texts of the form that
    are neither empty nor blank, in the order of the form: each is
    sanitized, has no votes, and has its position in the form as display
    order. *)
Theorem created_poll_lists_the_form_options (st st' : DB)
    (tok_id tok_creator : bytes) (now : Z) (new_id : nat → Z)
    (form_data : FormData) (poll_id creator_token : str) :
  foreign_keys st →
  create_poll sha256_hexdigest bleach_clean strip st tok_id tok_creator now
    new_id form_data = (Ok (poll_id, creator_token), st') →
  (options_of st' poll_id).*2
  = new_options bleach_clean strip poll_id (form_options form_data)
  ∧ (∀ o, o ∈ (options_of st' poll_id).*2 ↔
          ∃ i text,
            form_options form_data !! i = Some text
            ∧ text ≠ "" ∧ strip text ≠ ""
            ∧ o = mkPollOption poll_id
                    (sanitize_text bleach_clean strip (Some text)) 0
                    (Z.of_nat i))
  ∧ (length (options_of st' poll_id) ≤ length (form_options form_data))%nat.
Proof.
  intros [H1 _ _] Hcreate.
  apply create_poll_cases in Hcreate
    as [[_ [e He]]|(pid & tk & [= <- <-] & _ & _ & Hp & Hins)]; [done|].
  assert (Heq : (options_of st' poll_id).*2
                = new_options bleach_clean strip poll_id
                    (form_options form_data)).
  { apply (sorted_perm_eq display_order).
    - unfold options_of. rewrite merge_sort_Permutation.
      rewrite (insert_options_rows poll_id _ _ _ _ _ Hins).
      2:{ eapply Forall_impl; [apply new_options_rows|]. by intros o [_ ?]. }
      simpl.
      assert (filter (λ a : Z * PollOption, opt_poll_id a.2 = poll_id)
                (map_to_list (poll_options st)) = []) as ->; [|done].
      apply nil_length_inv, length_filter_none.
      intros [k o] Hko%elem_of_map_to_list Hown. simpl in Hown.
      destruct (H1 k o Hko) as [p' Hp']. congruence.
    - apply (StronglySorted_fmap _ by_display_order); [done|].
      apply options_of_sorted.
    - apply (new_rows_sorted poll_id (form_options form_data) 0). }
  split; [done|]. split.
  - intros o. rewrite Heq. unfold new_options. rewrite list_elem_of_omap.
    split.
    + intros ([i text] & (i' & text' & [= -> ->] & Hl)%elem_of_lookup_imap & Ho).
      simpl in Ho.
      destruct (bool_decide (text' ≠ "")) eqn:Hb1; [|done].
      destruct (bool_decide (strip text' ≠ "")) eqn:Hb2; [|done].
      simpl in Ho. injection Ho as <-.
      apply bool_decide_eq_true in Hb1, Hb2. by exists i', text'.
    + intros (i & text & Hl & Hne & Hstrip & ->). exists (i, text). split.
      * apply elem_of_lookup_imap. by exists i, text.
      * simpl. by rewrite !bool_decide_eq_true_2.
  - rewrite <- (length_fmap snd), Heq. unfold new_options.
    etrans; [apply omap_length_le|]. by rewrite length_imap.
Qed.

End Consistency.

(** * The properties on the reference data and on the sample site *)

Lemma sample_site_consistent : consistent Sample.site1.
Proof.
  unfold Sample.site1, Sample.site0.
  apply history_consistent, history_consistent, empty_db_consistent.
Qed.

Lemma first_vote_counts_once_witness :
  ∃ d st',
    vote Reference.digest Reference.db0 "poll0001" 1 "S1" 50
    = Some (Ok (VoteRecorded d), st')
    ∧ count_of st' 1 = Some 1
    ∧ data_total_votes d = 1.
Proof.
  destruct (first_vote_counts_once Reference.digest Reference.db0 "poll0001"
              Reference.poll_fixed 1 (mkPollOption "poll0001" "Tea" 0 0)
              "S1" 50 eq_refl eq_refl eq_refl eq_refl)
    as (d & st' & Hv & _ & Hc & _ & _ & _ & Ht & _).
  exists d, st'. split; [exact Hv|]. split; [exact Hc|exact Ht].
Defined.

Lemma foreign_option_rejected_witness :
  vote Reference.digest Reference.db0 "poll0001" 3 "S1" 50
  = Some (Ok InvalidOption, Reference.db0).
Proof.
  apply (foreign_option_rejected Reference.digest Reference.db0 "poll0001"
           Reference.poll_fixed 3 "S1" 50 eq_refl eq_refl).
  intros o Ho. vm_compute in Ho. injection Ho as <-. discriminate.
Defined.

Lemma accepted_vote_is_shown_witness :
  voted_option_id_of Reference.digest Reference.db1 "poll0002" "S1" = Some 3
  ∧ has_voted Reference.digest Reference.db1 "poll0002" "S1" = true.
Proof.
  apply (accepted_vote_is_shown Reference.digest
           (recorded Reference.db0 "poll0001" "S1:poll0001" 1 50)
           Reference.db1 "poll0002" 3 "S1" 50 "Vote recorded"
           (Some (vote_data Reference.db1 "poll0002" 3))).
  reflexivity.
Defined.

Lemma second_vote_changes_or_is_rejected_witness :
  vote Reference.digest
    (recorded Reference.db0 "poll0001" "S1:poll0001" 1 50) "poll0001" 2 "S1" 60
  = Some (Ok AlreadyVoted,
          recorded Reference.db0 "poll0001" "S1:poll0001" 1 50).
Proof.
  apply (second_vote_changes_or_is_rejected Reference.digest Reference.db0
           (recorded Reference.db0 "poll0001" "S1:poll0001" 1 50)
           "poll0001" Reference.poll_fixed 1 2
           (mkPollOption "poll0001" "Coffee" 0 1) "S1" 50 60
           (vote_data (recorded Reference.db0 "poll0001" "S1:poll0001" 1 50)
              "poll0001" 1)
           eq_refl eq_refl eq_refl eq_refl).
  reflexivity.
Defined.

Lemma vote_leaves_other_voters_alone_witness :
  voted_option_id_of Reference.digest
    (changed Reference.db1 1 (mkVote "poll0002" "S1:poll0002" 3 50) 4)
    "poll0001" "S1"
  = voted_option_id_of Reference.digest Reference.db1 "poll0001" "S1".
Proof.
  apply (vote_leaves_other_voters_alone Reference.digest Reference.db1
           (changed Reference.db1 1 (mkVote "poll0002" "S1:poll0002" 3 50) 4)
           "poll0002" "poll0001" 4 "S1" "S1" 60
           (Ok (VoteChanged
                  (vote_data
                     (changed Reference.db1 1
                        (mkVote "poll0002" "S1:poll0002" 3 50) 4)
                     "poll0002" 4)))).
  - reflexivity.
  - left. discriminate.
Defined.

Lemma counters_stay_nonnegative_witness :
  counters_nonneg
    (run Reference.digest Reference.db0
       [mkRequest "poll0002" 3 "S1" 50; mkRequest "poll0002" 4 "S1" 60]).
Proof.
  apply (counters_stay_nonnegative Reference.digest Reference.db0). split.
  - assert (H : map_Forall (λ (_ : Z) (o : PollOption), 0 ≤ vote_count o)
                  (poll_options Reference.db0)).
    { apply (bool_decide_unpack _). vm_compute. exact I. }
    exact H.
  - assert (H : map_Forall (λ (_ : str) (p : Poll), 0 ≤ total_votes p)
                  (polls Reference.db0)).
    { apply (bool_decide_unpack _). vm_compute. exact I. }
    exact H.
Defined.

Lemma returned_results_are_the_poll_options_witness :
  ∃ d, Some (vote_data Reference.db1 "poll0002" 3) = Some d
       ∧ voted_option_id d = 3
       ∧ NoDup (d_id <$> results d).
Proof.
  destruct (returned_results_are_the_poll_options Reference.digest
              (recorded Reference.db0 "poll0001" "S1:poll0001" 1 50)
              Reference.db1 "poll0002" 3 "S1" 50 "Vote recorded"
              (Some (vote_data Reference.db1 "poll0002" 3)) eq_refl)
    as (d & Hd & Hv & _ & _ & Hn & _).
  exists d. split; [exact Hd|]. split; [exact Hv|exact Hn].
Defined.

Lemma encrypted_field_roundtrip_witness :
  ∃ c, encrypt_field Reference.kdf Reference.seal (Some "pepper")
         (encode "0123456789ab") "vote" "secret" = Ok c
       ∧ decrypt_field Reference.kdf Reference.open (Some "pepper") c "secret"
         = Ok "vote".
Proof.
  destruct (encrypted_field_roundtrip Reference.kdf Reference.seal
              Reference.open reference_aead_correct (Some "pepper")
              (encode "0123456789ab") "vote" "secret" eq_refl eq_refl)
    as [H _].
  exact (H eq_refl).
Defined.

Lemma question_set_then_get_witness :
  ∃ self',
    set_question Reference.kdf Reference.seal (Some "pepper")
      (encode "0123456789ab") Reference.poll_fixed "Tea or mate?"
      (Some "secret") true = Ok self'
    ∧ get_question Reference.kdf Reference.open (Some "pepper") self'
        (Some "secret") = Ok "Tea or mate?".
Proof.
  destruct (question_set_then_get Reference.kdf Reference.seal Reference.open
              reference_aead_correct (Some "pepper") (encode "0123456789ab")
              Reference.poll_fixed "Tea or mate?" "secret"
              eq_refl eq_refl eq_refl ltac:(discriminate))
    as (self' & Hs & Hg & _).
  exists self'. split; [exact Hs|exact Hg].
Defined.

Lemma plain_update_keeps_encrypted_question_witness :
  ∃ self1 self2,
    set_question Reference.kdf Reference.seal (Some "pepper")
      (encode "0123456789ab") Reference.poll_fixed "Tea or mate?"
      (Some "secret") true = Ok self1
    ∧ set_question Reference.kdf Reference.seal (Some "pepper")
        (encode "0123456789ab") self1 "Cats or dogs?" None false = Ok self2
    ∧ get_question Reference.kdf Reference.open (Some "pepper") self2
        (Some "secret") = Ok "Tea or mate?"
    ∧ get_question Reference.kdf Reference.open (Some "pepper") self2 None
      = Ok "Cats or dogs?".
Proof.
  destruct (set_question Reference.kdf Reference.seal (Some "pepper")
              (encode "0123456789ab") Reference.poll_fixed "Tea or mate?"
              (Some "secret") true) as [self1|e] eqn:Hset;
    [|vm_compute in Hset; discriminate].
  destruct (plain_update_keeps_encrypted_question Reference.kdf Reference.seal
              Reference.open reference_aead_correct (Some "pepper")
              (encode "0123456789ab") Reference.poll_fixed self1
              "Tea or mate?" "Cats or dogs?" "secret" None
              eq_refl eq_refl eq_refl ltac:(discriminate) ltac:(discriminate)
              Hset)
    as (self2 & Hs & _ & _ & Hn & Hk).
  exists self1, self2. split; [reflexivity|]. split; [exact Hs|].
  split; [exact Hk|exact Hn].
Defined.

Lemma cached_engine_is_reused_witness :
  get_encryption Reference.kdf None {[ "secret" := Reference.engine ]} "secret"
  = (Ok Reference.engine, {[ "secret" := Reference.engine ]}).
Proof.
  exact (proj2 (proj2 (cached_engine_is_reused Reference.kdf (Some "pepper")
                         ∅ {[ "secret" := Reference.engine ]} "secret"
                         (Ok Reference.engine) eq_refl)) None).
Defined.

Lemma cached_data_roundtrip_witness :
  ∃ blob instances',
    encrypt_data Reference.kdf Reference.seal (Some "pepper") ∅
      (encode "0123456789ab") "vote" "secret" = (Ok blob, instances')
    ∧ decrypt_data Reference.kdf Reference.open None instances' blob "secret"
      = (Ok "vote", instances').
Proof.
  destruct (encrypt_data Reference.kdf Reference.seal (Some "pepper") ∅
              (encode "0123456789ab") "vote" "secret")
    as [[blob|e] instances'] eqn:Henc; [|vm_compute in Henc; discriminate].
  exists blob, instances'. split; [reflexivity|].
  exact (cached_data_roundtrip Reference.kdf Reference.seal Reference.open
           reference_aead_correct (Some "pepper") None ∅ instances'
           (encode "0123456789ab") "vote" "secret" blob eq_refl eq_refl Henc).
Defined.

Lemma generated_poll_id_is_valid_witness :
  ∃ poll_id,
    generate_poll_id 16 Sample.tok_id = Ok poll_id
    ∧ is_valid_poll_id poll_id = true.
Proof.
  destruct (generated_poll_id_is_valid 16 Sample.tok_id eq_refl
              ltac:(vm_compute; lia))
    as (poll_id & Hg & _ & _ & Hv & _).
  exists poll_id. split; [exact Hg|exact Hv].
Defined.

Lemma generated_token_is_url_safe_witness :
  ∃ token, generate_creator_token Sample.tok_creator = Ok token ∧ token ≠ "".
Proof.
  destruct (generated_token_is_url_safe Sample.tok_creator
              ltac:(discriminate))
    as (token & Hg & _ & Hne & _).
  exists token. split; [exact Hg|exact Hne].
Defined.

Lemma creator_rights_follow_the_token_witness :
  is_poll_creator Reference.digest {[ "poll0001" := "c0ffee" ]} "poll0001"
    Reference.poll_fixed = true.
Proof.
  destruct (creator_rights_follow_the_token Reference.digest
              {[ "poll0001" := "c0ffee" ]} "poll0001" "c0ffee"
              Reference.poll_fixed eq_refl) as [H _].
  apply H; [reflexivity|discriminate].
Defined.

Lemma closed_poll_takes_no_votes_witness :
  vote_route Reference.digest (close_poll Sample.site1 Sample.poll_id)
    Sample.poll_id (Some 2) "S3" 30
  = (Served (Ok PollInactive), close_poll Sample.site1 Sample.poll_id)
  ∧ vote_route Reference.digest (close_poll Sample.site1 Sample.poll_id)
      Sample.poll_id (Some 0) "S3" 30
    = (BadRequest "No option selected",
       close_poll Sample.site1 Sample.poll_id)
  ∧ vote Reference.digest (close_poll Sample.site1 Sample.poll_id)
      Sample.poll_id 0 "S3" 30
    = Some (Ok PollInactive, close_poll Sample.site1 Sample.poll_id).
Proof.
  destruct (closed_poll_takes_no_votes Reference.digest Sample.site1
              (close_poll Sample.site1 Sample.poll_id) Sample.tokens false
              Sample.poll_id (Some "Poll closed") eq_refl)
    as (_ & _ & _ & _ & Hvote & H).
  split; [|split].
  - destruct (H (Some 2) "S3" 30) as (_ & _ & _ & H2).
    assert (Hk : 2 ≠ 0) by lia.
    exact (proj1 (H2 eq_refl 2 eq_refl Hk)).
  - destruct (H (Some 0) "S3" 30) as (_ & _ & H0 & _).
    exact (proj1 (H0 eq_refl (or_intror eq_refl))).
  - exact (Hvote 0 "S3" 30).
Defined.

Lemma reopened_poll_is_active_witness :
  ∃ p',
    polls (reopen_poll_route Reference.digest Sample.site1 Sample.tokens false
             Sample.poll_id 4000).2 !! Sample.poll_id = Some p'
    ∧ is_active p' 4000 = true
    ∧ expires_at p' = None.
Proof.
  destruct (reopened_poll_is_active Reference.digest Sample.site1
              (reopen_poll_route Reference.digest Sample.site1 Sample.tokens
                 false Sample.poll_id 4000).2
              Sample.tokens false Sample.poll_id 4000 (Some "Poll reopened")
              eq_refl)
    as (p & p' & Hp & Hp' & Ha & He & _).
  exists p'. split; [exact Hp'|]. split; [exact Ha|].
  rewrite He. assert (p = set_total_votes
                            (mkPoll "Tea or coffee?" None (Some 3600) true
                               false false Sample.creator_token 0) 2) as ->.
  { vm_compute in Hp. by injection Hp as <-. }
  reflexivity.
Defined.

Lemma vote_route_status_witness :
  vote_route Reference.digest Sample.site1 Sample.poll_id (Some 7) "S3" 30
  = (Served (Ok InvalidOption), Sample.site1)
  ∧ response_status
      (vote_route Reference.digest Sample.site1 Sample.poll_id (Some 7) "S3"
         30).1
    = Some 400
  ∧ vote_route Reference.digest Sample.site1 Sample.poll_id (Some 0) "S3" 30
    = (BadRequest "No option selected", Sample.site1)
  ∧ vote_route Reference.digest Sample.site1 "no such poll" (Some 1) "S3" 30
    = (BadRequest "Invalid poll ID", Sample.site1)
  ∧ vote_route Reference.digest Sample.site1 "0123456789abcdef" (Some 1) "S3"
      30
    = (NotFound, Sample.site1).
Proof.
  assert (Hk : 7 ≠ 0) by lia.
  destruct (vote_route_status Reference.digest Sample.site1 Sample.poll_id
              (Some 7) "S3" 30) as (_ & _ & H & _ & _ & H400 & _).
  destruct (H (set_total_votes
                 (mkPoll "Tea or coffee?" None (Some 3600) true false false
                    Sample.creator_token 0) 2) eq_refl eq_refl)
    as [_ H7].
  destruct (H7 7 eq_refl Hk) as (_ & Hforeign & _).
  split; [exact (Hforeign eq_refl eq_refl)|]. split.
  { apply H400. right. right. by rewrite (Hforeign eq_refl eq_refl). }
  split; [|split].
  - destruct (vote_route_status Reference.digest Sample.site1 Sample.poll_id
                (Some 0) "S3" 30) as (_ & _ & H0 & _).
    exact (proj1 (H0 _ eq_refl eq_refl) (or_intror eq_refl)).
  - destruct (vote_route_status Reference.digest Sample.site1 "no such poll"
                (Some 1) "S3" 30) as (Hinvalid & _).
    exact (Hinvalid eq_refl).
  - destruct (vote_route_status Reference.digest Sample.site1
                "0123456789abcdef" (Some 1) "S3" 30) as (_ & Hunknown & _).
    exact (Hunknown eq_refl eq_refl).
Defined.

Lemma management_needs_creator_rights_witness :
  close_poll_route Reference.digest Sample.site1
    {[ Sample.poll_id := "guess" ]} false Sample.poll_id
  = (JsonError "Unauthorized" 403, Sample.site1)
  ∧ close_poll_route Reference.digest Sample.site1 Sample.tokens false
      Sample.poll_id
    = (JsonSuccess (Some "Poll closed"),
       close_poll Sample.site1 Sample.poll_id).
Proof.
  split.
  - destruct (management_needs_creator_rights Reference.digest Sample.site1
                {[ Sample.poll_id := "guess" ]} Sample.poll_id
                (set_total_votes
                   (mkPoll "Tea or coffee?" None (Some 3600) true false false
                      Sample.creator_token 0) 2)
                30 false false eq_refl)
      as [H _].
    refine (proj1 (H _)). intros token Hstored _.
    assert (token = "guess") as ->.
    { vm_compute in Hstored. by injection Hstored as <-. }
    vm_compute. intros Heq. discriminate Heq.
  - destruct (management_needs_creator_rights Reference.digest Sample.site1
                Sample.tokens Sample.poll_id
                (set_total_votes
                   (mkPoll "Tea or coffee?" None (Some 3600) true false false
                      Sample.creator_token 0) 2)
                30 false false eq_refl)
      as [_ H].
    refine (proj1 (H false (or_intror _))).
    exists Sample.creator_token. split; [reflexivity|]. split; [|reflexivity].
    vm_compute. intros Heq. discriminate Heq.
Defined.

Lemma option_deletion_keeps_the_tally_witness :
  ∃ st', delete_poll_option Sample.site1 true Sample.poll_id 1
         = (JsonSuccess None, st')
         ∧ total_votes <$> polls st' !! Sample.poll_id = Some 1
         ∧ consistent st'.
Proof.
  destruct (delete_poll_option Sample.site1 true Sample.poll_id 1)
    as [r st'] eqn:Hdel.
  assert (r = JsonSuccess None) as ->.
  { vm_compute in Hdel. by injection Hdel as <- _. }
  destruct (option_deletion_keeps_the_tally Sample.site1 st' true
              Sample.poll_id 1 None sample_site_consistent Hdel)
    as (poll & o & _ & Hp & Ho & _ & _ & _ & _ & _ & Ht & _ & Hc).
  exists st'. split; [reflexivity|]. split; [|exact Hc].
  rewrite Ht. vm_compute in Hp, Ho.
  injection Hp as <-. injection Ho as <-. reflexivity.
Defined.

Lemma added_option_is_new_last_and_unvoted_witness :
  ∃ st' new_option,
    add_option Sample.unchanged Sample.unchanged Sample.unchanged
      Sample.site1 4 Sample.poll_id "Water"
    = (Ok (Added 4 new_option), st')
    ∧ display_order new_option = 4
    ∧ vote_count new_option = 0.
Proof.
  destruct (add_option Sample.unchanged Sample.unchanged Sample.unchanged
              Sample.site1 4 Sample.poll_id "Water")
    as [r st'] eqn:Hadd.
  assert (r = Ok (Added 4 (mkPollOption Sample.poll_id "Water" 0 4))) as ->.
  { vm_compute in Hadd. by injection Hadd as <- _. }
  destruct (added_option_is_new_last_and_unvoted Sample.unchanged
              Sample.unchanged Sample.unchanged Sample.site1 st' 4
              Sample.poll_id "Water" 4
              (mkPollOption Sample.poll_id "Water" 0 4) Hadd)
    as (_ & _ & _ & _ & _ & _ & H0 & _).
  exists st', (mkPollOption Sample.poll_id "Water" 0 4).
  split; [reflexivity|]. split; [reflexivity|exact H0].
Defined.

Lemma created_poll_is_valid_owned_and_open_witness :
  ∃ p,
    polls Sample.site0 !! Sample.poll_id = Some p
    ∧ is_valid_poll_id Sample.poll_id = true
    ∧ is_poll_creator Reference.digest Sample.tokens Sample.poll_id p = true
    ∧ is_active p 0 = true.
Proof.
  destruct (created_poll_is_valid_owned_and_open Reference.digest
              Sample.unchanged Sample.unchanged empty_db Sample.site0 ∅
              Sample.tokens Sample.tok_id Sample.tok_creator 0 Sample.new_id
              Sample.form Sample.poll_id eq_refl ltac:(discriminate) eq_refl)
    as (p & _ & Hp & _ & Hv & Hc & _ & _ & _ & _ & _ & Ha & _).
  exists p. split; [exact Hp|]. split; [exact Hv|]. split; [exact Hc|exact Ha].
Defined.

Lemma deleted_poll_leaves_no_rows_witness :
  ∃ st', delete_poll Sample.site1 Sample.poll_id = Ok st'
         ∧ votes st' = []
         ∧ cast_vote Reference.digest st' Sample.poll_id 1 "S1" 30
           = (NotFound, st').
Proof.
  destruct (deleted_poll_leaves_no_rows Reference.digest Sample.site1
              Sample.poll_id sample_site_consistent)
    as (st' & Hd & _ & _ & Hv & _ & Hn).
  exists st'. split; [exact Hd|]. split; [|exact (Hn 1 "S1" 30)].
  rewrite Hv. reflexivity.
Defined.

Lemma cleanup_removes_exactly_the_expired_witness :
  ∃ st', cleanup_expired_polls Sample.site1 4000 = (Ok 1, st')
         ∧ consistent st'.
Proof.
  destruct (cleanup_removes_exactly_the_expired Sample.site1 4000
              sample_site_consistent)
    as (count & st' & Hc & _ & _ & _ & Hcons).
  exists st'. split; [|exact Hcons].
  rewrite Hc. vm_compute in Hc. by injection Hc as <- _.
Defined.

Lemma edit_keeps_votes_and_closure_witness :
  ∃ p',
    polls (edit_poll Sample.unchanged Sample.unchanged Sample.site1
             Sample.poll_id 30
             (mkFormData (Some "Tea or mate?") (Some "unknown") false []))
      !! Sample.poll_id = Some p'
    ∧ question p' = "Tea or mate?"
    ∧ total_votes p' = 2
    ∧ expires_at p' = Some 3600.
Proof.
  destruct (edit_keeps_votes_and_closure Sample.unchanged Sample.unchanged
              Sample.site1 Sample.poll_id
              (set_total_votes
                 (mkPoll "Tea or coffee?" None (Some 3600) true false false
                    Sample.creator_token 0) 2)
              30 (mkFormData (Some "Tea or mate?") (Some "unknown") false [])
              eq_refl)
    as (p' & Hp & Hq & _ & _ & Ht & _ & _ & _ & _ & He & _).
  exists p'. split; [exact Hp|]. split; [exact Hq|]. split; [exact Ht|].
  apply He. vm_compute. intros H. repeat (inversion H as [|? ? ? H']; clear H; rename H' into H).
Defined.

Lemma created_poll_lists_the_form_options_witness :
  option_text <$> (options_of Sample.site0 Sample.poll_id).*2
  = ["Tea"; "Coffee"; "Milk"].
Proof.
  destruct (created_poll_lists_the_form_options Reference.digest
              Sample.unchanged Sample.unchanged empty_db Sample.site0
              Sample.tok_id Sample.tok_creator 0 Sample.new_id Sample.form
              Sample.poll_id Sample.creator_token
              (cons_keys _ empty_db_consistent) eq_refl)
    as (H & _).
  rewrite H. reflexivity.
Defined.
